(** * Swift2: world persistence, script attachment and the scripting bridge

    A shallow embedding of [src/World/World.cpp] (World::update, load, save,
    addEntity, removeEntity, addScript, removeScript, the destructor), of
    [TestWorld::update] and of the [lpp::Selection] operators of the
    scripting bridge, followed by the properties proved about them.

    Conventions.
    - A C++ [int] is a [Z] with the 32-bit wrap-around written out.
    - [std::map] and [std::unordered_map] are [gmap]s; a range-for over one
      walks [map_to_list].  No property below depends on that order.
    - [std::vector<Entity*>] is a [list]; an [Entity*] handed out by
      [addEntity] is the index of the entity in that list.
    - A [Script*] is an address into the asset manager's script cache.
    - tinyxml2 and the Lua C API are libraries outside the repository; the
      part of their documented behaviour the code relies on is written
      out in the sections [tinyxml2] and [Lua C API] below.  What is not
      written out is a parameter ([Tinyxml2], [LuaInterpreter]). *)

From Stdlib Require Import ZArith.
From Stdlib Require OrderedTypeEx.
From Stdlib Require Import Sorted.
From stdpp Require Import gmap strings list fin_maps pretty.

Local Open Scope Z_scope.

(* ===================================================================== *)
(** ** Machine integers *)
(* ===================================================================== *)

Definition INT_MIN : Z := - 2 ^ 31.
Definition INT_MAX : Z := 2 ^ 31 - 1.

(** [static_cast<int>(x)]: reduction into the 32-bit two's complement range. *)
Definition to_int (x : Z) : Z := (x + 2 ^ 31) mod 2 ^ 32 - 2 ^ 31.

(** [a + b] on [int]. *)
Definition int_add (a b : Z) : Z := to_int (a + b).

(** [static_cast<unsigned>(x)]. *)
Definition to_unsigned (x : Z) : Z := x mod 2 ^ 32.

(* ===================================================================== *)
(** ** Results of code that may dereference a null pointer *)
(* ===================================================================== *)

Inductive outcome (A : Type) : Type :=
| Returns (a : A)
| Undefined.
Arguments Returns {A} a.
Arguments Undefined {A}.

Definition obind {A B} (o : outcome A) (k : A → outcome B) : outcome B :=
  match o with
  | Returns a => k a
  | Undefined => Undefined
  end.

Notation "x ←! o ; k" := (obind o (λ x, k))
  (at level 20, o at level 100, k at level 200, only parsing).
Notation "' pat ←! o ; k" := (obind o (λ pat, k))
  (at level 20, pat pattern, o at level 100, k at level 200, only parsing).

(** A loop [for (x : xs) st = body(st, x)] whose body may be undefined. *)
Fixpoint for_each {A S} (body : S → A → outcome S) (st : S) (xs : list A)
  : outcome S :=
  match xs with
  | [] => Returns st
  | x :: rest => st' ←! body st x; for_each body st' rest
  end.

(** [s.c_str()], read as a C string: the characters before the first
    NUL. *)
Fixpoint c_str (s : string) : string :=
  match s with
  | EmptyString => EmptyString
  | String c rest =>
      if Ascii.eqb c Ascii.zero then EmptyString else String c (c_str rest)
  end.

(** [store.find(n)->second] on a [std::map]: undefined for a key that is
    not in the map, where [find] returns [end()]. *)
Definition find_second {V} (n : string) (store : gmap string V) : outcome V :=
  match store !! n with
  | Some v => Returns v
  | None => Undefined
  end.

(* ===================================================================== *)
(** ** tinyxml2: documents, elements, files *)
(* ===================================================================== *)

#[warnings="-register-all"]
Inductive XMLNode : Type :=
| XMLElement (name : string) (children : list XMLNode)
| XMLText (text : string)
| XMLMisc (text : string).   (* declaration, comment, unknown *)

(** An [XMLDocument] is the list of its top-level nodes. *)
Abbreviation XMLDocument := (list XMLNode).

Inductive XMLError : Type :=
| XML_SUCCESS
| XML_ERROR_FILE_NOT_FOUND
| XML_ERROR_FILE_COULD_NOT_BE_OPENED
| XML_ERROR_PARSING.

(** [if (doc.LoadFile(...))]: an [XMLError] converts to [true] when it is
    not [XML_SUCCESS]. *)
Definition XMLError_failed (e : XMLError) : bool :=
  match e with XML_SUCCESS => false | _ => true end.

Definition NewElement (name : string) : XMLNode := XMLElement name [].

(** [node->Value()]: the name of an element, the text of the others. *)
Definition Value (n : XMLNode) : string :=
  match n with
  | XMLElement name _ => name
  | XMLText t => t
  | XMLMisc t => t
  end.

Definition Children (n : XMLNode) : list XMLNode :=
  match n with
  | XMLElement _ cs => cs
  | _ => []
  end.

Definition InsertEndChild (child parent : XMLNode) : XMLNode :=
  match parent with
  | XMLElement name cs => XMLElement name (cs ++ [child])
  | other => other
  end.

Definition DeleteChildren (n : XMLNode) : XMLNode :=
  match n with
  | XMLElement name _ => XMLElement name []
  | other => other
  end.

(** [element->SetText(t)]: overwrite a leading text child, else insert one
    in front. *)
Definition SetText (t : string) (n : XMLNode) : XMLNode :=
  match n with
  | XMLElement name (XMLText _ :: cs) => XMLElement name (XMLText t :: cs)
  | XMLElement name cs => XMLElement name (XMLText t :: cs)
  | other => other
  end.

(** [element->GetText()]: the text of the first child when that child is a
    text node, a null pointer otherwise. *)
Definition GetText (n : XMLNode) : option string :=
  match n with
  | XMLElement _ (XMLText t :: _) => Some t
  | _ => None
  end.

(** The filter of [FirstChildElement(name)] / [NextSiblingElement(name)]:
    element nodes only, and only those called [name] when a name is
    given. *)
Definition element_matches (name : option string) (n : XMLNode) : bool :=
  match n with
  | XMLElement v _ =>
      match name with
      | None => true
      | Some s => bool_decide (v = s)
      end
  | _ => false
  end.

(** The elements visited by
    [for (e = p->FirstChildElement(n); e; e = e->NextSiblingElement(n))]. *)
Definition child_elements (name : option string) (cs : list XMLNode)
  : list XMLNode :=
  List.filter (element_matches name) cs.

Definition FirstChildElement (name : option string) (cs : list XMLNode)
  : option XMLNode :=
  head (child_elements name cs).

(** In-place update of the node [FirstChildElement(name)] points to. *)
Fixpoint update_first_element (name : string) (f : XMLNode → XMLNode)
    (cs : list XMLNode) : list XMLNode :=
  match cs with
  | [] => []
  | c :: rest =>
      if element_matches (Some name) c then f c :: rest
      else c :: update_first_element name f rest
  end.

(** [doc.InsertFirstChild(n)]. *)
Definition InsertFirstChild (n : XMLNode) (doc : XMLDocument) : XMLDocument :=
  n :: doc.

(** *** Printing a document and reading it back

    [SaveFile] prints the tree as text and [LoadFile] parses text, and
    the tree read back is not always the tree printed.  Text is printed
    with [&], [<] and [>] escaped and read back with the entities
    decoded, so its characters survive; but

    - adjacent text nodes are printed as one run of text;
    - a run of text that is white space only is skipped by the parser
      (no text node is made of it), also when it is empty;
    - in text that is kept, CR LF, LF CR and a single CR are read as LF;
    - a tag is read back by name only when its name is an XML name. *)

(** [isspace] in the C locale. *)
Definition is_space (c : Ascii.ascii) : bool :=
  let n := Ascii.nat_of_ascii c in
  (n =? 32)%nat || ((9 <=? n)%nat && (n <=? 13)%nat).

Fixpoint blank (s : string) : bool :=
  match s with
  | EmptyString => true
  | String c rest => is_space c && blank rest
  end.

Definition CR : Ascii.ascii := Ascii.ascii_of_nat 13.
Definition LF : Ascii.ascii := Ascii.ascii_of_nat 10.

(** The new-line normalization of text that is read. *)
Fixpoint newline_normalization (s : string) : string :=
  match s with
  | EmptyString => EmptyString
  | String c rest =>
      if Ascii.eqb c CR then
        match rest with
        | String c' rest' =>
            if Ascii.eqb c' LF then String LF (newline_normalization rest')
            else String LF (newline_normalization rest)
        | EmptyString => String LF EmptyString
        end
      else if Ascii.eqb c LF then
        match rest with
        | String c' rest' =>
            if Ascii.eqb c' CR then String LF (newline_normalization rest')
            else String LF (newline_normalization rest)
        | EmptyString => String LF EmptyString
        end
      else String c (newline_normalization rest)
  end.

(** [XMLUtil::IsNameStartChar] and [XMLUtil::IsNameChar]. *)
Definition is_alpha (n : nat) : bool :=
  ((65 <=? n)%nat && (n <=? 90)%nat) || ((97 <=? n)%nat && (n <=? 122)%nat).

Definition IsNameStartChar (c : Ascii.ascii) : bool :=
  let n := Ascii.nat_of_ascii c in
  (if (n <? 128)%nat then is_alpha n else true) || (n =? 58)%nat || (n =? 95)%nat.

Definition IsNameChar (c : Ascii.ascii) : bool :=
  let n := Ascii.nat_of_ascii c in
  IsNameStartChar c || ((48 <=? n)%nat && (n <=? 57)%nat)
  || (n =? 46)%nat || (n =? 45)%nat.

Fixpoint all_chars (p : Ascii.ascii → bool) (s : string) : bool :=
  match s with
  | EmptyString => true
  | String c rest => p c && all_chars p rest
  end.

(** The string is read back as a tag name, whole. *)
Definition xml_name (s : string) : bool :=
  match s with
  | EmptyString => false
  | String c rest => IsNameStartChar c && all_chars IsNameChar rest
  end.

(** Every tag name of the tree is an XML name. *)
Fixpoint well_named (n : XMLNode) : bool :=
  match n with
  | XMLElement name cs => xml_name name && forallb well_named cs
  | _ => true
  end.

(** What is read of a run of text. *)
Definition read_text (run : string) : list XMLNode :=
  if blank run then [] else [XMLText (newline_normalization run)].

(** The children read back from the print of the children [cs], after
    the run of text [run] that was printed before them. *)
Fixpoint read_children (run : string) (cs : list XMLNode) : list XMLNode :=
  match cs with
  | [] => read_text run
  | XMLText t :: rest => read_children (run +:+ t) rest
  | c :: rest => read_text run ++ c :: read_children "" rest
  end.

(** The node read back from the print of a node. *)
Fixpoint reparse (n : XMLNode) : XMLNode :=
  match n with
  | XMLElement name cs => XMLElement name (read_children "" (reparse <$> cs))
  | other => other
  end.

Definition read_document (doc : XMLDocument) : XMLDocument :=
  read_children "" (reparse <$> doc).

(** Files.  A file either holds text that parses, as the document
    given, or text that does not; it may be read-only. *)
Inductive FileContent : Type :=
| Parses (doc : XMLDocument)
| Malformed.

Record File : Type := mkFile { content : FileContent; writable : bool }.

Abbreviation FileSystem := (gmap string File).

(** What the parser makes of the print of a document in which some tag
    name is not an XML name: the tags are read differently or not at
    all.  This is left open. *)
Class Tinyxml2 : Type :=
  parse_misnamed : XMLDocument → FileContent.

(** What a file holds after [doc] was printed to it.  A file without any
    node does not parse ([XML_ERROR_EMPTY_DOCUMENT]). *)
Definition printed `{Tinyxml2} (doc : XMLDocument) : FileContent :=
  if forallb well_named doc then
    match read_document doc with
    | [] => Malformed
    | nodes => Parses nodes
    end
  else parse_misnamed doc.

Definition LoadFile (path : string) (fs : FileSystem) : XMLError * XMLDocument :=
  match fs !! path with
  | None => (XML_ERROR_FILE_NOT_FOUND, [])
  | Some f =>
      match content f with
      | Parses doc => (XML_SUCCESS, doc)
      | Malformed => (XML_ERROR_PARSING, [])
      end
  end.

Definition SaveFile `{Tinyxml2} (path : string) (doc : XMLDocument)
    (fs : FileSystem) : XMLError * FileSystem :=
  match fs !! path with
  | None => (XML_SUCCESS, <[path := mkFile (printed doc) true]> fs)
  | Some f =>
      if writable f
      then (XML_SUCCESS, <[path := mkFile (printed doc) true]> fs)
      else (XML_ERROR_FILE_COULD_NOT_BE_OPENED, fs)
  end.

(** The destination can be opened for writing. *)
Definition can_write (path : string) (fs : FileSystem) : bool :=
  match fs !! path with
  | None => true
  | Some f => writable f
  end.

(* ===================================================================== *)
(** ** Components and entities *)
(* ===================================================================== *)

(** The [Component] interface of [Physical.hpp]: [serialize] returns a
    [std::map<std::string, std::string>], [unserialize] reads one.  The
    other members stand for code outside [World.cpp] that [load] calls:
    the name-to-constructor table behind [Entity::add], and of a
    Drawable the member [texture] (a path) and [sprite.setTexture].  An
    [sf::Sprite] keeps a pointer to the texture it is handed;
    [setTexture n] makes the sprite point to the texture the asset
    manager stores under [n]. *)
Class ComponentOps (Component : Type) : Type := {
  serialize : Component → gmap string string;
  unserialize : gmap string string → Component → Component;
  construct : string → option Component;
  texture : Component → string;
  setTexture : string → Component → Component
}.

(** Modelled from the spec: the Component Store ([Entity.hpp] is not among
    the sources).  An entity is a mapping from type name to owned
    component. *)
Abbreviation Entity Component := (gmap string Component).

(** Modelled from the spec: [Entity::add(typeName)] constructs a component
    of the named type unless one of that name is already there, in which
    case it does nothing. *)
Definition Entity_add `{ComponentOps Component} (typeName : string)
    (e : Entity Component) : Entity Component :=
  match e !! typeName with
  | Some _ => e
  | None =>
      match construct typeName with
      | Some c => <[typeName := c]> e
      | None => e
      end
  end.

(** Modelled from the spec: [Entity::get(typeName)] is null when the
    component is absent. *)
Definition Entity_get {Component} (typeName : string) (e : Entity Component)
  : option Component :=
  e !! typeName.

(** Modelled from the spec: [Entity::getComponents()] is the mapping, in
    its iteration order. *)
Definition getComponents {Component} (e : Entity Component)
  : list (string * Component) :=
  map_to_list e.

(* ===================================================================== *)
(** ** The World *)
(* ===================================================================== *)

Abbreviation WorldPtr := positive.
Abbreviation ScriptPtr := positive.

Record World (Component : Type) : Type := mkWorld {
  this : WorldPtr;                        (* the address of the object *)
  name : string;
  entities : list (Entity Component);     (* std::vector<Entity*> *)
  scripts : gmap string ScriptPtr         (* file name -> Script* *)
}.
Arguments mkWorld {Component}.
Arguments this {Component}.
Arguments name {Component}.
Arguments entities {Component}.
Arguments scripts {Component}.

Definition set_entities {Component} (es : list (Entity Component))
    (w : World Component) : World Component :=
  mkWorld (this w) (name w) es (scripts w).

Definition set_scripts {Component} (ss : gmap string ScriptPtr)
    (w : World Component) : World Component :=
  mkWorld (this w) (name w) (entities w) ss.

(** [World::World(n, s, am)]: no entities, no scripts. *)
Definition World_new {Component} (addr : WorldPtr) (n : string)
  : World Component :=
  mkWorld addr n [] ∅.

(** The path [load] and [save] hand to tinyxml2: [file.c_str()] for
    [file = "./data/saves/" + name + ".world"]. *)
Definition save_path (n : string) : string :=
  c_str ("./data/saves/" +:+ n +:+ ".world").

(** [World::addEntity]: the pointer is null when the vector did not grow
    past [unsigned oldSize]. *)
Definition addEntity {Component} (w : World Component)
  : World Component * option nat :=
  let oldSize := to_unsigned (Z.of_nat (length (entities w))) in
  let es := entities w ++ [∅] in
  (set_entities es w,
   if Z.of_nat (length es) >? oldSize then Some (length es - 1)%nat else None).

(** [World::removeEntity]. *)
Definition removeEntity {Component} (e : Z) (w : World Component)
  : bool * World Component :=
  let size := to_int (Z.of_nat (length (entities w))) in
  if (e >=? size) || (int_add size e <? 0) then (false, w)
  else
    let pos := if e >=? 0 then e else Z.of_nat (length (entities w)) + e in
    (true, set_entities (delete (Z.to_nat pos) (entities w)) w).

(* --------------------------------------------------------------------- *)
(** *** World::save *)

Section Persistence.
Context `{ComponentOps Component} `{Tinyxml2}.

(** The body of [for (auto& v : c.second->serialize())]. *)
Definition save_variable (component : XMLNode) (v : string * string)
  : XMLNode :=
  let variable := SetText (c_str v.2) (NewElement (c_str v.1)) in
  InsertEndChild variable component.

(** The body of [for (auto& c : e->getComponents())]. *)
Definition save_component (entity : XMLNode) (c : string * Component)
  : XMLNode :=
  let component :=
    foldl save_variable (NewElement (c_str c.1))
      (map_to_list (serialize c.2)) in
  InsertEndChild component entity.

(** The body of [for (auto& e : entities)]. *)
Definition save_entity (root : XMLNode) (e : Entity Component) : XMLNode :=
  let entity := foldl save_component (NewElement "entity") (getComponents e) in
  InsertEndChild entity root.

(** The document at the end of [save], before [SaveFile]. *)
Definition save_document (w : World Component) (saveFile : XMLDocument)
  : XMLDocument :=
  let saveFile1 :=
    match FirstChildElement (Some "world") saveFile with
    | None => InsertFirstChild (NewElement "world") saveFile
    | Some _ => update_first_element "world" DeleteChildren saveFile
    end in
  update_first_element "world"
    (λ root, foldl save_entity root (entities w)) saveFile1.

(** [World::save]: the returned flag, the world afterwards, the file
    system afterwards.  The messages it sends to the log are not part of
    this model. *)
Definition save (w : World Component) (fs : FileSystem)
  : bool * World Component * FileSystem :=
  let file := save_path (name w) in
  let '(err, saveFile) := LoadFile file fs in
  if XMLError_failed err then (false, w, fs)
  else
    let '(_, fs') := SaveFile file (save_document w saveFile) fs in
    (true, w, fs').

(* ------------------------------------------------------------------- *)
(** *** World::load *)

(** [variables.emplace(k, v)]: no effect when the key is present. *)
Definition map_emplace {V} (k : string) (v : V) (m : gmap string V)
  : gmap string V :=
  match m !! k with
  | Some _ => m
  | None => <[k := v]> m
  end.

(** The body of the loop over the variable elements.  [GetText] is only
    evaluated when the name is not empty; [std::string(nullptr)] is
    undefined. *)
Definition load_variable (variables : gmap string string)
    (variableElement : XMLNode) : outcome (gmap string string) :=
  if (0 <? String.length (Value variableElement))%nat then
    match GetText variableElement with
    | None => Undefined
    | Some text =>
        if (0 <? String.length text)%nat
        then Returns (map_emplace (Value variableElement) text variables)
        else Returns variables
    end
  else Returns variables.

(** Apply [f] to the entity behind the pointer [addEntity] returned. *)
Definition with_entity (entity : nat)
    (f : Entity Component → Entity Component) (w : World Component)
  : World Component :=
  set_entities (alter f entity (entities w)) w.

Section Loading.
(** The texture store of the asset manager [assets] of the World; the
    textures themselves are not looked at. *)
Context {Tex : Type} (textures : gmap string Tex).

(** The body of the loop over the component elements of one entity.
    [assets.getTexture(n)] is [textures.find(n)->second]. *)
Definition load_component (entity : nat) (w : World Component)
    (component : XMLNode) : outcome (World Component) :=
  let componentName := Value component in
  let w1 := with_entity entity (Entity_add componentName) w in
  variables ←! for_each load_variable ∅
                 (child_elements None (Children component));
  match entities w1 !! entity ≫= Entity_get componentName with
  | None => Undefined            (* entity->get(componentName) is null *)
  | Some _ =>
      let w2 := with_entity entity
                  (alter (unserialize variables) componentName) w1 in
      if bool_decide (componentName = "Drawable") then
        match entities w2 !! entity ≫= Entity_get "Drawable" with
        | None => Undefined      (* entity->get<Drawable>() is null *)
        | Some drawable =>
            _ ←! find_second (texture drawable) textures;
            Returns (with_entity entity
                       (alter (setTexture (texture drawable)) "Drawable") w2)
        end
      else Returns w2
  end.

(** The body of the loop over the entity elements. *)
Definition load_entity (w : World Component) (entityElement : XMLNode)
  : outcome (World Component) :=
  let '(w1, entity) := addEntity w in
  match entity with
  | None => Undefined
  | Some entity =>
      for_each (load_component entity) w1
        (child_elements None (Children entityElement))
  end.

(** [World::load].  The messages it sends to the log are not part of
    this model. *)
Definition load (w : World Component) (fs : FileSystem)
  : outcome (bool * World Component) :=
  let file := save_path (name w) in
  let '(err, loadFile) := LoadFile file fs in
  if XMLError_failed err then Returns (false, w)
  else
    match FirstChildElement (Some "world") loadFile with
    | None => Returns (false, w)
    | Some worldRoot =>
        w' ←! for_each load_entity w
                (child_elements (Some "entity") (Children worldRoot));
        Returns (true, w')
    end.

End Loading.

End Persistence.

(* ===================================================================== *)
(** ** The systems and the entity loop of a tick *)
(* ===================================================================== *)

(** Modelled from the spec: the three systems [World::update] calls as
    [system.update] on one entity and [dt]; their bodies are not among
    the sources.
    The systems are objects, members of the World: a call works on the
    entity it is handed and on what the systems keep ([State]). *)
Record Systems (Component float State : Type) : Type := mkSystems {
  moveSystem : Entity Component → float → State → Entity Component * State;
  physicalSystem : Entity Component → float → State → Entity Component * State;
  drawSystem : Entity Component → float → State → Entity Component * State
}.
Arguments mkSystems {Component float State}.
Arguments moveSystem {Component float State}.
Arguments physicalSystem {Component float State}.
Arguments drawSystem {Component float State}.

Inductive SystemId : Type := Move | Physical | Draw.

#[global] Instance SystemId_eq_dec : EqDecision SystemId.
Proof. solve_decision. Defined.

Section Scheduler.
Context {Component float State : Type}.

(** The first loop of [World::update]. *)
Fixpoint update_entities (sys : Systems Component float State) (dt : float)
    (es : list (Entity Component)) (st : State)
  : list (Entity Component) * State :=
  match es with
  | [] => ([], st)
  | e :: rest =>
      let '(e1, st1) := moveSystem sys e dt st in
      let '(e2, st2) := physicalSystem sys e1 dt st1 in
      let '(e3, st3) := drawSystem sys e2 dt st2 in
      let '(rest', st') := update_entities sys dt rest st3 in
      (e3 :: rest', st')
  end.

(** The loop of [TestWorld::update]: between the physical and the draw
    system stands [if (e->has<Physical>()) { }], whose body (the bound
    clamping and the tile collision) is commented out. *)
Fixpoint TestWorld_update (sys : Systems Component float State) (dt : float)
    (es : list (Entity Component)) (st : State)
  : list (Entity Component) * State :=
  match es with
  | [] => ([], st)
  | e :: rest =>
      let '(e1, st1) := moveSystem sys e dt st in
      let '(e2, st2) := physicalSystem sys e1 dt st1 in
      let e2' := if bool_decide (is_Some (e2 !! "Physical")) then e2 else e2 in
      let '(e3, st3) := drawSystem sys e2' dt st2 in
      let '(rest', st') := TestWorld_update sys dt rest st3 in
      (e3 :: rest', st')
  end.

(** The same systems, keeping in addition the list of the calls made so
    far: which system was called, and the entity it was handed. *)
Definition recorded (id : SystemId)
    (system : Entity Component → float → State → Entity Component * State)
    (e : Entity Component) (dt : float)
    (st : State * list (SystemId * Entity Component))
  : Entity Component * (State * list (SystemId * Entity Component)) :=
  let '(e', st') := system e dt st.1 in
  (e', (st', st.2 ++ [(id, e)])).

Definition recording (sys : Systems Component float State)
  : Systems Component float (State * list (SystemId * Entity Component)) :=
  mkSystems (recorded Move (moveSystem sys))
            (recorded Physical (physicalSystem sys))
            (recorded Draw (drawSystem sys)).

(** Systems that keep nothing: each is an operation on the one entity
    it is handed. *)
Definition pure_systems (move physical draw : Entity Component → float
                                               → Entity Component)
  : Systems Component float State :=
  mkSystems (λ e dt st, (move e dt, st))
            (λ e dt st, (physical e dt, st))
            (λ e dt st, (draw e dt, st)).

(** Modelled from the spec: a system is stateless between entities. *)
Definition stateless (sys : Systems Component float State)
    (move physical draw : Entity Component → float → Entity Component)
  : Prop :=
  ∀ e dt st,
    moveSystem sys e dt st = (move e dt, st) ∧
    physicalSystem sys e dt st = (physical e dt, st) ∧
    drawSystem sys e dt st = (draw e dt, st).

(** One pass of one operation over all entities. *)
Definition pass (system : Entity Component → float → Entity Component)
    (dt : float) (es : list (Entity Component)) : list (Entity Component) :=
  map (λ e, system e dt) es.

(** The calls of three passes, as the specification words the scheduler:
    the movement pass over all entities, then the physical pass, then
    the draw-state pass. *)
Definition pass_by_pass (calls : list SystemId) (n : nat) : Prop :=
  calls = replicate n Move ++ replicate n Physical ++ replicate n Draw.

End Scheduler.

(* ===================================================================== *)
(** ** Script instances and the asset manager *)
(* ===================================================================== *)

(** What a script file does: its [Update()] function, which may change the
    entities of the world it is attached to through the host functions,
    and the value of its global [Done]. *)
Class LuaScript (LuaState Component : Type) : Type := {
  lua_Update : LuaState → list (Entity Component)
               → LuaState * list (Entity Component);
  lua_Done : LuaState → bool
}.

Record Script (LuaState : Type) : Type := mkScript {
  luaState : LuaState;
  deleteMe : bool;
  world : option WorldPtr       (* None is nullptr *)
}.
Arguments mkScript {LuaState}.
Arguments luaState {LuaState}.
Arguments deleteMe {LuaState}.
Arguments world {LuaState}.

(** Modelled from the spec: [Script::update], declared in [Script.hpp],
    body not among the sources.  It runs the script's [Update] and reads
    [Done] into the flag. *)
Definition Script_update `{LuaScript LuaState Component}
    (s : Script LuaState) (es : list (Entity Component))
  : Script LuaState * list (Entity Component) :=
  let '(l, es') := lua_Update (luaState s) es in
  (mkScript l (lua_Done l) (world s), es').

(** Modelled from the spec: [Script::toDelete] returns the flag. *)
Definition Script_toDelete {LuaState} (s : Script LuaState) : bool :=
  deleteMe s.

(** Modelled from the spec: the two overloads of [Script::setWorld] write
    the current-world pointer. *)
Definition Script_setWorld {LuaState} (w : option WorldPtr)
    (s : Script LuaState) : Script LuaState :=
  mkScript (luaState s) (deleteMe s) w.

(** Modelled from the spec: [Script::getWorld] reads it. *)
Definition Script_getWorld {LuaState} (s : Script LuaState)
  : option WorldPtr :=
  world s.

(** The asset manager as the scripts of a World see it.
    [AssetManager::getScript(n)] returns a reference into the manager's
    script store ([scripts.find(n)->second]), and the World keeps its
    address.  Instances are shared between Worlds, so the store is kept
    by address: [getScript] gives the address for a name, [scriptCache]
    the instance at an address.  A name the store does not hold has an
    address without an instance, and using it is undefined ([deref]). *)
Record AssetManager (LuaState : Type) : Type := mkAssets {
  getScript : string → ScriptPtr;
  scriptCache : gmap ScriptPtr (Script LuaState)
}.
Arguments mkAssets {LuaState}.
Arguments getScript {LuaState}.
Arguments scriptCache {LuaState}.

(** [p->f()] for a member [f] that changes the script. *)
Definition deref {LuaState} (p : ScriptPtr)
    (f : Script LuaState → Script LuaState) (am : AssetManager LuaState)
  : outcome (AssetManager LuaState) :=
  match scriptCache am !! p with
  | None => Undefined
  | Some s => Returns (mkAssets (getScript am) (<[p := f s]> (scriptCache am)))
  end.

Section Scripts.
Context {LuaState Component : Type} `{!LuaScript LuaState Component}.

(** [World::addScript]. *)
Definition addScript (scriptFile : string) (w : World Component)
    (am : AssetManager LuaState)
  : outcome (bool * World Component * AssetManager LuaState) :=
  match scripts w !! scriptFile with
  | None =>
      let w' := set_scripts
                  (<[scriptFile := getScript am scriptFile]> (scripts w)) w in
      am' ←! deref (getScript am scriptFile)
               (Script_setWorld (Some (this w))) am;
      Returns (true, w', am')
  | Some _ => Returns (false, w, am)
  end.

(** [World::removeScript]. *)
Definition removeScript (scriptFile : string) (w : World Component)
  : bool * World Component :=
  match scripts w !! scriptFile with
  | Some _ => (true, set_scripts (delete scriptFile (scripts w)) w)
  | None => (false, w)
  end.

(** The body of [for (auto& s : scripts)] in [World::update]. *)
Definition update_script (self : WorldPtr)
    (st : AssetManager LuaState * list (Entity Component) * list string)
    (s : string * ScriptPtr)
  : outcome (AssetManager LuaState * list (Entity Component) * list string) :=
  let '(am, es, doneScripts) := st in
  match scriptCache am !! s.2 with
  | None => Undefined
  | Some script =>
      let script1 :=
        if bool_decide (Script_getWorld script = Some self) then script
        else Script_setWorld (Some self) script in
      let '(script2, es') := Script_update script1 es in
      Returns
        (mkAssets (getScript am) (<[s.2 := script2]> (scriptCache am)),
         es',
         if Script_toDelete script2 then doneScripts ++ [s.1]
         else doneScripts)
  end.

(** The body of [for (auto& s : doneScripts)]. *)
Definition remove_done (w : World Component) (s : string)
  : World Component :=
  (removeScript s w).2.

(** [World::update]; also returns the names pushed to [doneScripts]
    and what the systems keep afterwards. *)
Definition update {float State} (sys : Systems Component float State)
    (dt : float) (w : World Component) (am : AssetManager LuaState)
    (st : State)
  : outcome (World Component * AssetManager LuaState * list string * State) :=
  let '(es, st') := update_entities sys dt (entities w) st in
  '(am', es', doneScripts) ←!
     for_each (update_script (this w)) (am, es, [])
       (map_to_list (scripts w));
  Returns (foldl remove_done (set_entities es' w) doneScripts,
           am', doneScripts, st').

(** The property that a tick makes its calls to the systems pass by
    pass, at one World. *)
Definition runs_pass_by_pass {float State}
    (sys : Systems Component float State) (dt : float) (w : World Component)
    (am : AssetManager LuaState) (st : State) : Prop :=
  ∀ w' am' d st' calls,
    update (recording sys) dt w am (st, []) =
      Returns (w', am', d, (st', calls)) →
    pass_by_pass calls.*1 (length (entities w)).

(** The body of [for (auto& it : scripts)] in the destructor. *)
Definition detach_script (am : AssetManager LuaState)
    (it : string * ScriptPtr) : outcome (AssetManager LuaState) :=
  deref it.2 (Script_setWorld None) am.

(** [World::~World]: save, detach every script of the mapping, delete
    the entities.  What is left is the asset manager and the files. *)
Definition World_destroy `{!ComponentOps Component} `{!Tinyxml2}
    (w : World Component)
    (am : AssetManager LuaState) (fs : FileSystem)
  : outcome (AssetManager LuaState * FileSystem) :=
  let '(_, _, fs') := save w fs in
  am' ←! for_each detach_script am (map_to_list (scripts w));
  Returns (am', fs').

(** The script at [p] has [self] as its current world. *)
Definition attached (self : WorldPtr) (p : ScriptPtr)
    (am : AssetManager LuaState) : Prop :=
  ∃ s, scriptCache am !! p = Some s ∧ world s = Some self.

(** The script at [p] has no current world. *)
Definition detached (p : ScriptPtr) (am : AssetManager LuaState) : Prop :=
  ∃ s, scriptCache am !! p = Some s ∧ world s = None.

(** The invariant of the data model: the current world of every script
    instance is null or a live World that lists the instance. *)
Definition attachment_invariant (live : list (World Component))
    (am : AssetManager LuaState) : Prop :=
  ∀ p s, scriptCache am !! p = Some s →
    world s = None ∨
    ∃ w k, w ∈ live ∧ world s = Some (this w) ∧ scripts w !! k = Some p.

End Scripts.

(* ===================================================================== *)
(** ** Lua C API *)
(* ===================================================================== *)

Inductive LuaValue : Type :=
| LNil
| LBoolean (b : bool)
| LNumber (n : Z)
| LString (s : string)
| LFunction (f : nat).

(** The interpreter state: the stack (top first) and the globals. *)
Record lua_State : Type := mkLua {
  lua_stack : list LuaValue;
  lua_globals : gmap string LuaValue
}.

(** What running function [f] on its arguments does: an error message or
    the returned values, and the globals afterwards. *)
Class LuaInterpreter : Type :=
  lua_run : nat → list LuaValue → gmap string LuaValue
            → (string + list LuaValue) * gmap string LuaValue.

Inductive lua_status : Type := LUA_OK | LUA_ERRRUN.

Definition lua_typename (v : LuaValue) : string :=
  match v with
  | LNil => "nil"
  | LBoolean _ => "boolean"
  | LNumber _ => "number"
  | LString _ => "string"
  | LFunction _ => "function"
  end.

Definition lua_getglobal (n : string) (L : lua_State) : lua_State :=
  mkLua (default LNil (lua_globals L !! n) :: lua_stack L) (lua_globals L).

Definition lua_setglobal (n : string) (L : lua_State) : lua_State :=
  match lua_stack L with
  | v :: below => mkLua below (<[n := v]> (lua_globals L))
  | [] => L
  end.

Definition lua_pushvalue (v : LuaValue) (L : lua_State) : lua_State :=
  mkLua (v :: lua_stack L) (lua_globals L).

Definition lua_gettop (L : lua_State) : Z := Z.of_nat (length (lua_stack L)).

(** [lua_tolstring(L, -1, &size)]: null unless the top is a string (the
    conversion of numbers is left out: error messages are strings). *)
Definition lua_tolstring_top (L : lua_State) : option string :=
  match lua_stack L with
  | LString s :: _ => Some s
  | _ => None
  end.

(** [lua_pcall(L, nargs, LUA_MULTRET, 0)]: pops the arguments and the
    function under them; pushes the results, or the error message. *)
Definition lua_pcall `{LuaInterpreter} (nargs : nat) (L : lua_State)
  : lua_status * lua_State :=
  let args := reverse (take nargs (lua_stack L)) in
  match drop nargs (lua_stack L) with
  | LFunction f :: below =>
      match lua_run f args (lua_globals L) with
      | (inl msg, g) => (LUA_ERRRUN, mkLua (LString msg :: below) g)
      | (inr rets, g) => (LUA_OK, mkLua (reverse rets ++ below) g)
      end
  | v :: below =>
      (LUA_ERRRUN,
       mkLua (LString ("attempt to call a " +:+ lua_typename v +:+ " value")
                :: below) (lua_globals L))
  | [] => (LUA_ERRRUN, L)
  end.

(* ===================================================================== *)
(** ** lpp::Selection *)
(* ===================================================================== *)

(** The members [name] and [index]; [state] and [functions] refer to
    objects shared with the owning [lpp::State] and are passed along. *)
Record Selection : Type := mkSelection {
  sel_name : string;
  sel_index : Z
}.

(** How [Selection::operator()] ends: it returns a Selection, or it
    calls [luaL_error] with the message as the format, which raises a
    Lua error and never returns, or the message pointer was null. *)
Inductive call_result : Type :=
| Selected (sel : Selection) (L : lua_State)
| Raised (fmt : string) (L : lua_State)
| NullMessage.

(** [detail::distributeArgs(state, args...)]: the arguments, already
    converted, are pushed left to right. *)
Definition distributeArgs (args : list LuaValue) (L : lua_State) : lua_State :=
  foldl (λ L v, lua_pushvalue v L) L args.

(** [Selection::operator()(Args... args)]. *)
Definition Selection_call `{LuaInterpreter} (sel : Selection)
    (args : list LuaValue) (L : lua_State) : call_result :=
  let L1 := lua_getglobal (sel_name sel) L in
  let L2 := distributeArgs args L1 in
  let nargs := length args in
  let '(status, L3) := lua_pcall nargs L2 in
  match status with
  | LUA_ERRRUN =>
      match lua_tolstring_top L3 with
      | Some msg => Raised msg L3         (* luaL_error(state, msg.c_str()) *)
      | None => NullMessage
      end
  | LUA_OK =>
      let nrets := lua_gettop L3 in
      if nrets =? 0 then Selected (mkSelection "" 0) L3
      else Selected (mkSelection (sel_name sel +:+ " return") (- nrets)) L3
  end.

Definition PERCENT : Ascii.ascii := Ascii.ascii_of_nat 37.

(** [luaL_error(L, fmt)] raises an error whose message is
    [luaL_where(L, 1)] followed by what [lua_pushvfstring] makes of the
    format [fmt].  No argument follows the format in [operator()]: a
    format without [%] is the text, [%%] stands for [%], and any other
    conversion either reads an argument that was not passed or is
    refused with another error (Lua 5.2 and later; the code tests
    [LUA_OK]).  [None] stands for these two. *)
Fixpoint lua_pushfstring (fmt : string) : option string :=
  match fmt with
  | EmptyString => Some EmptyString
  | String c rest =>
      if Ascii.eqb c PERCENT then
        match rest with
        | String c' rest' =>
            if Ascii.eqb c' PERCENT then String PERCENT <$> lua_pushfstring rest'
            else None
        | EmptyString => None
        end
      else String c <$> lua_pushfstring rest
  end.

(** Where a call is made from.  [protected_calls] counts the [lua_pcall]s
    the call runs under; [panic_returns] tells whether the panic function
    of the state returns (the default one does); [position] is
    [luaL_where(L, 1)], the position in the Lua function that called into
    the host, empty when there is none. *)
Record CallContext : Type := mkContext {
  protected_calls : nat;
  panic_returns : bool;
  position : string
}.

(** What the caller of [operator()] sees.  A Lua error unwinds to the
    innermost protected call; when there is none Lua calls the panic
    function and, if that returns, [abort].  When the message has a
    conversion, what is raised is not the message. *)
Inductive host_view : Type :=
| Continues (sel : Selection) (L : lua_State)
| ErrorDelivered (text : string) (L : lua_State)
| PanicEscaped (text : string)
| ProcessAborted (text : string)
| MessageLost (fmt : string)
| UndefinedBehaviour.

Definition deliver (ctx : CallContext) (r : call_result) : host_view :=
  match r with
  | Selected sel L => Continues sel L
  | Raised fmt L =>
      match lua_pushfstring fmt with
      | None => MessageLost fmt
      | Some text =>
          if (0 <? protected_calls ctx)%nat
          then ErrorDelivered (position ctx +:+ text) L
          else if panic_returns ctx then ProcessAborted (position ctx +:+ text)
          else PanicEscaped (position ctx +:+ text)
      end
  | NullMessage => UndefinedBehaviour
  end.

(** Modelled from the spec: the host layer, [Script::update] calling
    [luaState["Update"]()] for [World::update]; neither [Script::update]
    nor [lpp::State] is among the sources.  The specification makes a
    script runtime error recoverable and visible to the caller, so the
    host layer calls into a script under a protected call.  No Lua
    function is running when it does. *)
Definition host_layer : CallContext := mkContext 1 true "".

(* --------------------------------------------------------------------- *)
(** *** The callable registry *)

(** A [CppFunction<Ret, Args...>] made by [new CppFunction(state, name, f)]. *)
Record CppFunction (Callable : Type) : Type := mkCppFunction {
  cf_name : string;
  cf_callable : Callable
}.
Arguments mkCppFunction {Callable}.
Arguments cf_name {Callable}.
Arguments cf_callable {Callable}.

(** The [FunctionsMap] of [std::unique_ptr]s, and the wrappers the
    [unique_ptr]s have deleted so far. *)
Record Registry (Callable : Type) : Type := mkRegistry {
  functions : gmap string (CppFunction Callable);
  released : list (CppFunction Callable)
}.
Arguments mkRegistry {Callable}.
Arguments functions {Callable}.
Arguments released {Callable}.

(** [Selection::operator=(const std::function<Ret(Args...)>& f)] and its
    function-pointer overload: [functions.emplace(name, unique_ptr(new
    CppFunction(state, name, f)))].  [emplace] on a key that is present
    inserts nothing, and the [unique_ptr] it was handed deletes the new
    wrapper. *)
Definition Selection_assign_function {Callable} (sel : Selection)
    (f : Callable) (reg : Registry Callable) : Registry Callable :=
  let wrapper := mkCppFunction (sel_name sel) f in
  match functions reg !! sel_name sel with
  | None => mkRegistry (<[sel_name sel := wrapper]> (functions reg))
                       (released reg)
  | Some _ => mkRegistry (functions reg) (released reg ++ [wrapper])
  end.

(** [Selection::operator=(T& t)]: [pushValue] then [lua_setglobal]. *)
Definition Selection_assign_value (sel : Selection) (t : LuaValue)
    (L : lua_State) : lua_State :=
  lua_setglobal (sel_name sel) (lua_pushvalue t L).

(* ===================================================================== *)
(** ** The save format *)
(* ===================================================================== *)

Section SaveFormat.
Context `{ComponentOps Component} `{Tinyxml2}.

(** The format of section 4.6 of the specification, written as the
    spec words it: a field record is a name and a string value, a
    component record is keyed by the type name and lists the field
    records, an entity record lists the component records, and the
    root lists the entity records.  Names and values are written as C
    strings. *)
Definition field_element (v : string * string) : XMLNode :=
  XMLElement v.1 [XMLText v.2].

Definition field_record (v : string * string) : XMLNode :=
  field_element (c_str v.1, c_str v.2).

Definition component_record (c : string * Component) : XMLNode :=
  XMLElement (c_str c.1) (field_record <$> map_to_list (serialize c.2)).

Definition entity_record (e : Entity Component) : XMLNode :=
  XMLElement "entity" (component_record <$> map_to_list e).

Definition world_record (w : World Component) : XMLNode :=
  XMLElement "world" (entity_record <$> entities w).

(** What [load] makes of a saved component of type [typeName]: a new
    component of that type, unserialized from the saved fields, whose
    sprite, when it is a Drawable, points to the texture stored under
    its texture path. *)
Definition fixup (typeName : string) (c : Component) : Component :=
  if bool_decide (typeName = "Drawable") then setTexture (texture c) c else c.

Definition reload (typeName : string) (c : Component) : option Component :=
  c0 ← construct typeName;
  Some (fixup typeName (unserialize (serialize c) c0)).

(** A field value is read back as it was written: it has no NUL, it is
    not white space only (so it is not empty), and new-line
    normalization leaves it as it is (it has no carriage return). *)
Definition survives (v : string) : Prop :=
  c_str v = v ∧ blank v = false ∧ newline_normalization v = v.

(** A component can be loaded again: its type name and its field names
    are XML names, its field values are read back as written, its type
    name is one [Entity::add] knows, and when it is a Drawable the
    asset manager holds the texture its fields name. *)
Definition loadable {Tex} (textures : gmap string Tex) (typeName : string)
    (c : Component) : Prop :=
  xml_name typeName = true ∧
  map_Forall (λ n v, xml_name n = true ∧ survives v) (serialize c) ∧
  ∃ c0, construct typeName = Some c0 ∧
        (typeName = "Drawable" →
         is_Some (textures !! texture (unserialize (serialize c) c0))).

(** The contract of a component type: reading the fields of a component
    into a new component of the type gives the same fields again. *)
Definition reads_back (typeName : string) (c : Component) : Prop :=
  ∀ c', reload typeName c = Some c' → serialize c' = serialize c.

(** The component names of an entity with the field names and values
    of each component. *)
Definition entity_fields (e : Entity Component)
  : gmap string (gmap string string) :=
  serialize <$> e.

(** What the component loop and the entity loop of [load] build. *)
Definition insert_reloaded (e : Entity Component) (kc : string * Component)
  : Entity Component :=
  match reload kc.1 kc.2 with
  | Some c' => <[kc.1 := c']> e
  | None => e
  end.

Definition reloaded (e : Entity Component) : Entity Component :=
  foldl insert_reloaded ∅ (map_to_list e).

(** The property that saving and then loading into a new World of the
    same name gives the entities back, at one world and one file
    system. *)
Definition save_load_roundtrips {Tex} (textures : gmap string Tex)
    (w : World Component) (a : WorldPtr) (fs : FileSystem) : Prop :=
  ∃ (b : bool) (w' : World Component),
    load textures (World_new a (name w)) (save w fs).2 = Returns (b, w') ∧
    entity_fields <$> entities w' = entity_fields <$> entities w.

(** The destination cannot be opened (there is no file) or cannot be
    written. *)
Definition cannot_open_or_write (path : string) (fs : FileSystem) : Prop :=
  fs !! path = None ∨ can_write path fs = false.

(** The property that [save] fails exactly when the destination cannot be
    opened or written, at one world and one file system. *)
Definition save_fails_iff_unwritable (w : World Component)
    (fs : FileSystem) : Prop :=
  (save w fs).1.1 = false ↔ cannot_open_or_write (save_path (name w)) fs.

End SaveFormat.

(* ===================================================================== *)
(** ** Example data *)
(* ===================================================================== *)

(** A two-type component set for the examples below (the engine's own
    component bodies are not among the sources): a Name with one field
    and a Drawable with a texture path and the texture its sprite shows. *)
Inductive SampleComponent : Type :=
| SampleName (n : string)
| SampleDrawable (texture : string) (sprite : option string).

#[global] Instance SampleComponent_ops : ComponentOps SampleComponent := {
  serialize c :=
    match c with
    | SampleName n => {[ "name" := n ]}
    | SampleDrawable t _ => {[ "texture" := t ]}
    end;
  unserialize variables c :=
    match c with
    | SampleName n => SampleName (default n (variables !! "name"))
    | SampleDrawable t s => SampleDrawable (default t (variables !! "texture")) s
    end;
  construct typeName :=
    if bool_decide (typeName = "Name") then Some (SampleName "")
    else if bool_decide (typeName = "Drawable") then Some (SampleDrawable "" None)
    else None;
  texture c :=
    match c with
    | SampleDrawable t _ => t
    | SampleName _ => ""
    end;
  setTexture n c :=
    match c with
    | SampleDrawable t _ => SampleDrawable t (Some n)
    | other => other
    end
}.

(** A parser that reads nothing from a file with a misnamed tag. *)
#[global] Instance strict_parser : Tinyxml2 := λ _, Malformed.

(** The texture store of the examples. *)
Definition sample_textures : gmap string unit :=
  {[ "./data/textures/ship.png" := () ]}.

(** A script that counts down and is done at zero; it leaves the entities
    alone. *)
#[global] Instance Countdown_script : LuaScript nat SampleComponent := {
  lua_Update n es := (pred n, es);
  lua_Done n := bool_decide (n = 0%nat)
}.

Definition ship : Entity SampleComponent :=
  {[ "Drawable" := SampleDrawable "./data/textures/ship.png"
                     (Some "./data/textures/ship.png");
     "Name" := SampleName "Lua Entity" ]}.

Definition player : Entity SampleComponent :=
  {[ "Name" := SampleName "player" ]}.

Definition sample_world : World SampleComponent :=
  mkWorld 1%positive "maze" [ship; player] {[ "quest.lua" := 7%positive ]}.

Definition sample_assets : AssetManager nat :=
  mkAssets (λ file, if bool_decide (file = "quest.lua") then 7%positive
                    else 8%positive)
           {[ 7%positive := mkScript 1%nat false (Some 1%positive);
              8%positive := mkScript 5%nat false None ]}.

(** Systems that leave the entity as it is and keep nothing; the tick
    length is a number. *)
Definition idle_systems : Systems SampleComponent nat unit :=
  pure_systems (λ e _, e) (λ e _, e) (λ e _, e).

(** Four states of the save file of [sample_world]. *)
Definition writable_fs : FileSystem :=
  {[ save_path "maze" :=
       mkFile (Parses [XMLMisc "xml version=1.0";
                       XMLElement "world" [XMLElement "entity" []]]) true ]}.

Definition rootless_fs : FileSystem :=
  {[ save_path "maze" := mkFile (Parses [XMLMisc "xml version=1.0"]) true ]}.

Definition malformed_fs : FileSystem :=
  {[ save_path "maze" := mkFile Malformed true ]}.

Definition readonly_fs : FileSystem :=
  {[ save_path "maze" := mkFile (Parses [XMLElement "world" []]) false ]}.

(** A Lua state whose global [Update] is function 0, which fails. *)
Definition Failing_interpreter : LuaInterpreter :=
  λ f args g, (inl "quest.lua:12: attempt to index a nil value", g).

(** The same with a script that runs [error("%s")]. *)
Definition Percent_interpreter : LuaInterpreter :=
  λ f args g, (inl "quest.lua:3: %s", g).

Definition sample_lua : lua_State :=
  mkLua [] {[ "Update" := LFunction 0 ]}.

(* ===================================================================== *)
(** ** std::map in key order *)
(* ===================================================================== *)

(** Where the order of a range-for over a [std::map<std::string, V>]
    matters, the map is the list of its entries in key order;
    [std::string] compares byte by byte, as [String.compare] does. *)
Abbreviation ordered_map V := (list (string * V)).

Definition key_lt (a b : string) : Prop := String.compare a b = Lt.

Definition keys_sorted {V} (m : ordered_map V) : Prop :=
  StronglySorted (λ x y, key_lt x.1 y.1) m.

(** [m.emplace(k, v)]: nothing happens when the key is there. *)
Fixpoint ordered_emplace {V} (k : string) (v : V) (m : ordered_map V)
  : ordered_map V :=
  match m with
  | [] => [(k, v)]
  | (k', v') :: rest =>
      match String.compare k k' with
      | Lt => (k, v) :: m
      | Eq => m
      | Gt => (k', v') :: ordered_emplace k v rest
      end
  end.

(** [m.find(k)]: the value, or nothing for [end()]. *)
Fixpoint ordered_find {V} (k : string) (m : ordered_map V) : option V :=
  match m with
  | [] => None
  | (k', v') :: rest =>
      if bool_decide (k = k') then Some v' else ordered_find k rest
  end.

(* ===================================================================== *)
(** ** MouseManager *)
(* ===================================================================== *)

Module MouseManager.

(** [sf::Mouse::Button]. *)
Inductive Button : Type := Left | Right | Middle | XButton1 | XButton2.

#[global] Instance Button_eq_dec : EqDecision Button.
Proof. solve_decision. Defined.

(** [sf::Event], as far as the manager looks at it: the type, and for
    the two mouse button events the member [mouseButton]. *)
Inductive Event : Type :=
| MouseButtonPressed (button : Button) (x y : Z)
| MouseButtonReleased (button : Button) (x y : Z)
| OtherEvent.

Definition is_pressed (e : Event) : bool :=
  match e with MouseButtonPressed _ _ _ => true | _ => false end.

Definition is_released (e : Event) : bool :=
  match e with MouseButtonReleased _ _ _ => true | _ => false end.

(** [e.mouseButton.button]; only read for the two mouse button events. *)
Definition mouseButton_button (e : Event) : option Button :=
  match e with
  | MouseButtonPressed b _ _ | MouseButtonReleased b _ _ => Some b
  | OtherEvent => None
  end.

(** [{e.mouseButton.x, e.mouseButton.y}]. *)
Definition mouseButton_pos (e : Event) : Z * Z :=
  match e with
  | MouseButtonPressed _ x y | MouseButtonReleased _ x y => (x, y)
  | OtherEvent => (0, 0)
  end.

Section Bindings.
(** The callbacks act on the state [S] of the program; an empty
    [std::function] is [None]. *)
Context {S : Type}.

Record ButtonBinding : Type := mkButtonBinding {
  button : Button;
  func : option (Z * Z → S → S);
  onPress : bool
}.

(** [ButtonBinding::operator()(sf::Event&)]. *)
Definition matches (b : ButtonBinding) (e : Event) : bool :=
  ((is_pressed e && onPress b) || (is_released e && negb (onPress b)))
  && bool_decide (mouseButton_button e = Some (button b)).

(** [ButtonBinding::call]. *)
Definition binding_call (b : ButtonBinding) (pos : Z * Z) (s : S) : bool * S :=
  match func b with
  | None => (false, s)
  | Some f => (true, f pos s)
  end.

(** [MouseManager::newBinding]. *)
Definition newBinding (n : string) (b : Button) (f : option (Z * Z → S → S))
    (p : bool) (bindings : ordered_map ButtonBinding)
  : ordered_map ButtonBinding :=
  ordered_emplace n (mkButtonBinding b f p) bindings.

(** The default arguments of [newBinding]: a callback that does nothing,
    on release. *)
Definition default_func : option (Z * Z → S → S) := Some (λ _ s, s).
Definition default_onPress : bool := false.

(** [MouseManager::call]: [bindings.at(k)] throws [std::out_of_range],
    here [None], when the name is not bound. *)
Definition call (k : string) (pos : Z * Z)
    (bindings : ordered_map ButtonBinding) (s : S) : option S :=
  b ← ordered_find k bindings;
  Some (binding_call b pos s).2.

(** [MouseManager::operator()(sf::Event&)]. *)
Fixpoint dispatch (bindings : ordered_map ButtonBinding) (e : Event) (s : S)
  : bool * S :=
  match bindings with
  | [] => (false, s)
  | b :: rest =>
      if matches b.2 e then binding_call b.2 (mouseButton_pos e) s
      else dispatch rest e s
  end.

End Bindings.
Arguments ButtonBinding S : clear implicits.

End MouseManager.

(* ===================================================================== *)
(** ** Logger *)
(* ===================================================================== *)

Module Logger.

(** A line end, ['\n']; [std::endl] writes one (and flushes). *)
Definition endl : string := String (Ascii.ascii_of_nat 10) "".

(** The members: [fout] is the text written to the log file so far, or
    [None] when the file is not open; the two counters. *)
Record t : Type := mk {
  fout : option string;
  warnings : Z;
  errors : Z
}.

(** [fout << text]: nothing reaches a file that is not open. *)
Definition put (text : string) (l : t) : t :=
  mk ((λ written, written +:+ text) <$> fout l) (warnings l) (errors l).

(** [Logger::Logger(header, logFile)]; [can_open] says whether
    [fout.open(logFile)] succeeds.  Opening empties the file. *)
Definition new (header : string) (can_open : bool) : t :=
  let l := mk (if can_open then Some "" else None) 0 0 in
  match fout l with
  | Some _ => put (endl +:+ endl) (put header l)
  | None => l
  end.

(** What can be sent to the log with [operator<<]: a [char], a string,
    an [int], an [unsigned] or a [std::size_t] (the [float] and [double]
    overloads are left out). *)
Inductive item : Type :=
| Char (c : Ascii.ascii)
| Text (text : string)
| Int (n : Z)
| Unsigned (n : N)
| Size (n : N).

(** What [fout << x] writes. *)
Definition render (x : item) : string :=
  match x with
  | Char c => String c ""
  | Text text => text
  | Int n => pretty n
  | Unsigned n => pretty n
  | Size n => pretty n
  end.

(** [log << x]. *)
Definition write (l : t) (x : item) : t := put (render x) l.

(** The text of a sequence of items, one after the other. *)
Definition rendered (items : list item) : string :=
  foldr (λ x text, render x +:+ text) "" items.

(** [Logger::~Logger]: the text of the log file afterwards, if it was
    open. *)
Definition destroy (l : t) : option string :=
  match fout l with
  | Some _ =>
      let l1 := put endl (put endl l) in
      let l2 := put endl (put " warnings" (put (pretty (warnings l1)) l1)) in
      let l3 := put endl (put " errors" (put (pretty (errors l2)) l2)) in
      fout l3
  | None => None
  end.

End Logger.

(* ===================================================================== *)
(** ** AssetManager.cpp *)
(* ===================================================================== *)

(** [s.find(sub) != std::string::npos]. *)
Fixpoint string_contains (sub s : string) : bool :=
  String.prefix sub s ||
  match s with
  | EmptyString => false
  | String _ rest => string_contains sub rest
  end.

(** An [sf::Texture]: what it shows and whether it is smoothed. *)
Record Texture (Pixels : Type) : Type := mkTexture {
  pixels : Pixels;
  isSmooth : bool
}.
Arguments mkTexture {Pixels}.
Arguments pixels {Pixels}.
Arguments isSmooth {Pixels}.

(** [sf::Texture::setSmooth]. *)
Definition Texture_setSmooth {Pixels} (s : bool) (t : Texture Pixels)
  : Texture Pixels :=
  mkTexture (pixels t) s.

(** The resource types and what the manager asks of them: a default
    constructor, and [loadFromFile] ([openFromFile] for music), which
    works on the object it is called on and fails with [None]. *)
Class Media : Type := {
  Pixels : Type;
  SoundBuffer : Type;
  Music : Type;
  Font : Type;
  ScriptObject : Type;
  Texture_new : Texture Pixels;
  SoundBuffer_new : SoundBuffer;
  Music_new : Music;
  Font_new : Font;
  ScriptObject_new : ScriptObject;
  Texture_loadFromFile : string → Texture Pixels → option (Texture Pixels);
  SoundBuffer_loadFromFile : string → SoundBuffer → option SoundBuffer;
  Music_openFromFile : string → Music → option Music;
  Font_loadFromFile : string → Font → option Font;
  ScriptObject_loadFromFile : string → ScriptObject → option ScriptObject
}.

(** What [readdir] yields for a name: a regular file, a directory (with
    what [opendir] on it gives: its entries, or nothing when it cannot
    be opened), or something else. *)
#[warnings="-register-all"]
Inductive DirEntry : Type :=
| DT_REG
| DT_DIR (dir : option (list (string * DirEntry)))
| DT_OTHER.

Module Assets.
Section Manager.
Context `{Media}.

Record t : Type := mk {
  textures : gmap string (Texture Pixels);
  soundBuffers : gmap string SoundBuffer;
  music : gmap string Music;
  fonts : gmap string Font;
  scripts : gmap string ScriptObject;
  smooth : bool
}.

(** [AssetManager::AssetManager]. *)
Definition new : t := mk ∅ ∅ ∅ ∅ ∅ false.

(** The three steps every media branch of [loadResource] takes on its
    store: [store.emplace(file, V())], then [store[file].loadFromFile
    (file)], then [store.erase(file)] when that failed. *)
Definition load_into {V} (V_new : V) (loadFromFile : string → V → option V)
    (file : string) (store : gmap string V) : bool * gmap string V :=
  let store1 := map_emplace file V_new store in
  match loadFromFile file (default V_new (store1 !! file)) with
  | Some v => (true, <[file := v]> store1)
  | None => (false, delete file store1)
  end.

(** [AssetManager::loadResource]. *)
Definition loadResource (file : string) (am : t) : bool * t :=
  if string_contains "/textures/" file then
    let '(ok, store) := load_into Texture_new Texture_loadFromFile file
                          (textures am) in
    if ok then
      (true, mk (alter (Texture_setSmooth (smooth am)) file store)
                (soundBuffers am) (music am) (fonts am) (scripts am)
                (smooth am))
    else
      (false, mk store (soundBuffers am) (music am) (fonts am) (scripts am)
                 (smooth am))
  else if string_contains "/skeletons/" file then (true, am)
  else if string_contains "/sounds/" file then
    let '(ok, store) := load_into SoundBuffer_new SoundBuffer_loadFromFile
                          file (soundBuffers am) in
    (ok, mk (textures am) store (music am) (fonts am) (scripts am)
            (smooth am))
  else if string_contains "/music/" file then
    let '(ok, store) := load_into Music_new Music_openFromFile file
                          (music am) in
    (ok, mk (textures am) (soundBuffers am) store (fonts am) (scripts am)
            (smooth am))
  else if string_contains "/fonts/" file then
    let '(ok, store) := load_into Font_new Font_loadFromFile file
                          (fonts am) in
    (ok, mk (textures am) (soundBuffers am) (music am) store (scripts am)
            (smooth am))
  else if string_contains "/scripts/" file then
    let '(ok, store) := load_into ScriptObject_new ScriptObject_loadFromFile
                          file (scripts am) in
    (ok, mk (textures am) (soundBuffers am) (music am) (fonts am) store
            (smooth am))
  else if string_contains ".txt" file then (true, am)
  else (false, am).

(** The body of the loop of [AssetManager::loadMod]. *)
Definition loadMod_step (st : bool * t) (f : string) : bool * t :=
  let '(returnVar, am) := st in
  let '(temp, am') := loadResource f am in
  (if temp then returnVar else false, am').

(** [AssetManager::loadMod], on the files of the mod. *)
Definition loadMod (files : list string) (am : t) : bool * t :=
  foldl loadMod_step (true, am) files.

(** [AssetManager::loadResourceFolder]; [node] is what is at the path
    [folder]: [opendir] succeeds on a directory that can be opened.  The
    result of the call on a child directory and the result of
    [loadResource] are not looked at. *)
Fixpoint loadResourceFolder (folder : string) (node : DirEntry) (am : t)
    {struct node} : bool * t :=
  match node with
  | DT_DIR (Some entries) =>
      (true,
       (fix loop (entries : list (string * DirEntry)) (am : t) : t :=
          match entries with
          | [] => am
          | (d_name, entry) :: rest =>
              let am' :=
                match entry with
                | DT_DIR _ =>
                    if negb (bool_decide (d_name = ".")
                             || bool_decide (d_name = ".."))
                    then (loadResourceFolder (folder +:+ "/" +:+ d_name)
                            entry am).2
                    else am
                | DT_REG => (loadResource (folder +:+ "/" +:+ d_name) am).2
                | DT_OTHER => am
                end in
              loop rest am'
          end) entries am)
  | _ => (false, am)
  end.

(** [AssetManager::clean]. *)
Definition clean (am : t) : t := mk ∅ ∅ ∅ ∅ ∅ (smooth am).

(** [AssetManager::setSmooth]. *)
Definition setSmooth (s : bool) (am : t) : t :=
  mk (Texture_setSmooth s <$> textures am) (soundBuffers am) (music am)
     (fonts am) (scripts am) s.

(** The getters return [store.find(n)->second]: undefined for a name
    that is not in the store. *)
Definition getTexture (n : string) (am : t) := find_second n (textures am).
Definition getSoundBuffer (n : string) (am : t) :=
  find_second n (soundBuffers am).
Definition getSong (n : string) (am : t) := find_second n (music am).
Definition getFont (n : string) (am : t) := find_second n (fonts am).
Definition getScript (n : string) (am : t) := find_second n (scripts am).

(** The branch of [loadResource] a path takes: the first test of the
    chain that succeeds. *)
Inductive Kind : Type :=
| KTexture | KSkeleton | KSound | KMusic | KFont | KScript | KText | KUnknown.

Definition resource_kind (file : string) : Kind :=
  if string_contains "/textures/" file then KTexture
  else if string_contains "/skeletons/" file then KSkeleton
  else if string_contains "/sounds/" file then KSound
  else if string_contains "/music/" file then KMusic
  else if string_contains "/fonts/" file then KFont
  else if string_contains "/scripts/" file then KScript
  else if string_contains ".txt" file then KText
  else KUnknown.

(** Every store holds only paths of its own kind, and every texture is
    smoothed as the manager's flag says. *)
Definition consistent (am : t) : Prop :=
  (∀ n, is_Some (textures am !! n) → resource_kind n = KTexture) ∧
  (∀ n, is_Some (soundBuffers am !! n) → resource_kind n = KSound) ∧
  (∀ n, is_Some (music am !! n) → resource_kind n = KMusic) ∧
  (∀ n, is_Some (fonts am !! n) → resource_kind n = KFont) ∧
  (∀ n, is_Some (scripts am !! n) → resource_kind n = KScript) ∧
  (∀ n tex, textures am !! n = Some tex → isSmooth tex = smooth am).

(** No store has an entry under the name. *)
Definition absent (n : string) (am : t) : Prop :=
  textures am !! n = None ∧ soundBuffers am !! n = None ∧
  music am !! n = None ∧ fonts am !! n = None ∧ scripts am !! n = None.

(** The entry under the name is the same in every store of both. *)
Definition same_entry (n : string) (am am' : t) : Prop :=
  textures am' !! n = textures am !! n ∧
  soundBuffers am' !! n = soundBuffers am !! n ∧
  music am' !! n = music am !! n ∧
  fonts am' !! n = fonts am !! n ∧
  scripts am' !! n = scripts am !! n.

(** Loading a list of paths one after the other, results ignored. *)
Definition load_all (files : list string) (am : t) : t :=
  foldl (λ am f, (loadResource f am).2) am files.

(** The paths of the regular files under a directory, in the order
    [readdir] yields them, children of a directory before what follows
    it; "." and ".." and directories that cannot be opened contribute
    nothing. *)
Fixpoint folder_files (folder : string) (node : DirEntry) {struct node}
  : list string :=
  match node with
  | DT_DIR (Some entries) =>
      (fix files (entries : list (string * DirEntry)) : list string :=
         match entries with
         | [] => []
         | (d_name, entry) :: rest =>
             match entry with
             | DT_DIR _ =>
                 if bool_decide (d_name = ".") || bool_decide (d_name = "..")
                 then []
                 else folder_files (folder +:+ "/" +:+ d_name) entry
             | DT_REG => [folder +:+ "/" +:+ d_name]
             | DT_OTHER => []
             end ++ files rest
         end) entries
  | _ => []
  end.

End Manager.
End Assets.

(* ===================================================================== *)
(** ** TestWorld::load and TestWorld::save *)
(* ===================================================================== *)

(** The state bits of a stream that matter here.  [open] on a new
    stream sets [failbit], and nothing else, when the file cannot be
    opened. *)
Record iostate : Type := mkIostate { failbit : bool; badbit : bool }.

Definition goodbit : iostate := mkIostate false false.

(** [std::ifstream::open(file)]. *)
Definition ifstream_open (file : string) (fs : FileSystem) : iostate :=
  match fs !! file with
  | Some _ => goodbit
  | None => mkIostate true false
  end.

(** [std::ofstream::open(file)]: the file is created or emptied when
    it can be written; an empty file is a file that does not parse. *)
Definition ofstream_open (file : string) (fs : FileSystem)
  : iostate * FileSystem :=
  if can_write file fs
  then (goodbit, <[file := mkFile Malformed true]> fs)
  else (mkIostate true false, fs).

(** [stream.bad()]. *)
Definition bad (st : iostate) : bool := badbit st.

(** [TestWorld::load]. *)
Definition TestWorld_load (file : string) (fs : FileSystem) : bool :=
  let fin := ifstream_open file fs in
  if bad fin then false else true.

(** [TestWorld::save]. *)
Definition TestWorld_save (file : string) (fs : FileSystem)
  : bool * FileSystem :=
  let '(fout, fs') := ofstream_open file fs in
  (if bad fout then false else true, fs').

(* ===================================================================== *)
(** ** World::getEntitiesAround *)
(* ===================================================================== *)

(** The arithmetic of [float] the function uses, left open: conversion
    from [int], the two comparisons, and the operations of
    [World::distance]. *)
Class FloatOps (float : Type) : Type := {
  float_of_int : Z → float;
  float_le : float → float → bool;
  float_lt : float → float → bool;
  float_add : float → float → float;
  float_sub : float → float → float;
  float_pow : float → Z → float;
  float_sqrt : float → float
}.

Section Around.
Context {float Component : Type} `{!FloatOps float}.
(** [Physical::position] of a component that is a Physical. *)
Context (position : Component → float * float).

(** [World::distance]. *)
Definition distance (one two : float * float) : float :=
  float_sqrt (float_add (float_pow (float_sub two.1 one.1) 2)
                        (float_pow (float_sub two.2 one.2) 2)).

(** Modelled from the spec: [Entity::has<Physical>()] and
    [Entity::get<Physical>()] look the component up under its type
    name. *)
Definition get_Physical (e : Entity Component) : option Component :=
  e !! "Physical".

(** [World::getEntitiesAround]; [size] is the member of the World. *)
Definition getEntitiesAround (size : Z * Z) (es : list (Entity Component))
    (pos : float * float) (radius : float) : list (Entity Component) :=
  if negb (float_le (float_of_int 0) pos.1
           && float_lt pos.1 (float_of_int size.1)
           && float_le (float_of_int 0) pos.2
           && float_lt pos.2 (float_of_int size.2))
     || float_le radius (float_of_int 0)
  then []
  else
    foldl (λ around e,
             match get_Physical e with
             | Some p =>
                 if float_le (distance (position p) pos) radius
                 then around ++ [e] else around
             | None => around
             end) [] es.

(** An entity is within reach: it has a Physical whose position is at
    most [radius] from [pos]. *)
Definition within (pos : float * float) (radius : float)
    (e : Entity Component) : Prop :=
  ∃ p, get_Physical e = Some p ∧
       float_le (distance (position p) pos) radius = true.

#[global] Instance within_dec pos radius e : Decision (within pos radius e).
Proof.
  unfold within. destruct (get_Physical e) as [p |].
  - destruct (float_le (distance (position p) pos) radius) eqn:Hle.
    + left. by exists p.
    + right. intros (p' & [= <-] & Hp). congruence.
  - right. by intros (p' & [=] & _).
Defined.

End Around.

(** Example bindings; the state is the list of what the callbacks
    recorded.  In key order: "aim" (no function), "move", "shoot". *)
Definition sample_bindings : ordered_map (MouseManager.ButtonBinding (list string)) :=
  MouseManager.newBinding "shoot" MouseManager.Left
    (Some (λ _ s, "shoot" :: s)) true
    (MouseManager.newBinding "aim" MouseManager.Left None true
       (MouseManager.newBinding "move" MouseManager.Right
          (Some (λ _ s, "move" :: s)) false [])).

(** Example media: every object is the path it was loaded from; a path
    with "broken" in it does not load. *)
Definition sample_load {V} (make : string → V) (file : string) (old : V)
  : option V :=
  if string_contains "broken" file then None else Some (make file).

#[global] Instance sample_media : Media := {
  Pixels := string;
  SoundBuffer := string;
  Music := string;
  Font := string;
  ScriptObject := string;
  Texture_new := mkTexture "" false;
  SoundBuffer_new := "";
  Music_new := "";
  Font_new := "";
  ScriptObject_new := "";
  Texture_loadFromFile file old :=
    sample_load (λ f, mkTexture f (isSmooth old)) file old;
  SoundBuffer_loadFromFile := sample_load id;
  Music_openFromFile := sample_load id;
  Font_loadFromFile := sample_load id;
  ScriptObject_loadFromFile := sample_load id
}.

(** A manager that holds one texture, and a data folder. *)
Definition sample_manager : Assets.t :=
  (Assets.loadResource "./data/textures/ship.png"
     (Assets.setSmooth true Assets.new)).2.

Definition sample_folder : DirEntry :=
  DT_DIR (Some [(".", DT_DIR None); ("..", DT_DIR None);
                ("readme.txt", DT_REG);
                ("textures", DT_DIR (Some [(".", DT_DIR None);
                                           ("broken.png", DT_REG);
                                           ("ship.png", DT_REG)]));
                ("secret", DT_DIR None);
                ("pipe", DT_OTHER);
                ("scripts", DT_DIR (Some [("quest.lua", DT_REG)]))]).

(** A manager that holds a texture whose file no longer loads. *)
Definition stale_manager : Assets.t :=
  Assets.mk {[ "./data/textures/broken.png" := mkTexture "old pixels" false ]}
            ∅ ∅ ∅ ∅ false.

(** Example arithmetic for the function above: whole numbers, with the
    integer square root. *)
Definition sample_floats : FloatOps Z := {|
  float_of_int n := n;
  float_le := Z.leb;
  float_lt := Z.ltb;
  float_add := Z.add;
  float_sub := Z.sub;
  float_pow := Z.pow;
  float_sqrt := Z.sqrt
|}.

(** The position of the example Physical components, told by their
    name. *)
Definition sample_position (c : SampleComponent) : Z * Z :=
  match c with
  | SampleName "near" => (10, 10)
  | _ => (400, 20)
  end.

Definition sample_entities : list (Entity SampleComponent) :=
  [ {[ "Physical" := SampleName "near" ]};
    {[ "Name" := SampleName "no physical" ]};
    {[ "Physical" := SampleName "far" ]} ].

(* ===================================================================== *)
(** * Properties *)
(* ===================================================================== *)

(** ** Loops *)

Lemma for_each_cons {A S} (body : S → A → outcome S) (st : S) (x : A)
    (xs : list A) :
  for_each body st (x :: xs) =
    obind (body st x) (λ st', for_each body st' xs).
Proof. reflexivity. Qed.

(** ** Machine integers *)

Lemma to_int_small (x : Z) : INT_MIN ≤ x ≤ INT_MAX → to_int x = x.
Proof.
  unfold to_int, INT_MIN, INT_MAX. intros Hx.
  rewrite Z.mod_small; lia.
Qed.

(** ** World::removeEntity *)

(** C9.  For an [int] [e] and a world of [n] entities ([n] at most
    [2^30], so that [n + e] does not overflow): when [e >= n] or
    [n + e < 0], [removeEntity] returns false and the world is unchanged;
    otherwise it returns true and the entity sequence loses exactly the
    element at position [e], or [n + e] for a negative [e]. *)
Theorem removeEntity_spec {C} (e : Z) (w : World C) :
  INT_MIN ≤ e ≤ INT_MAX →
  Z.of_nat (length (entities w)) ≤ 2 ^ 30 →
  let n := Z.of_nat (length (entities w)) in
  (e >= n ∨ n + e < 0 → removeEntity e w = (false, w)) ∧
  (¬ (e >= n ∨ n + e < 0) →
     ∃ i : nat,
       Z.of_nat i = (if decide (0 ≤ e) then e else n + e) ∧
       (i < length (entities w))%nat ∧
       removeEntity e w =
         (true, set_entities (take i (entities w) ++ drop (S i) (entities w)) w)).
Proof.
  intros He Hn n. unfold removeEntity, int_add. fold n.
  assert (Hto : to_int n = n).
  { apply to_int_small. unfold INT_MIN, INT_MAX. lia. }
  rewrite Hto. split.
  - intros [Hge | Hneg].
    + assert ((e >=? n) = true) as -> by lia. done.
    + destruct (e >=? n); [done |].
      rewrite to_int_small by (unfold INT_MIN, INT_MAX in *; lia).
      assert ((n + e <? 0) = true) as -> by lia. done.
  - intros Hin.
    assert ((e >=? n) = false) as -> by lia.
    rewrite to_int_small by (unfold INT_MIN, INT_MAX in *; lia).
    assert ((n + e <? 0) = false) as -> by lia. simpl.
    destruct (decide (0 ≤ e)) as [Hpos | Hnegative].
    + assert ((e >=? 0) = true) as -> by lia.
      exists (Z.to_nat e). split; [lia |]. split; [lia |].
      by rewrite delete_take_drop.
    + assert ((e >=? 0) = false) as -> by lia.
      exists (Z.to_nat (n + e)). split; [lia |]. split; [lia |].
      by rewrite delete_take_drop.
Qed.

Lemma removeEntity_spec_witness :
  removeEntity (-1) sample_world =
    (true, set_entities [ship] sample_world) ∧
  removeEntity 2 sample_world = (false, sample_world).
Proof.
  assert (Hn : Z.of_nat (length (entities sample_world)) ≤ 2 ^ 30)
    by (simpl; lia).
  split.
  - destruct (removeEntity_spec (-1) sample_world) as [_ Hin];
      [unfold INT_MIN, INT_MAX; lia | exact Hn |].
    destruct Hin as (i & Hi & _ & ->); [simpl; lia |].
    simpl in Hi. assert (i = 1%nat) as -> by lia. reflexivity.
  - destruct (removeEntity_spec 2 sample_world) as [Hout _];
      [unfold INT_MIN, INT_MAX; lia | exact Hn |].
    apply Hout. simpl. lia.
Defined.

(** ** World::addScript *)

(** C10.  When the name is not in the mapping (and the asset manager
    holds the instance), [addScript] returns true, the mapping gains
    exactly that name, bound to the instance of the asset manager, and
    that instance's current world becomes this World, nothing else of it
    changing.  When the name is in the mapping, [addScript] returns false
    and world, mapping and script instances are as before.  So it returns
    true only when the name was absent. *)
Theorem addScript_spec {LuaState C} (scriptFile : string) (w : World C)
    (am : AssetManager LuaState) :
  (∀ s, scripts w !! scriptFile = None →
        scriptCache am !! getScript am scriptFile = Some s →
     ∃ w' am',
       addScript scriptFile w am = Returns (true, w', am') ∧
       scripts w' = <[scriptFile := getScript am scriptFile]> (scripts w) ∧
       entities w' = entities w ∧ this w' = this w ∧ name w' = name w ∧
       getScript am' = getScript am ∧
       scriptCache am' !! getScript am scriptFile =
         Some (mkScript (luaState s) (deleteMe s) (Some (this w))) ∧
       (∀ p, p ≠ getScript am scriptFile →
             scriptCache am' !! p = scriptCache am !! p)) ∧
  (is_Some (scripts w !! scriptFile) →
     addScript scriptFile w am = Returns (false, w, am)) ∧
  (∀ w' am', addScript scriptFile w am = Returns (true, w', am') →
     scripts w !! scriptFile = None).
Proof.
  repeat split.
  - intros s Hfree Hs. unfold addScript, deref. rewrite Hfree, Hs. simpl.
    eexists _, _. split; [reflexivity |]. simpl.
    repeat split.
    + by rewrite lookup_insert_eq.
    + intros p Hp. by rewrite lookup_insert_ne.
  - intros [p Hp]. unfold addScript. by rewrite Hp.
  - intros w' am'. unfold addScript.
    destruct (scripts w !! scriptFile); [intros [=] | done].
Qed.

Lemma addScript_spec_witness :
  (∃ w' am',
     addScript "intro.lua" sample_world sample_assets = Returns (true, w', am') ∧
     scripts w' !! "intro.lua" = Some 8%positive ∧
     scriptCache am' !! 8%positive = Some (mkScript 5%nat false (Some 1%positive))) ∧
  addScript "quest.lua" sample_world sample_assets =
    Returns (false, sample_world, sample_assets).
Proof.
  destruct (addScript_spec "intro.lua" sample_world sample_assets)
    as (Hnew & _ & _).
  destruct (addScript_spec "quest.lua" sample_world sample_assets)
    as (_ & Hold & _).
  split.
  - destruct (Hnew (mkScript 5%nat false None))
      as (w' & am' & Hr & Hscripts & _ & _ & _ & _ & Hs & _);
      [reflexivity | reflexivity |].
    exists w', am'. split; [exact Hr |]. split; [| exact Hs].
    rewrite Hscripts. reflexivity.
  - apply Hold. by eexists.
Defined.

(** ** The callable registry *)

Lemma Selection_assign_function_taken {Callable} (sel : Selection)
    (g : Callable) (reg : Registry Callable) :
  is_Some (functions reg !! sel_name sel) →
  Selection_assign_function sel g reg =
    mkRegistry (functions reg)
      (released reg ++ [mkCppFunction (sel_name sel) g]).
Proof. intros [old Hold]. unfold Selection_assign_function. by rewrite Hold. Qed.

(** C5 (what the code does).  Registering [f] and then [g] under one
    name leaves the registry entry of the first registration in place:
    the lookup yields the wrapper of [f], and the wrapper released is the
    new one, of [g]. *)
Theorem second_registration_is_dropped {Callable} (n : string)
    (f g : Callable) :
  let sel := mkSelection n 0 in
  let reg := Selection_assign_function sel g
               (Selection_assign_function sel f (mkRegistry ∅ [])) in
  functions reg !! n = Some (mkCppFunction n f) ∧
  released reg = [mkCppFunction n g].
Proof.
  intros sel reg. subst reg.
  rewrite Selection_assign_function_taken.
  - unfold Selection_assign_function; simpl.
    rewrite lookup_empty. simpl. by rewrite lookup_insert_eq.
  - unfold Selection_assign_function; simpl.
    rewrite lookup_empty. simpl. rewrite lookup_insert_eq. by eexists.
Qed.

(** The sibling operator, assignment of a value, does replace. *)
Lemma Selection_assign_value_replaces (n : string) (a b : LuaValue)
    (L : lua_State) :
  let sel := mkSelection n 0 in
  lua_globals (Selection_assign_value sel b (Selection_assign_value sel a L))
    !! n = Some b.
Proof. simpl. by rewrite lookup_insert_eq. Qed.

(** ** The entity loop of a tick *)

Section SchedulerFacts.
Context {Component float State : Type}.
Implicit Types sys : Systems Component float State.

Lemma TestWorld_update_entities sys (dt : float)
    (es : list (Entity Component)) (st : State) :
  TestWorld_update sys dt es st = update_entities sys dt es st.
Proof.
  revert st. induction es as [| e es IH]; intros st; simpl; [done |].
  destruct (moveSystem sys e dt st) as [e1 st1].
  destruct (physicalSystem sys e1 dt st1) as [e2 st2].
  assert ((if bool_decide (is_Some (e2 !! "Physical")) then e2 else e2) = e2)
    as -> by by case_bool_decide.
  destruct (drawSystem sys e2 dt st2) as [e3 st3].
  by rewrite IH.
Qed.

(** Keeping the list of calls does not change what the loop computes;
    the calls it adds are three for each entity, movement, physical,
    draw, and the movement system is handed the entities of the list,
    one after the other. *)
Lemma update_entities_recording sys (dt : float)
    (es : list (Entity Component)) (st : State)
    (calls : list (SystemId * Entity Component)) :
  ∃ new,
    update_entities (recording sys) dt es (st, calls) =
      ((update_entities sys dt es st).1,
       ((update_entities sys dt es st).2, calls ++ new)) ∧
    new.*1 = flat_map (λ _, [Move; Physical; Draw]) es ∧
    (filter (λ c, c.1 = Move) new).*2 = es ∧
    (∀ move physical draw, stateless sys move physical draw →
       new = flat_map (λ e, [(Move, e); (Physical, move e dt);
                               (Draw, physical (move e dt) dt)]) es).
Proof.
  revert st calls. induction es as [| e es IH]; intros st calls.
  - exists []. simpl. by rewrite app_nil_r.
  - simpl. unfold recorded at 1. simpl.
    destruct (moveSystem sys e dt st) as [e1 st1] eqn:Hmove.
    unfold recorded at 1. simpl.
    destruct (physicalSystem sys e1 dt st1) as [e2 st2] eqn:Hphysical.
    unfold recorded at 1. simpl.
    destruct (drawSystem sys e2 dt st2) as [e3 st3] eqn:Hdraw.
    destruct (IH st3 (((calls ++ [(Move, e)]) ++ [(Physical, e1)])
                        ++ [(Draw, e2)]))
      as (new & Hrec & Hids & Hmoved & Hpure).
    change (update_entities
              (mkSystems (recorded Move (moveSystem sys))
                 (recorded Physical (physicalSystem sys))
                 (recorded Draw (drawSystem sys))))
      with (update_entities (recording sys)).
    rewrite Hrec.
    destruct (update_entities sys dt es st3) as [rest st']. simpl.
    exists ((Move, e) :: (Physical, e1) :: (Draw, e2) :: new).
    split; [| split; [| split]].
    + by rewrite <- !app_assoc.
    + rewrite !fmap_cons, Hids. done.
    + rewrite filter_cons_True by done.
      rewrite filter_cons_False by done.
      rewrite filter_cons_False by done.
      rewrite fmap_cons, Hmoved. done.
    + intros move physical draw Hsys.
      destruct (Hsys e dt st) as (Hm & _ & _).
      destruct (Hsys e1 dt st1) as (_ & Hp & _).
      rewrite Hm in Hmove. rewrite Hp in Hphysical.
      injection Hmove as <- <-. injection Hphysical as <- <-.
      simpl. by rewrite (Hpure move physical draw Hsys).
Qed.

(** With systems that keep nothing, the loop computes what the three
    passes compute, one after the other. *)
Lemma update_entities_stateless sys
    (move physical draw : Entity Component → float → Entity Component)
    (dt : float) (es : list (Entity Component)) (st : State) :
  stateless sys move physical draw →
  update_entities sys dt es st =
    (pass draw dt (pass physical dt (pass move dt es)), st).
Proof.
  intros Hsys. induction es as [| e es IH]; simpl; [done |].
  destruct (Hsys e dt st) as (-> & _ & _).
  destruct (Hsys (move e dt) dt st) as (_ & -> & _).
  destruct (Hsys (physical (move e dt) dt) dt st) as (_ & _ & ->).
  by rewrite IH.
Qed.

Lemma pure_systems_stateless
    (move physical draw : Entity Component → float → Entity Component) :
  stateless (State := State) (pure_systems move physical draw)
    move physical draw.
Proof. by intros e dt st. Qed.

Lemma pass_id (dt : float) (es : list (Entity Component)) :
  pass (λ e _, e) dt es = es.
Proof. unfold pass. by rewrite map_id. Qed.

End SchedulerFacts.

(** ** The save document *)

Section SaveFacts.
Context `{ComponentOps Component} `{Tinyxml2}.

Lemma foldl_save_variable (n : string) (cs : list XMLNode)
    (vs : list (string * string)) :
  foldl save_variable (XMLElement n cs) vs =
    XMLElement n (cs ++ (field_record <$> vs)).
Proof.
  revert cs. induction vs as [| v vs IH]; intros cs; simpl.
  - by rewrite app_nil_r.
  - rewrite IH.
    by rewrite <- app_assoc.
Qed.

Lemma foldl_save_component (n : string) (cs : list XMLNode)
    (l : list (string * Component)) :
  foldl save_component (XMLElement n cs) l =
    XMLElement n (cs ++ (component_record <$> l)).
Proof.
  revert cs. induction l as [| c l IH]; intros cs; simpl.
  - by rewrite app_nil_r.
  - unfold NewElement. rewrite foldl_save_variable. simpl. rewrite IH.
    by rewrite <- app_assoc.
Qed.

Lemma foldl_save_entity (n : string) (cs : list XMLNode)
    (es : list (Entity Component)) :
  foldl save_entity (XMLElement n cs) es =
    XMLElement n (cs ++ (entity_record <$> es)).
Proof.
  revert cs. induction es as [| e es IH]; intros cs; simpl.
  - by rewrite app_nil_r.
  - unfold NewElement, getComponents.
    rewrite foldl_save_component. simpl. rewrite IH.
    by rewrite <- app_assoc.
Qed.

(** Where [FirstChildElement(name)] points. *)
Lemma FirstChildElement_Some (n : string) (doc : list XMLNode)
    (root : XMLNode) :
  FirstChildElement (Some n) doc = Some root →
  ∃ before old after,
    doc = before ++ XMLElement n old :: after ∧
    root = XMLElement n old ∧
    Forall (λ c, element_matches (Some n) c = false) before.
Proof.
  unfold FirstChildElement, child_elements.
  induction doc as [| c doc IH]; simpl; [done |].
  destruct (element_matches (Some n) c) eqn:Hc; simpl.
  - intros [= <-]. destruct c as [v cs | |]; simpl in Hc; try done.
    apply bool_decide_eq_true in Hc as ->.
    by exists [], cs, doc.
  - intros Hroot. destruct (IH Hroot) as (before & old & after & -> & -> & Hb).
    exists (c :: before), old, after.
    split; [done |]. split; [done |]. by constructor.
Qed.

Lemma FirstChildElement_None (n : string) (doc : list XMLNode) :
  FirstChildElement (Some n) doc = None →
  Forall (λ c, element_matches (Some n) c = false) doc.
Proof.
  unfold FirstChildElement, child_elements.
  induction doc as [| c doc IH]; simpl; [by constructor |].
  destruct (element_matches (Some n) c) eqn:Hc; simpl; [done |].
  intros Hn. constructor; auto.
Qed.

Lemma FirstChildElement_at (n : string) (before after old : list XMLNode) :
  Forall (λ c, element_matches (Some n) c = false) before →
  FirstChildElement (Some n) (before ++ XMLElement n old :: after) =
    Some (XMLElement n old).
Proof.
  unfold FirstChildElement, child_elements.
  induction 1 as [| c before Hc _ IH]; simpl.
  - by rewrite bool_decide_eq_true_2.
  - by rewrite Hc.
Qed.

Lemma update_first_element_at (n : string) (f : XMLNode → XMLNode)
    (before after old : list XMLNode) :
  Forall (λ c, element_matches (Some n) c = false) before →
  update_first_element n f (before ++ XMLElement n old :: after) =
    before ++ f (XMLElement n old) :: after.
Proof.
  induction 1 as [| c before Hc _ IH]; simpl.
  - by rewrite bool_decide_eq_true_2.
  - by rewrite Hc, IH.
Qed.

(** The document [save] writes, in both cases. *)
Lemma save_document_root (w : World Component) (before after old : list XMLNode) :
  Forall (λ c, element_matches (Some "world") c = false) before →
  save_document w (before ++ XMLElement "world" old :: after) =
    before ++ world_record w :: after.
Proof.
  intros Hb. unfold save_document.
  rewrite FirstChildElement_at by done.
  rewrite update_first_element_at by done. simpl.
  rewrite update_first_element_at by done.
  by rewrite foldl_save_entity.
Qed.

Lemma save_document_no_root (w : World Component) (doc : list XMLNode) :
  FirstChildElement (Some "world") doc = None →
  save_document w doc = world_record w :: doc.
Proof.
  intros Hnone. unfold save_document. rewrite Hnone.
  unfold InsertFirstChild, NewElement. simpl.
  by rewrite foldl_save_entity.
Qed.

Lemma save_loaded (w : World Component) (fs : FileSystem) (f : File)
    (doc : XMLDocument) :
  fs !! save_path (name w) = Some f → content f = Parses doc →
  writable f = true →
  save w fs =
    (true, w,
     <[save_path (name w) := mkFile (printed (save_document w doc)) true]> fs).
Proof.
  intros Hf Hdoc Hw. unfold save, LoadFile, SaveFile.
  by rewrite Hf, Hdoc, Hw.
Qed.

(** C8.  When the file at the world's path loads and can be written:
    if its first "world" element has children [old], [save] returns
    true and writes the document with that element holding the entity
    records of the world and none of [old], everything around it as it
    was; if the document has no "world" element, [save] returns true
    and writes the document with a new "world" element in front,
    holding the entity records.  The file then holds the print of that
    document. *)
Theorem save_replaces_root_children (w : World Component) (fs : FileSystem)
    (f : File) :
  fs !! save_path (name w) = Some f →
  writable f = true →
  (∀ before old after,
     content f = Parses (before ++ XMLElement "world" old :: after) →
     Forall (λ c, element_matches (Some "world") c = false) before →
     save w fs =
       (true, w,
        <[save_path (name w) :=
            mkFile (printed (before ++ XMLElement "world"
                               (entity_record <$> entities w) :: after))
                   true]> fs)) ∧
  (∀ doc,
     content f = Parses doc →
     FirstChildElement (Some "world") doc = None →
     save w fs =
       (true, w,
        <[save_path (name w) :=
            mkFile (printed (XMLElement "world"
                               (entity_record <$> entities w) :: doc))
                   true]> fs)).
Proof.
  intros Hf Hw. split.
  - intros before old after Hdoc Hb.
    rewrite (save_loaded w fs f _ Hf Hdoc Hw).
    by rewrite save_document_root.
  - intros doc Hdoc Hnone.
    rewrite (save_loaded w fs f _ Hf Hdoc Hw).
    by rewrite save_document_no_root.
Qed.

End SaveFacts.

Lemma save_replaces_root_children_witness :
  save sample_world writable_fs =
    (true, sample_world,
     <[save_path "maze" :=
         mkFile (printed [XMLMisc "xml version=1.0";
                          XMLElement "world" (entity_record <$> [ship; player])])
                true]> writable_fs) ∧
  save sample_world rootless_fs =
    (true, sample_world,
     <[save_path "maze" :=
         mkFile (printed [XMLElement "world" (entity_record <$> [ship; player]);
                          XMLMisc "xml version=1.0"])
                true]> rootless_fs).
Proof.
  split.
  - apply (proj1 (save_replaces_root_children sample_world writable_fs
             (mkFile (Parses [XMLMisc "xml version=1.0";
                              XMLElement "world" [XMLElement "entity" []]])
                     true) eq_refl eq_refl)
             [XMLMisc "xml version=1.0"] [XMLElement "entity" []] []).
    + reflexivity.
    + by apply Forall_singleton.
  - apply (proj2 (save_replaces_root_children sample_world rootless_fs
             (mkFile (Parses [XMLMisc "xml version=1.0"]) true)
             eq_refl eq_refl)).
    + reflexivity.
    + reflexivity.
Defined.

(** The file of the example after [save]: what is read from it is the
    document that was printed. *)
Lemma sample_save_file :
  (save sample_world writable_fs).2 !! save_path "maze" =
    Some (mkFile (Parses [XMLMisc "xml version=1.0"; world_record sample_world])
                 true).
Proof. vm_compute. reflexivity. Qed.

(** ** World::save and failure *)

Section SaveFailure.
Context `{ComponentOps Component} `{Tinyxml2}.

Lemma save_keeps_world (w : World Component) (fs : FileSystem) :
  (save w fs).1.2 = w.
Proof.
  unfold save. destruct (LoadFile _ fs) as [err doc].
  destruct (XMLError_failed err); [done |].
  by destruct (SaveFile _ _ fs).
Qed.

(** C3 (amended).  When the file at the world's path does not load
    (it is missing or does not parse), [save] returns false and writes
    nothing; when it loads and the destination can be written, [save]
    returns true; in every case the world is as it was.  [save] is a
    total function: it has a result on every input. *)
Theorem save_reports_load_failure (w : World Component) (fs : FileSystem) :
  (XMLError_failed (LoadFile (save_path (name w)) fs).1 = true →
     save w fs = (false, w, fs)) ∧
  (XMLError_failed (LoadFile (save_path (name w)) fs).1 = false →
     can_write (save_path (name w)) fs = true →
     (save w fs).1.1 = true) ∧
  (save w fs).1.2 = w.
Proof.
  split; [| split].
  - unfold save. destruct (LoadFile _ fs) as [err doc]. simpl.
    by intros ->.
  - unfold save. destruct (LoadFile _ fs) as [err doc]. simpl.
    intros -> _. by destruct (SaveFile _ _ fs).
  - apply save_keeps_world.
Qed.

End SaveFailure.

Lemma save_reports_load_failure_witness :
  save sample_world malformed_fs = (false, sample_world, malformed_fs) ∧
  (save sample_world writable_fs).1.1 = true.
Proof.
  split.
  - apply (save_reports_load_failure sample_world malformed_fs).
    reflexivity.
  - apply (save_reports_load_failure sample_world writable_fs);
      reflexivity.
Defined.

(** C3 as stated fails: a file that can be opened and written but does
    not parse makes [save] fail, and a read-only file that parses makes
    [save] report success although nothing can be written. *)
Lemma save_failure_is_not_unwritability :
  ¬ save_fails_iff_unwritable sample_world malformed_fs ∧
  ¬ save_fails_iff_unwritable sample_world readonly_fs.
Proof.
  split.
  - intros [Hfail _].
    destruct (Hfail eq_refl) as [Hmissing | Hro]; vm_compute in *; discriminate.
  - intros [_ Hro].
    assert (Hret : (save sample_world readonly_fs).1.1 = true) by reflexivity.
    rewrite Hro in Hret; [discriminate |].
    right. reflexivity.
Qed.

(** ** Reading back what was printed *)

Lemma name_char_not_NUL (c : Ascii.ascii) :
  IsNameChar c = true → Ascii.eqb c Ascii.zero = false.
Proof.
  intros Hc. destruct (Ascii.eqb_spec c Ascii.zero) as [-> | _]; [| done].
  vm_compute in Hc. discriminate.
Qed.

Lemma all_chars_name_c_str (s : string) :
  all_chars IsNameChar s = true → c_str s = s.
Proof.
  induction s as [| c s IH]; simpl; [done |].
  intros [Hc Hs]%andb_true_iff.
  by rewrite name_char_not_NUL, IH.
Qed.

Lemma xml_name_c_str (s : string) :
  xml_name s = true → c_str s = s ∧ s ≠ "".
Proof.
  destruct s as [| c s]; simpl; [done |].
  intros [Hc Hs]%andb_true_iff. split; [| done].
  rewrite name_char_not_NUL, all_chars_name_c_str; [done | done |].
  unfold IsNameChar. by rewrite Hc.
Qed.

Lemma blank_nonempty (v : string) : blank v = false → v ≠ "".
Proof. by destruct v. Qed.

Lemma read_children_no_text (cs : list XMLNode) :
  Forall (λ c, ∀ t, c ≠ XMLText t) cs → read_children "" cs = cs.
Proof.
  induction 1 as [| c cs Hc _ IH]; [done |].
  destruct c as [n kids | t | t]; simpl.
  - by rewrite IH.
  - by destruct (Hc t).
  - by rewrite IH.
Qed.

Lemma element_matches_reparse (name : option string) (c : XMLNode) :
  element_matches name (reparse c) = element_matches name c.
Proof. by destruct c. Qed.

Lemma child_elements_read_text (name : option string) (run : string) :
  child_elements name (read_text run) = [].
Proof. unfold read_text. by destruct (blank run). Qed.

Lemma child_elements_cons (name : option string) (c : XMLNode)
    (cs : list XMLNode) :
  child_elements name (c :: cs) =
    if element_matches name c then c :: child_elements name cs
    else child_elements name cs.
Proof. reflexivity. Qed.

Lemma child_elements_app (name : option string) (l1 l2 : list XMLNode) :
  child_elements name (l1 ++ l2) =
    child_elements name l1 ++ child_elements name l2.
Proof. apply List.filter_app. Qed.

(** Reading back keeps the elements, in their order; it only changes
    the text between them. *)
Lemma child_elements_read_children (name : option string) (run : string)
    (cs : list XMLNode) :
  child_elements name (read_children run (reparse <$> cs)) =
    reparse <$> child_elements name cs.
Proof.
  revert run. induction cs as [| c cs IH]; intros run.
  - apply child_elements_read_text.
  - destruct c as [n kids | t | t].
    + change (child_elements name
                (read_text run ++ reparse (XMLElement n kids)
                   :: read_children "" (reparse <$> cs)) =
              reparse <$> child_elements name (XMLElement n kids :: cs)).
      rewrite child_elements_app, child_elements_read_text.
      rewrite app_nil_l, !child_elements_cons, element_matches_reparse, IH.
      by destruct (element_matches name (XMLElement n kids)).
    + change (child_elements name
                (read_children (run +:+ t) (reparse <$> cs)) =
              reparse <$> child_elements name cs).
      apply IH.
    + change (child_elements name
                (read_text run ++ XMLMisc t
                   :: read_children "" (reparse <$> cs)) =
              reparse <$> child_elements name cs).
      rewrite child_elements_app, child_elements_read_text.
      rewrite app_nil_l, child_elements_cons. simpl. apply IH.
Qed.

Lemma FirstChildElement_read_document (name : string) (doc : XMLDocument) :
  FirstChildElement (Some name) (read_document doc) =
    reparse <$> FirstChildElement (Some name) doc.
Proof.
  unfold FirstChildElement, read_document.
  rewrite child_elements_read_children.
  by destruct (child_elements (Some name) doc).
Qed.

(** A document with a "world" element whose tag names are XML names is
    read back from the file it was printed to. *)
Lemma printed_with_root `{Tinyxml2} (doc : XMLDocument) (root : XMLNode) :
  forallb well_named doc = true →
  FirstChildElement (Some "world") doc = Some root →
  printed doc = Parses (read_document doc).
Proof.
  intros Hnames Hroot. unfold printed. rewrite Hnames.
  pose proof (FirstChildElement_read_document "world" doc) as Hread.
  rewrite Hroot in Hread.
  by destruct (read_document doc).
Qed.

(** ** Loading what was saved *)

Lemma child_elements_all (n : option string) (cs : list XMLNode) :
  Forall (λ c, element_matches n c = true) cs → child_elements n cs = cs.
Proof.
  unfold child_elements. induction 1 as [| c cs Hc _ IH]; simpl; [done |].
  by rewrite Hc, IH.
Qed.

Lemma string_nonempty (s : string) :
  s ≠ "" → (0 <? String.length s)%nat = true.
Proof. destruct s; [done | intros _; reflexivity]. Qed.

(** A left fold of inserts over distinct keys builds the map of the list. *)
Lemma foldl_insert_list_to_map {V} (l : list (string * V)) :
  NoDup l.*1 →
  foldl (λ (m : gmap string V) kv, <[kv.1 := kv.2]> m) ∅ l = list_to_map l.
Proof.
  induction l as [| [k v] l IH] using rev_ind; [done |].
  rewrite fmap_app, NoDup_app. intros (Hnd & Hfresh & _).
  rewrite foldl_snoc, IH by done. simpl.
  rewrite list_to_map_snoc; [done |].
  intros Hin. apply (Hfresh k Hin). simpl. left.
Qed.

Lemma alter_last {A} (f : A → A) (l : list A) (x : A) :
  alter f (length l) (l ++ [x]) = l ++ [f x].
Proof.
  rewrite <- (Nat.add_0_r (length l)). by rewrite alter_app_r.
Qed.

Lemma lookup_last {A} (l : list A) (x : A) : (l ++ [x]) !! length l = Some x.
Proof. by rewrite list_lookup_middle. Qed.

Section LoadFacts.
Context `{ComponentOps Component} `{Tinyxml2}.
Context {Tex : Type} (textures : gmap string Tex).

(** The record of a field with an XML name and a value that survives is
    the element of that name with that text, and it is read back as it
    is. *)
Lemma field_record_survives (k v : string) :
  xml_name k = true → survives v →
  field_record (k, v) = field_element (k, v) ∧
  reparse (field_record (k, v)) = field_record (k, v) ∧
  well_named (field_record (k, v)) = true.
Proof.
  intros Hk (Hnul & Hblank & Hnorm).
  destruct (xml_name_c_str k Hk) as [Hkc _].
  unfold field_record, field_element. simpl. rewrite Hkc, Hnul.
  split; [done |]. split.
  - change (XMLElement k (read_text v) = XMLElement k [XMLText v]).
    unfold read_text. by rewrite Hblank, Hnorm.
  - simpl. by rewrite Hk.
Qed.

Lemma field_records_survive (l : list (string * string)) :
  Forall (λ kv, xml_name kv.1 = true ∧ survives kv.2) l →
  field_record <$> l = field_element <$> l ∧
  reparse <$> (field_record <$> l) = field_record <$> l ∧
  forallb well_named (field_record <$> l) = true.
Proof.
  induction 1 as [| [k v] l [Hk Hv] _ (IH1 & IH2 & IH3)]; [done |].
  destruct (field_record_survives k v Hk Hv) as (H1 & H2 & H3).
  split; [| split].
  - rewrite !fmap_cons. by rewrite H1, IH1.
  - rewrite !fmap_cons. by rewrite H2, IH2.
  - rewrite fmap_cons. cbn [forallb]. by rewrite H3, IH3.
Qed.

Lemma records_no_text {A} (f : A → XMLNode) (l : list A) :
  (∀ a, ∃ n kids, f a = XMLElement n kids) →
  Forall (λ c, ∀ t, c ≠ XMLText t) (f <$> l).
Proof.
  intros Hf. apply Forall_fmap, Forall_true. intros a t.
  destruct (Hf a) as (n & kids & ->). done.
Qed.

(** The record of a component that can be loaded is read back as it
    is. *)
Lemma component_record_survives (k : string) (c : Component) :
  loadable textures k c →
  reparse (component_record (k, c)) = component_record (k, c) ∧
  well_named (component_record (k, c)) = true ∧
  component_record (k, c) =
    XMLElement k (field_element <$> map_to_list (serialize c)).
Proof.
  intros (Hk & Hfields & _).
  destruct (xml_name_c_str k Hk) as [Hkc _].
  destruct (field_records_survive (map_to_list (serialize c)))
    as (Hplain & Hread & Hnames).
  { apply map_Forall_to_list in Hfields.
    eapply Forall_impl; [exact Hfields |]. by intros [n v]. }
  unfold component_record. simpl. rewrite Hkc, Hread, Hnames, Hk.
  split; [| by rewrite Hplain].
  rewrite read_children_no_text; [done |].
  apply records_no_text. intros [n v]. by eexists _, _.
Qed.

Lemma entity_record_survives (e : Entity Component) :
  map_Forall (loadable textures) e →
  reparse (entity_record e) = entity_record e ∧
  well_named (entity_record e) = true.
Proof.
  intros He. unfold entity_record.
  assert (Hall : reparse <$> (component_record <$> map_to_list e) =
                   component_record <$> map_to_list e ∧
                 forallb well_named (component_record <$> map_to_list e)
                   = true).
  { apply map_Forall_to_list in He.
    induction He as [| [k c] l Hkc _ [IH1 IH2]]; [done |].
    destruct (component_record_survives k c Hkc) as (H1 & H2 & _).
    rewrite !fmap_cons, H1, IH1. split; [done |].
    simpl. simpl in H2. by rewrite H2, IH2. }
  destruct Hall as [Hread Hnames]. simpl. rewrite Hread, Hnames.
  split; [| done].
  rewrite read_children_no_text; [done |].
  apply records_no_text. intros [k c]. by eexists _, _.
Qed.

Lemma world_record_survives (w : World Component) :
  Forall (map_Forall (loadable textures)) (entities w) →
  reparse (world_record w) = world_record w ∧
  well_named (world_record w) = true.
Proof.
  intros Hw. unfold world_record.
  assert (Hall : reparse <$> (entity_record <$> entities w) =
                   entity_record <$> entities w ∧
                 forallb well_named (entity_record <$> entities w) = true).
  { induction Hw as [| e es He _ [IH1 IH2]]; [done |].
    destruct (entity_record_survives e He) as (H1 & H2).
    rewrite !fmap_cons, H1, IH1. split; [done |].
    simpl. simpl in H2. by rewrite H2, IH2. }
  destruct Hall as [Hread Hnames]. simpl. rewrite Hread, Hnames.
  split; [| done].
  rewrite read_children_no_text; [done |].
  apply records_no_text. intros e. by eexists _, _.
Qed.

Lemma for_each_load_variable (l : list (string * string))
    (acc : gmap string string) :
  Forall (λ kv, kv.1 ≠ "" ∧ kv.2 ≠ "") l →
  NoDup l.*1 →
  (∀ k, k ∈ l.*1 → acc !! k = None) →
  for_each load_variable acc (field_element <$> l) =
    Returns (foldl (λ m kv, <[kv.1 := kv.2]> m) acc l).
Proof.
  revert acc. induction l as [| [k v] l IH]; intros acc Hne Hnd Hfresh;
    simpl; [done |].
  inversion Hne as [| ? ? [Hk Hv] Hne']; subst.
  inversion Hnd as [| ? ? Hkl Hnd']; subst.
  unfold load_variable at 1. simpl in *.
  rewrite (string_nonempty k), (string_nonempty v) by done. simpl.
  unfold map_emplace. rewrite (Hfresh k) by left.
  apply IH; [done | done |].
  intros k' Hk'. rewrite lookup_insert_ne.
  - apply Hfresh. by right.
  - intros ->. done.
Qed.

Lemma load_variables_of_record (c : Component) :
  map_Forall (λ n v, n ≠ "" ∧ v ≠ "") (serialize c) →
  for_each load_variable ∅
    (child_elements None (field_element <$> map_to_list (serialize c))) =
    Returns (serialize c).
Proof.
  intros Hne. rewrite child_elements_all.
  - rewrite for_each_load_variable.
    + rewrite foldl_insert_list_to_map by apply NoDup_fst_map_to_list.
      by rewrite list_to_map_to_list.
    + apply map_Forall_to_list in Hne.
      eapply Forall_impl; [exact Hne |]. by intros [n v].
    + apply NoDup_fst_map_to_list.
    + intros k _. apply lookup_empty.
  - apply Forall_fmap, Forall_true. by intros [n v].
Qed.

(** Loading one component record into the entity [addEntity] made. *)
Lemma load_component_record (a : WorldPtr) (n : string)
    (ss : gmap string ScriptPtr) (es : list (Entity Component))
    (e : Entity Component) (k : string) (c : Component) :
  e !! k = None →
  loadable textures k c →
  ∃ c', reload k c = Some c' ∧
    load_component textures (length es) (mkWorld a n (es ++ [e]) ss)
        (component_record (k, c)) =
      Returns (mkWorld a n (es ++ [<[k := c']> e]) ss).
Proof.
  intros Hk Hload.
  destruct (component_record_survives k c Hload) as (_ & _ & ->).
  destruct Hload as (_ & Hfields & c0 & Hc0 & Htex).
  exists (fixup k (unserialize (serialize c) c0)).
  unfold reload. rewrite Hc0. split; [done |].
  unfold load_component. simpl.
  rewrite load_variables_of_record.
  2:{ eapply map_Forall_impl; [exact Hfields |].
      intros i v [Hi Hv]. split.
      - by apply xml_name_c_str.
      - apply blank_nonempty. apply Hv. }
  simpl. unfold with_entity, set_entities. simpl.
  rewrite alter_last. unfold Entity_add. rewrite Hk, Hc0.
  rewrite lookup_last. simpl. unfold Entity_get. rewrite lookup_insert_eq.
  rewrite alter_last, alter_insert_eq. unfold fixup.
  case_bool_decide as Hd; simpl; [| done].
  subst k. rewrite lookup_last. simpl. rewrite lookup_insert_eq.
  destruct (Htex eq_refl) as [tex Htexture].
  unfold find_second. rewrite Htexture. simpl.
  by rewrite alter_last, alter_insert_eq.
Qed.

Lemma for_each_load_component (a : WorldPtr) (n : string)
    (ss : gmap string ScriptPtr) (es : list (Entity Component))
    (l : list (string * Component)) (e : Entity Component) :
  Forall (uncurry (loadable textures)) l →
  NoDup l.*1 →
  (∀ k, k ∈ l.*1 → e !! k = None) →
  for_each (load_component textures (length es))
      (mkWorld a n (es ++ [e]) ss) (component_record <$> l) =
    Returns (mkWorld a n (es ++ [foldl insert_reloaded e l]) ss).
Proof.
  revert e. induction l as [| [k c] l IH]; intros e Hst Hnd Hfresh;
    simpl; [done |].
  inversion Hst as [| ? ? Hkc Hst']; subst. simpl in Hkc.
  inversion Hnd as [| ? ? Hkl Hnd']; subst.
  destruct (load_component_record a n ss es e k c) as (c' & Hre & ->);
    [apply Hfresh; by left | done |].
  simpl. unfold insert_reloaded at 2. simpl. rewrite Hre.
  apply IH; [done | done |].
  intros k' Hk'. rewrite lookup_insert_ne.
  - apply Hfresh. by right.
  - intros ->. done.
Qed.

Lemma fmap_foldl_insert_reloaded (l : list (string * Component))
    (e : Entity Component) :
  Forall (uncurry (loadable textures)) l →
  Forall (uncurry reads_back) l →
  serialize <$> foldl insert_reloaded e l =
    foldl (λ m kc, <[kc.1 := serialize kc.2]> m) (serialize <$> e) l.
Proof.
  revert e. induction l as [| [k c] l IH]; intros e Hst Hback; simpl;
    [done |].
  inversion Hst as [| ? ? Hkc Hst']; subst.
  inversion Hback as [| ? ? Hkb Hback']; subst.
  destruct Hkc as (_ & _ & c0 & Hc0 & _). simpl in *.
  rewrite IH by done. unfold insert_reloaded at 1. simpl.
  assert (Hre : reload k c = Some (fixup k (unserialize (serialize c) c0))).
  { unfold reload. by rewrite Hc0. }
  rewrite Hre. by rewrite fmap_insert, (Hkb _ Hre).
Qed.

Lemma reloaded_fields (e : Entity Component) :
  map_Forall (loadable textures) e →
  map_Forall reads_back e →
  entity_fields (reloaded e) = entity_fields e.
Proof.
  intros Hst Hback. unfold entity_fields, reloaded.
  rewrite fmap_foldl_insert_reloaded
    by (by apply map_Forall_to_list).
  rewrite fmap_empty.
  transitivity
    (foldl (λ (m : gmap string (gmap string string)) kv, <[kv.1 := kv.2]> m)
       ∅ (prod_map id serialize <$> map_to_list e)).
  { by rewrite foldl_fmap. }
  rewrite foldl_insert_list_to_map.
  - by rewrite list_to_map_fmap, list_to_map_to_list.
  - rewrite <- list_fmap_compose.
    erewrite list_fmap_ext; [apply NoDup_fst_map_to_list |].
    by intros ? [k c].
Qed.

(** The components [load] builds for an entity have the names of the
    components that were saved. *)
Lemma foldl_insert_reloaded_dom (l : list (string * Component))
    (e : Entity Component) :
  Forall (uncurry (loadable textures)) l →
  dom (foldl insert_reloaded e l) = dom e ∪ list_to_set l.*1.
Proof.
  revert e. induction l as [| [k c] l IH]; intros e Hst; simpl.
  - by rewrite (right_id_L ∅ (∪)).
  - inversion Hst as [| ? ? Hkc Hst']; subst.
    destruct Hkc as (_ & _ & c0 & Hc0 & _). simpl in *.
    rewrite IH by done. unfold insert_reloaded. simpl.
    unfold reload. rewrite Hc0. simpl. rewrite dom_insert_L.
    by rewrite (assoc_L (∪)), (comm_L (∪) (dom e)).
Qed.

Lemma reloaded_dom (e : Entity Component) :
  map_Forall (loadable textures) e → dom (reloaded e) = dom e.
Proof.
  intros Hst. unfold reloaded.
  rewrite foldl_insert_reloaded_dom by (by apply map_Forall_to_list).
  rewrite dom_empty_L, (left_id_L ∅ (∪)).
  apply set_eq. intros k. rewrite elem_of_list_to_set, elem_of_dom.
  rewrite list_elem_of_fmap. split.
  - intros ([k' c] & -> & Hin). apply elem_of_map_to_list in Hin. by eexists.
  - intros [c Hc]. exists (k, c). split; [done |].
    by apply elem_of_map_to_list.
Qed.

Lemma addEntity_grows (a : WorldPtr) (n : string)
    (ss : gmap string ScriptPtr) (es : list (Entity Component)) :
  addEntity (mkWorld a n es ss) =
    (mkWorld a n (es ++ [∅]) ss, Some (length es)).
Proof.
  unfold addEntity, set_entities, to_unsigned. simpl.
  rewrite length_app. simpl.
  pose proof (Z.mod_pos_bound (Z.of_nat (length es)) (2 ^ 32) eq_refl).
  pose proof (Z.mod_le (Z.of_nat (length es)) (2 ^ 32)
                (Nat2Z.is_nonneg _) eq_refl).
  assert ((Z.of_nat (length es + 1) >? Z.of_nat (length es) mod 2 ^ 32) = true)
    as Hgrow.
  { apply Z.gtb_lt. rewrite Nat2Z.inj_add. simpl (Z.of_nat 1). lia. }
  rewrite Hgrow. do 3 f_equal. lia.
Qed.

Lemma load_entity_record (a : WorldPtr) (n : string)
    (ss : gmap string ScriptPtr) (es : list (Entity Component))
    (e : Entity Component) :
  map_Forall (loadable textures) e →
  load_entity textures (mkWorld a n es ss) (entity_record e) =
    Returns (mkWorld a n (es ++ [reloaded e]) ss).
Proof.
  intros Hst. unfold load_entity. rewrite addEntity_grows. simpl.
  rewrite child_elements_all.
  - apply for_each_load_component.
    + by apply map_Forall_to_list.
    + apply NoDup_fst_map_to_list.
    + intros k _. apply lookup_empty.
  - apply Forall_fmap, Forall_true. by intros [k c].
Qed.

Lemma for_each_load_entity (a : WorldPtr) (n : string)
    (ss : gmap string ScriptPtr) (es0 es : list (Entity Component)) :
  Forall (map_Forall (loadable textures)) es →
  for_each (load_entity textures) (mkWorld a n es0 ss)
      (entity_record <$> es) =
    Returns (mkWorld a n (es0 ++ (reloaded <$> es)) ss).
Proof.
  intros Hst. revert es0.
  induction Hst as [| e es He _ IH]; intros es0; simpl.
  - by rewrite app_nil_r.
  - rewrite load_entity_record by done. simpl.
    rewrite IH. by rewrite <- app_assoc.
Qed.

(** Loading a document whose "world" root is the record of [w]. *)
Lemma load_world_record (w : World Component) (a : WorldPtr)
    (fs : FileSystem) (doc : XMLDocument) :
  fs !! save_path (name w) = Some (mkFile (Parses doc) true) →
  FirstChildElement (Some "world") doc = Some (world_record w) →
  Forall (map_Forall (loadable textures)) (entities w) →
  load textures (World_new a (name w)) fs =
    Returns (true, mkWorld a (name w) (reloaded <$> entities w) ∅).
Proof.
  intros Hf Hroot Hst. unfold load, LoadFile, World_new. simpl.
  rewrite Hf. simpl. rewrite Hroot. simpl.
  rewrite child_elements_all.
  - by rewrite for_each_load_entity.
  - apply Forall_fmap, Forall_true. done.
Qed.

(** The document [save] builds from one whose tag names are XML names,
    for a world that can be loaded: it has the record of the world as
    its first "world" element and its tag names are XML names. *)
Lemma save_document_well_named (w : World Component) (doc : XMLDocument) :
  forallb well_named doc = true →
  Forall (map_Forall (loadable textures)) (entities w) →
  FirstChildElement (Some "world") (save_document w doc) =
    Some (world_record w) ∧
  forallb well_named (save_document w doc) = true.
Proof.
  intros Hdoc Hw.
  destruct (world_record_survives w Hw) as [_ Hrecord].
  destruct (FirstChildElement (Some "world") doc) as [root |] eqn:Hroot.
  - destruct (FirstChildElement_Some _ _ _ Hroot)
      as (before & old & after & -> & -> & Hb).
    rewrite save_document_root by done. split.
    + by apply FirstChildElement_at.
    + rewrite forallb_app in Hdoc |- *.
      apply andb_true_iff in Hdoc as [Hbefore Hafter].
      rewrite Hbefore. simpl in Hafter |- *.
      apply andb_true_iff in Hafter as [_ Hafter].
      simpl in Hrecord. by rewrite Hrecord, Hafter.
  - rewrite save_document_no_root by done. split.
    + apply (FirstChildElement_at "world" [] doc). constructor.
    + simpl. simpl in Hrecord. by rewrite Hrecord, Hdoc.
Qed.

(** C1 (amended).  Let the save file of the world exist, hold a
    document (with XML names for its tags, as every document that was
    parsed has) and be writable, and let every component of the world
    be loadable: type name and field names are XML names, field values
    have no NUL and no carriage return and are not white space only,
    [Entity::add] knows the type name, and the asset manager holds the
    texture of every Drawable.  Then [save] succeeds and [load] on a new
    World of the same name succeeds and produces as many entities, in
    the same order, with the same component names; each component is a
    new one of its type that [unserialize] was handed exactly the fields
    the original serialized; and where a component type reads back what
    it serialized (the contract of [serialize] and [unserialize]), the
    field values are the same. *)
Theorem save_then_load (w : World Component) (a : WorldPtr)
    (fs : FileSystem) (doc : XMLDocument) :
  fs !! save_path (name w) = Some (mkFile (Parses doc) true) →
  forallb well_named doc = true →
  Forall (map_Forall (loadable textures)) (entities w) →
  ∃ (fs' : FileSystem) (w' : World Component),
    save w fs = (true, w, fs') ∧
    load textures (World_new a (name w)) fs' = Returns (true, w') ∧
    length (entities w') = length (entities w) ∧
    entities w' = reloaded <$> entities w ∧
    dom <$> entities w' = dom <$> entities w ∧
    (Forall (map_Forall reads_back) (entities w) →
       entity_fields <$> entities w' = entity_fields <$> entities w).
Proof.
  intros Hf Hdoc Hst.
  destruct (save_document_well_named w doc Hdoc Hst) as [Hroot Hnames].
  destruct (world_record_survives w Hst) as [Hread _].
  eexists _, (mkWorld a (name w) (reloaded <$> entities w) ∅).
  split; [by apply (save_loaded w fs (mkFile (Parses doc) true) doc) |].
  split; [| split; [| split; [| split]]].
  - apply (load_world_record w a _ (read_document (save_document w doc))).
    + rewrite lookup_insert_eq.
      by rewrite (printed_with_root _ (world_record w)).
    + rewrite FirstChildElement_read_document, Hroot.
      change (Some (reparse (world_record w)) = Some (world_record w)).
      by rewrite Hread.
    + done.
  - simpl. by rewrite length_fmap.
  - done.
  - simpl. rewrite <- list_fmap_compose.
    apply list_fmap_ext. intros i e Hi. simpl.
    apply reloaded_dom. eapply Forall_lookup_1; eauto.
  - intros Hback. simpl. rewrite <- list_fmap_compose.
    apply list_fmap_ext. intros i e Hi. simpl.
    apply reloaded_fields; eapply Forall_lookup_1; eauto.
Qed.

End LoadFacts.

Lemma sample_world_loadable :
  Forall (map_Forall (loadable sample_textures)) (entities sample_world).
Proof.
  assert (Hname : ∀ n, survives n →
            loadable sample_textures "Name" (SampleName n)).
  { intros n Hn. split; [done |]. split.
    - apply map_Forall_singleton. by split.
    - exists (SampleName ""). by split. }
  apply Forall_cons. split; [| apply Forall_singleton].
  - apply map_Forall_insert_2;
      [| apply map_Forall_singleton; by apply Hname].
    split; [done |]. split.
    + apply map_Forall_singleton. by split.
    + exists (SampleDrawable "" None). split; [done |].
      intros _. by eexists.
  - apply map_Forall_singleton. by apply Hname.
Qed.

Lemma sample_world_reads_back :
  Forall (map_Forall reads_back) (entities sample_world).
Proof.
  apply Forall_cons. split; [| apply Forall_singleton].
  - apply map_Forall_insert_2; [| apply map_Forall_singleton].
    + by intros c' [= <-].
    + by intros c' [= <-].
  - apply map_Forall_singleton. by intros c' [= <-].
Qed.

Lemma save_then_load_witness :
  ∃ (fs' : FileSystem) (w' : World SampleComponent),
    save sample_world writable_fs = (true, sample_world, fs') ∧
    load sample_textures (World_new 2%positive "maze") fs' =
      Returns (true, w') ∧
    length (entities w') = 2%nat ∧
    entities w' = reloaded <$> [ship; player] ∧
    dom <$> entities w' = dom <$> [ship; player] ∧
    (Forall (map_Forall reads_back) [ship; player] →
       entity_fields <$> entities w' = entity_fields <$> [ship; player]).
Proof.
  apply (save_then_load sample_textures sample_world 2%positive writable_fs
           [XMLMisc "xml version=1.0";
            XMLElement "world" [XMLElement "entity" []]]).
  - reflexivity.
  - reflexivity.
  - apply sample_world_loadable.
Defined.

(** C1 as stated fails: with no save file yet, [save] fails and writes
    nothing, and [load] into a new World of the same name finds no file
    and leaves it without entities, although every component of the world
    can be loaded and reads back what it serialized. *)
Lemma save_needs_an_existing_file :
  Forall (map_Forall (loadable sample_textures)) (entities sample_world) ∧
  Forall (map_Forall reads_back) (entities sample_world) ∧
  save sample_world ∅ = (false, sample_world, ∅) ∧
  load sample_textures (World_new 2%positive "maze") ∅ =
    Returns (false, World_new (Component := SampleComponent) 2%positive "maze") ∧
  ¬ save_load_roundtrips sample_textures sample_world 2%positive ∅.
Proof.
  split; [apply sample_world_loadable |].
  split; [apply sample_world_reads_back |].
  split; [reflexivity |]. split; [reflexivity |].
  intros (b & w' & Hload & Hfields).
  change (load sample_textures (World_new 2%positive "maze") ∅ =
            Returns (b, w')) in Hload.
  injection Hload as <- <-. discriminate Hfields.
Qed.

(** Values that are not read back as they were written.  A value that
    is white space only is saved and leaves a field element without
    text, on which [load] is undefined; a carriage return is read as a
    line feed; a value is cut at its first NUL. *)
Lemma blank_value_is_not_read_back :
  let w : World SampleComponent :=
    mkWorld 1%positive "maze" [{[ "Name" := SampleName " " ]}] ∅ in
  (save w writable_fs).1.1 = true ∧
  load sample_textures (World_new 2%positive "maze") (save w writable_fs).2 =
    Undefined.
Proof. vm_compute. done. Qed.

Lemma carriage_return_is_read_as_line_feed :
  let w : World SampleComponent :=
    mkWorld 1%positive "maze"
      [{[ "Name" := SampleName ("a" +:+ String CR "b") ]}] ∅ in
  load sample_textures (World_new 2%positive "maze") (save w writable_fs).2 =
    Returns (true,
             mkWorld 2%positive "maze"
               [{[ "Name" := SampleName ("a" +:+ String LF "b") ]}] ∅).
Proof. vm_compute. done. Qed.

Lemma value_is_cut_at_NUL :
  let w : World SampleComponent :=
    mkWorld 1%positive "maze"
      [{[ "Name" := SampleName ("a" +:+ String Ascii.zero "b") ]}] ∅ in
  load sample_textures (World_new 2%positive "maze") (save w writable_fs).2 =
    Returns (true,
             mkWorld 2%positive "maze" [{[ "Name" := SampleName "a" ]}] ∅).
Proof. vm_compute. done. Qed.

(** A Drawable whose texture the asset manager does not hold: [load]
    dereferences [textures.find(n)], which is [end()]. *)
Lemma missing_texture_is_undefined :
  load (∅ : gmap string unit) (World_new 2%positive "maze")
    (save sample_world writable_fs).2 = Undefined.
Proof. vm_compute. done. Qed.

(** ** Scripts, ticks and destruction *)

Section ScriptFacts.
Context {LuaState Component : Type} `{!LuaScript LuaState Component}.

Lemma Script_update_world (s : Script LuaState)
    (es : list (Entity Component)) :
  world (Script_update s es).1 = world s.
Proof. unfold Script_update. by destruct (lua_Update _ _). Qed.

(** One round of the script loop attaches the script it runs and keeps
    attached what was attached. *)
Lemma update_script_attaches (self : WorldPtr)
    (am am' : AssetManager LuaState) (es es' : list (Entity Component))
    (d d' : list string) (k : string) (p : ScriptPtr) :
  update_script self (am, es, d) (k, p) = Returns (am', es', d') →
  attached self p am' ∧
  (∀ q, attached self q am → attached self q am') ∧
  (∀ k', k' ∈ d → k' ∈ d').
Proof.
  unfold update_script. simpl.
  destruct (scriptCache am !! p) as [script |] eqn:Hp; [| done].
  set (script1 := if bool_decide _ then _ else _).
  assert (Hw1 : world script1 = Some self).
  { subst script1. unfold Script_getWorld.
    destruct (bool_decide (world script = Some self)) eqn:Hw; [| done].
    by apply bool_decide_eq_true in Hw. }
  pose proof (Script_update_world script1 es) as Hw2.
  destruct (Script_update script1 es) as [script2 es2]. simpl in Hw2.
  intros [= <- <- <-]. split; [| split].
  - exists script2. simpl. rewrite lookup_insert_eq. split; congruence.
  - intros q (s & Hq & Hs). unfold attached. simpl.
    destruct (decide (p = q)) as [<- | Hne].
    + exists script2. rewrite lookup_insert_eq. split; congruence.
    + exists s. by rewrite lookup_insert_ne.
  - intros k' Hk'. destruct (Script_toDelete script2); [| done].
    apply elem_of_app. by left.
Qed.

Lemma for_each_update_script (self : WorldPtr)
    (l : list (string * ScriptPtr))
    (am am' : AssetManager LuaState) (es es' : list (Entity Component))
    (d d' : list string) :
  for_each (update_script self) (am, es, d) l = Returns (am', es', d') →
  (∀ k p, (k, p) ∈ l → attached self p am') ∧
  (∀ q, attached self q am → attached self q am').
Proof.
  revert am es d. induction l as [| [k p] l IH]; intros am es d.
  - simpl. intros [= <- <- <-]. split; [| done].
    intros k p Hin. by apply elem_of_nil in Hin.
  - rewrite for_each_cons.
    destruct (update_script self (am, es, d) (k, p))
      as [[[am1 es1] d1] |] eqn:Hstep; [| done].
    simpl. intros Hrest.
    destruct (update_script_attaches _ _ _ _ _ _ _ _ _ Hstep)
      as (Hp & Hkeep & _).
    destruct (IH _ _ _ Hrest) as (Hl & Hkeep').
    split; [| by auto].
    intros k' p' [[= -> ->] | Hin]%elem_of_cons; [by auto | by eauto].
Qed.

Lemma remove_done_scripts (w : World Component) (d : list string)
    (k : string) :
  scripts (foldl remove_done w d) !! k =
    if decide (k ∈ d) then None else scripts w !! k.
Proof.
  revert w. induction d as [| k' d IH]; intros w.
  - destruct (decide (k ∈ [])) as [Hin | _]; [| done].
    by apply elem_of_nil in Hin.
  - change (foldl remove_done w (k' :: d))
      with (foldl remove_done (remove_done w k') d).
    rewrite IH.
    destruct (decide (k ∈ d)) as [Hin | Hout];
      destruct (decide (k ∈ k' :: d)) as [Hin' | Hout']; try done.
    + exfalso. apply Hout'. by right.
    + apply elem_of_cons in Hin' as [-> | ?]; [| done].
      unfold remove_done, removeScript.
      destruct (scripts w !! k') eqn:Hk; simpl; [| done].
      by rewrite lookup_delete_eq.
    + assert (k' ≠ k) by (intros ->; apply Hout'; left).
      unfold remove_done, removeScript.
      destruct (scripts w !! k'); simpl; [| done].
      by rewrite lookup_delete_ne.
Qed.

(** The script loop returns when every pointer it follows is in the
    cache; it only collects names of the mapping. *)
Lemma for_each_update_script_returns (self : WorldPtr)
    (l : list (string * ScriptPtr)) (am : AssetManager LuaState)
    (es : list (Entity Component)) (d : list string) :
  (∀ k p, (k, p) ∈ l → is_Some (scriptCache am !! p)) →
  ∃ am' es' d',
    for_each (update_script self) (am, es, d) l = Returns (am', es', d') ∧
    (∀ k, k ∈ d' → k ∈ d ∨ k ∈ l.*1).
Proof.
  revert am es d. induction l as [| [k p] l IH]; intros am es d Hvalid.
  - exists am, es, d. split; [done | by left].
  - rewrite for_each_cons.
    destruct (Hvalid k p) as [script Hp]; [left |].
    unfold update_script at 1. simpl. rewrite Hp.
    set (script1 := if bool_decide _ then _ else _).
    destruct (Script_update script1 es) as [script2 es2]. simpl.
    edestruct (IH (mkAssets (getScript am) (<[p := script2]> (scriptCache am)))
                 es2 (if Script_toDelete script2 then d ++ [k] else d))
      as (am' & es' & d' & Hrest & Hnames).
    + intros k' p' Hin. simpl.
      destruct (decide (p = p')) as [<- | Hne].
      * rewrite lookup_insert_eq. by eexists.
      * rewrite lookup_insert_ne by done. apply (Hvalid k'). by right.
    + exists am', es', d'. split; [exact Hrest |].
      intros k' Hk'. destruct (Hnames k' Hk') as [Hd | Hl].
      * destruct (Script_toDelete script2); [| by left].
        apply elem_of_app in Hd as [Hd | Hd%list_elem_of_singleton];
          [by left | right; subst; left].
      * right. by right.
Qed.

(** C2 (what the code does).  A tick of a World whose scripts are all in
    the cache returns, and for every script [k] of the mapping that was
    pushed to [doneScripts] in it (its Done flag read true): the mapping
    no longer holds [k], but the script instance still has this World as
    its current world.  [removeScript] erases the mapping entry and does
    not touch the instance. *)
Theorem done_script_stays_attached {float State}
    (sys : Systems Component float State) (dt : float) (w : World Component)
    (am : AssetManager LuaState) (st : State) :
  (∀ k p, scripts w !! k = Some p → is_Some (scriptCache am !! p)) →
  ∃ w' am' d st',
    update sys dt w am st = Returns (w', am', d, st') ∧
    (∀ k, k ∈ d → is_Some (scripts w !! k)) ∧
    (∀ k p, scripts w !! k = Some p → k ∈ d →
       scripts w' !! k = None ∧ attached (this w) p am').
Proof.
  intros Hvalid. unfold update.
  destruct (update_entities sys dt (entities w) st) as [es st'].
  destruct (for_each_update_script_returns (this w) (map_to_list (scripts w))
              am es [])
    as (am' & es' & d & Hloop & Hnames).
  { intros k p Hin. apply (Hvalid k). by apply elem_of_map_to_list. }
  rewrite Hloop. simpl. eexists _, am', d, st'. split; [reflexivity |].
  split.
  - intros k Hk. destruct (Hnames k Hk) as [Hnil | Hin].
    + by apply elem_of_nil in Hnil.
    + apply list_elem_of_fmap in Hin as ([k' p] & -> & Hin).
      apply elem_of_map_to_list in Hin. by eexists.
  - intros k p Hk Hd. split.
    + rewrite remove_done_scripts. by rewrite decide_True.
    + apply for_each_update_script in Hloop as [Hl _].
      apply (Hl k). by apply elem_of_map_to_list.
Qed.

(** A World without scripts: the tick is the entity loop. *)
Lemma update_without_scripts {float State}
    (sys : Systems Component float State) (dt : float) (w : World Component)
    (am : AssetManager LuaState) (st : State) :
  scripts w = ∅ →
  update sys dt w am st =
    Returns (set_entities (update_entities sys dt (entities w) st).1 w, am, [],
             (update_entities sys dt (entities w) st).2).
Proof.
  intros Hnone. unfold update.
  destruct (update_entities sys dt (entities w) st) as [es st'].
  rewrite Hnone, map_to_list_empty. done.
Qed.

(** With systems that keep nothing, a tick is the three passes over the
    entities, movement, physical, draw, and then the scripts. *)
Lemma update_stateless {float State} (sys : Systems Component float State)
    (move physical draw : Entity Component → float → Entity Component)
    (dt : float) (w : World Component) (am : AssetManager LuaState)
    (st : State) :
  stateless sys move physical draw →
  update sys dt w am st =
    update (pure_systems (λ e _, e) (λ e _, e) (λ e _, e)) dt
      (set_entities
         (pass draw dt (pass physical dt (pass move dt (entities w)))) w)
      am st.
Proof.
  intros Hsys. unfold update.
  rewrite (update_entities_stateless sys move physical draw) by done.
  rewrite (update_entities_stateless
             (pure_systems (λ e _, e) (λ e _, e) (λ e _, e))
             (λ e _, e) (λ e _, e) (λ e _, e))
    by apply pure_systems_stateless.
  simpl. by rewrite !pass_id.
Qed.

(** C6 (amended).  A tick of a World whose scripts are all in the cache
    returns, and the calls it makes to the systems, in the order it
    makes them, are three for each entity of the World, movement,
    physical, draw, entity after entity; the movement system is handed
    every entity exactly once, in the order of the list.  Keeping the
    list of calls changes nothing of the result.  When the systems keep
    nothing between calls, each system is handed every entity exactly
    once, the physical system what the movement system left of it and
    the draw system what the physical system left, and the tick gives
    what the movement pass, then the physical pass, then the draw pass
    over all entities give, followed by the scripts.  The loop of
    [TestWorld::update], whose clamping and collision block is empty,
    computes what the loop of [World::update] computes. *)
Theorem update_visits_entity_by_entity {float State}
    (sys : Systems Component float State) (dt : float) (w : World Component)
    (am : AssetManager LuaState) (st : State) :
  (∀ k p, scripts w !! k = Some p → is_Some (scriptCache am !! p)) →
  ∃ w' am' d st' calls,
    update sys dt w am st = Returns (w', am', d, st') ∧
    update (recording sys) dt w am (st, []) =
      Returns (w', am', d, (st', calls)) ∧
    calls.*1 = flat_map (λ _, [Move; Physical; Draw]) (entities w) ∧
    (filter (λ c, c.1 = Move) calls).*2 = entities w ∧
    (∀ move physical draw, stateless sys move physical draw →
       calls = flat_map (λ e, [(Move, e); (Physical, move e dt);
                                 (Draw, physical (move e dt) dt)])
                 (entities w) ∧
       st' = st ∧
       update sys dt w am st =
         update (pure_systems (λ e _, e) (λ e _, e) (λ e _, e)) dt
           (set_entities
              (pass draw dt (pass physical dt (pass move dt (entities w)))) w)
           am st) ∧
    TestWorld_update sys dt (entities w) st =
      update_entities sys dt (entities w) st.
Proof.
  intros Hvalid.
  destruct (update_entities_recording sys dt (entities w) st [])
    as (calls & Hrec & Hids & Hmoved & Hpure).
  destruct (for_each_update_script_returns (this w) (map_to_list (scripts w))
              am (update_entities sys dt (entities w) st).1 [])
    as (am' & es' & d & Hloop & _).
  { intros k p Hin. apply (Hvalid k). by apply elem_of_map_to_list. }
  exists (foldl remove_done (set_entities es' w) d), am', d,
    (update_entities sys dt (entities w) st).2, calls.
  split; [| split; [| split; [| split; [| split]]]].
  - unfold update.
    destruct (update_entities sys dt (entities w) st) as [es st'].
    simpl in *. by rewrite Hloop.
  - unfold update. rewrite Hrec. simpl. by rewrite Hloop.
  - exact Hids.
  - exact Hmoved.
  - intros move physical draw Hsys.
    split; [by apply (Hpure move physical draw) |]. split.
    + by rewrite (update_entities_stateless sys move physical draw).
    + by apply update_stateless.
  - apply TestWorld_update_entities.
Qed.

(** [World::removeScript] on its own: the entry goes, the instance is
    not reached. *)
Lemma removeScript_spec (k : string) (w : World Component) :
  scripts (removeScript k w).2 = delete k (scripts w) ∧
  entities (removeScript k w).2 = entities w ∧
  this (removeScript k w).2 = this w.
Proof.
  unfold removeScript. destruct (scripts w !! k) eqn:Hk; simpl; [done |].
  by rewrite delete_id.
Qed.

(** The destructor detaches every script of the mapping. *)
Lemma for_each_detach_script (l : list (string * ScriptPtr))
    (am am' : AssetManager LuaState) :
  for_each detach_script am l = Returns am' →
  (∀ k p, (k, p) ∈ l → detached p am') ∧
  (∀ q, detached q am → detached q am') ∧
  (∀ q, q ∉ l.*2 → scriptCache am' !! q = scriptCache am !! q).
Proof.
  revert am. induction l as [| [k p] l IH]; intros am.
  - simpl. intros [= <-]. split; [| done].
    intros k p Hin. by apply elem_of_nil in Hin.
  - rewrite for_each_cons. unfold detach_script at 1, deref. simpl.
    destruct (scriptCache am !! p) as [s |] eqn:Hp; [| done]. simpl.
    intros Hrest. destruct (IH _ Hrest) as (Hl & Hkeep & Hother).
    assert (Hnow : detached p
              (mkAssets (getScript am)
                 (<[p := Script_setWorld None s]> (scriptCache am)))).
    { exists (Script_setWorld None s). simpl. by rewrite lookup_insert_eq. }
    split; [| split].
    + intros k' p' [[= -> ->] | Hin]%elem_of_cons; [by auto | by eauto].
    + intros q (s' & Hq & Hs'). apply Hkeep.
      destruct (decide (p = q)) as [<- | Hne]; [done |].
      exists s'. simpl. by rewrite lookup_insert_ne.
    + intros q Hq. rewrite not_elem_of_cons in Hq. destruct Hq as [Hqp Hq].
      rewrite Hother by done. simpl. by rewrite lookup_insert_ne.
Qed.

Lemma for_each_detach_script_returns (l : list (string * ScriptPtr))
    (am : AssetManager LuaState) :
  (∀ k p, (k, p) ∈ l → is_Some (scriptCache am !! p)) →
  ∃ am', for_each detach_script am l = Returns am'.
Proof.
  revert am. induction l as [| [k p] l IH]; intros am Hvalid.
  - by exists am.
  - rewrite for_each_cons. unfold detach_script at 1, deref. simpl.
    destruct (Hvalid k p) as [s Hp]; [left |]. rewrite Hp. simpl.
    apply IH. intros k' p' Hin. simpl.
    destruct (decide (p = p')) as [<- | Hne].
    + rewrite lookup_insert_eq. by eexists.
    + rewrite lookup_insert_ne by done. apply (Hvalid k'). by right.
Qed.

(** The destructor returns and leaves every script of the mapping
    without a current world. *)
Lemma World_destroy_detaches `{!ComponentOps Component} `{!Tinyxml2}
    (w : World Component) (am : AssetManager LuaState) (fs : FileSystem) :
  (∀ k p, scripts w !! k = Some p → is_Some (scriptCache am !! p)) →
  ∃ am',
    World_destroy w am fs = Returns (am', (save w fs).2) ∧
    ∀ k p, scripts w !! k = Some p → detached p am'.
Proof.
  intros Hvalid. unfold World_destroy.
  destruct (save w fs) as [[b w0] fs0]. simpl.
  destruct (for_each_detach_script_returns (map_to_list (scripts w)) am)
    as [am' Hloop].
  { intros k p Hin. apply (Hvalid k). by apply elem_of_map_to_list. }
  rewrite Hloop. simpl. exists am'. split; [done |].
  intros k p Hk. apply for_each_detach_script in Hloop as (Hl & _).
  apply (Hl k). by apply elem_of_map_to_list.
Qed.

End ScriptFacts.

Lemma done_script_stays_attached_witness :
  ∃ (w' : World SampleComponent) (am' : AssetManager nat) (d : list string)
    (st' : unit),
    update idle_systems 16%nat sample_world sample_assets () =
      Returns (w', am', d, st') ∧
    (∀ k, k ∈ d → is_Some (scripts sample_world !! k)) ∧
    (∀ k p, scripts sample_world !! k = Some p → k ∈ d →
       scripts w' !! k = None ∧ attached 1%positive p am').
Proof.
  apply (done_script_stays_attached idle_systems 16%nat sample_world
           sample_assets ()).
  intros k p Hk. unfold sample_world in Hk. simpl in Hk.
  apply lookup_singleton_Some in Hk as [_ <-]. by eexists.
Defined.

(** The tick of the example: "quest.lua" reaches zero, is pushed to
    [doneScripts] and erased from the mapping; instance 7 keeps world 1. *)
Lemma sample_tick :
  update idle_systems 16%nat sample_world sample_assets () =
    Returns (set_scripts ∅ sample_world,
             mkAssets (getScript sample_assets)
               (<[7%positive := mkScript 0%nat true (Some 1%positive)]>
                  (scriptCache sample_assets)),
             ["quest.lua"], ()).
Proof. vm_compute. reflexivity. Qed.

(** The calls of that tick. *)
Lemma sample_tick_calls :
  update (recording idle_systems) 16%nat sample_world sample_assets ((), []) =
    Returns (set_scripts ∅ sample_world,
             mkAssets (getScript sample_assets)
               (<[7%positive := mkScript 0%nat true (Some 1%positive)]>
                  (scriptCache sample_assets)),
             ["quest.lua"],
             ((), [(Move, ship); (Physical, ship); (Draw, ship);
                   (Move, player); (Physical, player); (Draw, player)])).
Proof. vm_compute. reflexivity. Qed.

Lemma update_visits_entity_by_entity_witness :
  ∃ (w' : World SampleComponent) (am' : AssetManager nat) (d : list string)
    (st' : unit) (calls : list (SystemId * Entity SampleComponent)),
    update idle_systems 16%nat sample_world sample_assets () =
      Returns (w', am', d, st') ∧
    update (recording idle_systems) 16%nat sample_world sample_assets ((), []) =
      Returns (w', am', d, (st', calls)) ∧
    calls.*1 = [Move; Physical; Draw; Move; Physical; Draw] ∧
    (filter (λ c, c.1 = Move) calls).*2 = [ship; player] ∧
    (∀ move physical draw, stateless idle_systems move physical draw →
       calls = [(Move, ship); (Physical, move ship 16%nat);
                (Draw, physical (move ship 16%nat) 16%nat);
                (Move, player); (Physical, move player 16%nat);
                (Draw, physical (move player 16%nat) 16%nat)] ∧
       st' = () ∧
       update idle_systems 16%nat sample_world sample_assets () =
         update (pure_systems (λ e _, e) (λ e _, e) (λ e _, e)) 16%nat
           (set_entities
              (pass draw 16%nat
                 (pass physical 16%nat (pass move 16%nat [ship; player])))
              sample_world)
           sample_assets ()) ∧
    TestWorld_update idle_systems 16%nat [ship; player] () =
      update_entities idle_systems 16%nat [ship; player] ().
Proof.
  apply (update_visits_entity_by_entity idle_systems 16%nat sample_world
           sample_assets ()).
  intros k p Hk. unfold sample_world in Hk. simpl in Hk.
  apply lookup_singleton_Some in Hk as [_ <-]. by eexists.
Defined.

(** C6 as stated fails: the calls of a tick on two entities are not the
    movement pass, then the physical pass, then the draw pass; the draw
    system is called for the first entity before the movement system is
    called for the second. *)
Lemma tick_is_not_pass_by_pass :
  ¬ runs_pass_by_pass idle_systems 16%nat sample_world sample_assets ().
Proof.
  intros Hpasses.
  pose proof (Hpasses _ _ _ _ _ sample_tick_calls) as Hcalls.
  discriminate Hcalls.
Qed.

Section Dangling.
Context {LuaState Component : Type} `{!LuaScript LuaState Component}
        `{!ComponentOps Component} `{!Tinyxml2}.

(** C7 (what the code does).  Removing a script from the mapping of
    the World it is attached to leaves the instance pointing to that
    World, which no longer lists it: the invariant is broken.  The
    destructor then walks the mapping only, so it returns with the
    instance still pointing to the World that is gone. *)
Theorem removed_script_dangles (w : World Component)
    (am : AssetManager LuaState) (k : string) (p : ScriptPtr) :
  scripts w !! k = Some p →
  attached (this w) p am →
  (∀ k', scripts w !! k' = Some p → k' = k) →
  (∀ k' p', scripts w !! k' = Some p' → is_Some (scriptCache am !! p')) →
  let w1 := (removeScript k w).2 in
  scripts w1 !! k = None ∧
  attached (this w1) p am ∧
  ¬ attachment_invariant [w1] am ∧
  (∀ fs, ∃ am',
     World_destroy w1 am fs = Returns (am', (save w1 fs).2) ∧
     attached (this w) p am' ∧
     ¬ attachment_invariant (Component := Component) [] am').
Proof.
  intros Hk Hatt Honly Hvalid w1.
  destruct (removeScript_spec k w) as (Hss & _ & Hthis).
  fold w1 in Hss, Hthis.
  assert (Hunlisted : ∀ k', scripts w1 !! k' ≠ Some p).
  { intros k'. rewrite Hss. destruct (decide (k' = k)) as [-> | Hne].
    - by rewrite lookup_delete_eq.
    - rewrite lookup_delete_ne by done. intros Hk'. by apply Hne, Honly. }
  split; [by rewrite Hss, lookup_delete_eq |].
  split; [by rewrite Hthis |].
  split.
  - intros Hinv. destruct Hatt as (s & Hp & Hs).
    destruct (Hinv p s Hp) as [Hnull | (w' & k' & Hin & _ & Hlisted)].
    + congruence.
    + apply list_elem_of_singleton in Hin as ->. by apply (Hunlisted k').
  - intros fs. unfold World_destroy.
    destruct (save w1 fs) as [[b w0] fs0]. simpl.
    destruct (for_each_detach_script_returns (map_to_list (scripts w1)) am)
      as [am' Hloop].
    { intros k' p' Hin. apply elem_of_map_to_list in Hin.
      rewrite Hss in Hin. apply lookup_delete_Some in Hin as [_ Hin].
      by apply (Hvalid k'). }
    rewrite Hloop. simpl. exists am'. split; [done |].
    apply for_each_detach_script in Hloop as (_ & _ & Hother).
    assert (Hstill : attached (this w) p am').
    { destruct Hatt as (s & Hp & Hs). exists s. split; [| done].
      rewrite Hother; [done |].
      intros ([k' p'] & -> & Hin)%list_elem_of_fmap. simpl in Hin.
      apply elem_of_map_to_list in Hin. by apply (Hunlisted k'). }
    split; [done |].
    intros Hinv. destruct Hstill as (s & Hp & Hs).
    destruct (Hinv p s Hp) as [Hnull | (w' & k' & Hin & _)].
    + congruence.
    + by apply elem_of_nil in Hin.
Qed.

End Dangling.

Lemma sample_attachment_invariant :
  attachment_invariant [sample_world] sample_assets.
Proof.
  intros p s Hp. unfold sample_assets in Hp. simpl in Hp.
  destruct (decide (p = 7%positive)) as [-> | H7].
  - rewrite lookup_insert_eq in Hp. injection Hp as <-.
    right. exists sample_world, "quest.lua".
    split; [left |]. by split.
  - rewrite lookup_insert_ne in Hp by done.
    destruct (decide (p = 8%positive)) as [-> | H8].
    + rewrite lookup_singleton_eq in Hp. injection Hp as <-. by left.
    + by rewrite lookup_singleton_ne in Hp.
Qed.

Lemma removed_script_dangles_witness :
  attachment_invariant [sample_world] sample_assets ∧
  let w1 := (removeScript "quest.lua" sample_world).2 in
  scripts w1 !! "quest.lua" = None ∧
  attached 1%positive 7%positive sample_assets ∧
  ¬ attachment_invariant [w1] sample_assets ∧
  (∀ fs, ∃ am',
     World_destroy w1 sample_assets fs = Returns (am', (save w1 fs).2) ∧
     attached 1%positive 7%positive am' ∧
     ¬ attachment_invariant (Component := SampleComponent) [] am').
Proof.
  split; [apply sample_attachment_invariant |].
  apply (removed_script_dangles sample_world sample_assets "quest.lua"
           7%positive).
  - reflexivity.
  - by eexists.
  - intros k' Hk'. unfold sample_world in Hk'. simpl in Hk'.
    by apply lookup_singleton_Some in Hk' as [<- _].
  - intros k' p' Hk'. unfold sample_world in Hk'. simpl in Hk'.
    apply lookup_singleton_Some in Hk' as [_ <-]. by eexists.
Defined.

(** ** Calls through a Selection *)

Section Calls.
Context `{LuaInterpreter}.

Lemma distributeArgs_stack (args : list LuaValue) (L : lua_State) :
  distributeArgs args L =
    mkLua (reverse args ++ lua_stack L) (lua_globals L).
Proof.
  unfold distributeArgs. revert L.
  induction args as [| v args IH]; intros L; simpl.
  - by destruct L.
  - rewrite IH. simpl. by rewrite reverse_cons, <- app_assoc.
Qed.

(** What [lua_pcall] is handed by [operator()]: the arguments in the
    order they were given, and the global under them. *)
Lemma lua_pcall_of_call (f : nat) (args : list LuaValue) (L : lua_State) :
  lua_pcall (length args)
      (distributeArgs args (mkLua (LFunction f :: lua_stack L) (lua_globals L))) =
    match lua_run f args (lua_globals L) with
    | (inl msg, g) => (LUA_ERRRUN, mkLua (LString msg :: lua_stack L) g)
    | (inr rets, g) => (LUA_OK, mkLua (reverse rets ++ lua_stack L) g)
    end.
Proof.
  rewrite distributeArgs_stack. unfold lua_pcall. simpl.
  rewrite <- (length_reverse args).
  rewrite take_app_length, drop_app_length, reverse_involutive.
  done.
Qed.

Lemma lua_pushfstring_plain (fmt : string) :
  all_chars (λ c, negb (Ascii.eqb c PERCENT)) fmt = true →
  lua_pushfstring fmt = Some fmt.
Proof.
  induction fmt as [| c fmt IH]; [done |].
  cbn [all_chars lua_pushfstring]. intros [Hc Hfmt]%andb_true_iff.
  destruct (Ascii.eqb c PERCENT); [done |]. by rewrite IH.
Qed.

(** C4 (what the code does).  When the named global is a function that
    fails with message [msg], [operator()] returns no Selection: it
    calls [luaL_error] with [msg] as the format.  When [msg] has no
    [%], the error raised carries [msg], and a caller that runs under a
    protected call, as the host layer does, gets the error with that
    text; the process is not aborted.  When [msg] has a conversion, what
    is raised is not the message, whatever the caller. *)
Theorem failed_call_raises (sel : Selection) (args : list LuaValue)
    (L : lua_State) (f : nat) (msg : string) (g : gmap string LuaValue) :
  lua_globals L !! sel_name sel = Some (LFunction f) →
  lua_run f args (lua_globals L) = (inl msg, g) →
  let L' := mkLua (LString msg :: lua_stack L) g in
  Selection_call sel args L = Raised msg L' ∧
  (all_chars (λ c, negb (Ascii.eqb c PERCENT)) msg = true →
     (∀ ctx, (0 < protected_calls ctx)%nat →
        deliver ctx (Selection_call sel args L) =
          ErrorDelivered (position ctx +:+ msg) L') ∧
     deliver host_layer (Selection_call sel args L) = ErrorDelivered msg L') ∧
  (lua_pushfstring msg = None →
     ∀ ctx, deliver ctx (Selection_call sel args L) = MessageLost msg).
Proof.
  intros Hglobal Hrun L'.
  assert (Hcall : Selection_call sel args L = Raised msg L').
  { unfold Selection_call, lua_getglobal. rewrite Hglobal. simpl.
    rewrite lua_pcall_of_call, Hrun. done. }
  rewrite Hcall. split; [done |]. split.
  - intros Hplain%lua_pushfstring_plain. unfold deliver. rewrite Hplain.
    split; [| done].
    intros ctx Hctx.
    by destruct (Nat.ltb_spec 0 (protected_calls ctx)); [| lia].
  - intros Hlost ctx. unfold deliver. by rewrite Hlost.
Qed.

(** A call of a global that is not a function fails the same way. *)
Lemma call_of_nil_raises (sel : Selection) (args : list LuaValue)
    (L : lua_State) :
  lua_globals L !! sel_name sel = None →
  Selection_call sel args L =
    Raised "attempt to call a nil value"
      (mkLua (LString "attempt to call a nil value" :: lua_stack L)
             (lua_globals L)).
Proof.
  intros Hglobal. unfold Selection_call, lua_getglobal.
  rewrite Hglobal. simpl. rewrite distributeArgs_stack. unfold lua_pcall.
  simpl. rewrite <- (length_reverse args).
  by rewrite take_app_length, drop_app_length.
Qed.

End Calls.

Lemma failed_call_raises_witness :
  let L' := mkLua [LString "quest.lua:12: attempt to index a nil value"]
                  {[ "Update" := LFunction 0 ]} in
  @Selection_call Failing_interpreter (mkSelection "Update" 0) [] sample_lua =
    Raised "quest.lua:12: attempt to index a nil value" L' ∧
  (∀ ctx, (0 < protected_calls ctx)%nat →
     deliver ctx (@Selection_call Failing_interpreter
                    (mkSelection "Update" 0) [] sample_lua) =
       ErrorDelivered
         (position ctx +:+ "quest.lua:12: attempt to index a nil value") L') ∧
  deliver host_layer (@Selection_call Failing_interpreter
                        (mkSelection "Update" 0) [] sample_lua) =
    ErrorDelivered "quest.lua:12: attempt to index a nil value" L' ∧
  ∀ ctx, deliver ctx (@Selection_call Percent_interpreter
                        (mkSelection "Update" 0) [] sample_lua) =
           MessageLost "quest.lua:3: %s".
Proof.
  destruct (@failed_call_raises Failing_interpreter (mkSelection "Update" 0)
              [] sample_lua 0%nat "quest.lua:12: attempt to index a nil value"
              {[ "Update" := LFunction 0 ]} eq_refl eq_refl)
    as (Hcall & Hplain & _).
  destruct (@failed_call_raises Percent_interpreter (mkSelection "Update" 0)
              [] sample_lua 0%nat "quest.lua:3: %s"
              {[ "Update" := LFunction 0 ]} eq_refl eq_refl)
    as (_ & _ & Hlost).
  destruct (Hplain eq_refl) as [Hprotected Hhost].
  split; [exact Hcall |]. split; [exact Hprotected |].
  split; [exact Hhost |]. exact (Hlost eq_refl).
Defined.

(* ===================================================================== *)
(** * Further properties of the World *)
(* ===================================================================== *)

(** ** Entities *)

(** X1.  [addEntity] never returns a null pointer, whatever the number of
    entities: the new size always exceeds [unsigned oldSize].  The pointer
    is the new last entity, which has no components, and the entities
    that were there are as before. *)
Theorem addEntity_never_null {C} (w : World C) :
  ∃ w',
    addEntity w = (w', Some (length (entities w))) ∧
    entities w' = entities w ++ [∅] ∧
    entities w' !! length (entities w) = Some ∅ ∧
    scripts w' = scripts w ∧ this w' = this w ∧ name w' = name w.
Proof.
  destruct w as [a n es ss]. rewrite addEntity_grows.
  eexists. split; [reflexivity |]. simpl.
  split; [done |]. split; [apply lookup_last | done].
Qed.

Lemma removeEntity_in_range {C} (e : Z) (w : World C) :
  Z.of_nat (length (entities w)) ≤ 2 ^ 30 →
  - Z.of_nat (length (entities w)) ≤ e < Z.of_nat (length (entities w)) →
  removeEntity e w =
    (true,
     set_entities
       (delete (Z.to_nat (if decide (0 ≤ e) then e
                          else Z.of_nat (length (entities w)) + e))
               (entities w)) w).
Proof.
  intros Hn He. unfold removeEntity, int_add.
  rewrite !to_int_small by (unfold INT_MIN, INT_MAX; lia).
  assert ((e >=? Z.of_nat (length (entities w))) = false) as -> by lia.
  assert ((Z.of_nat (length (entities w)) + e <? 0) = false) as -> by lia.
  simpl. case_decide.
  - by assert ((e >=? 0) = true) as -> by lia.
  - by assert ((e >=? 0) = false) as -> by lia.
Qed.

(** X2.  [removeEntity(-1)] undoes [addEntity]: the world is exactly the
    one before (for fewer than [2^30] entities). *)
Theorem removeEntity_undoes_addEntity {C} (w : World C) :
  Z.of_nat (length (entities w)) < 2 ^ 30 →
  removeEntity (-1) (addEntity w).1 = (true, w).
Proof.
  intros Hn. destruct w as [a n es ss]. rewrite addEntity_grows. simpl in *.
  rewrite removeEntity_in_range;
    [| simpl; rewrite length_app; simpl; lia..].
  unfold set_entities. simpl. rewrite length_app. simpl.
  replace (Z.to_nat (Z.of_nat (length es + 1) + -1)) with (length es) by lia.
  by rewrite delete_middle, app_nil_r.
Qed.

Lemma removeEntity_undoes_addEntity_witness :
  removeEntity (-1) (addEntity sample_world).1 = (true, sample_world).
Proof. apply removeEntity_undoes_addEntity. simpl. lia. Defined.

(** X3.  An index from the front and the index of the same entity from
    the back remove the same entity: for [0 <= e < n],
    [removeEntity(e)] and [removeEntity(e - n)] agree. *)
Theorem removeEntity_front_back {C} (e : Z) (w : World C) :
  Z.of_nat (length (entities w)) ≤ 2 ^ 30 →
  0 ≤ e < Z.of_nat (length (entities w)) →
  removeEntity (e - Z.of_nat (length (entities w))) w = removeEntity e w ∧
  (removeEntity e w).1 = true ∧
  length (entities (removeEntity e w).2) = (length (entities w) - 1)%nat.
Proof.
  intros Hn He.
  rewrite !removeEntity_in_range by lia.
  destruct (decide (0 ≤ e)); [| lia].
  destruct (decide (0 ≤ e - Z.of_nat (length (entities w)))); [lia |].
  replace (Z.of_nat (length (entities w)) + (e - Z.of_nat (length (entities w))))
    with e by lia.
  split; [done |]. split; [done |]. simpl.
  rewrite length_delete; [done |].
  apply lookup_lt_is_Some. lia.
Qed.

Lemma removeEntity_front_back_witness :
  removeEntity (-2) sample_world = removeEntity 0 sample_world ∧
  (removeEntity 0 sample_world).1 = true ∧
  length (entities (removeEntity 0 sample_world).2) = 1%nat.
Proof.
  apply (removeEntity_front_back 0 sample_world); simpl; lia.
Defined.

(** ** Scripts of a World *)

Section MoreScriptFacts.
Context {LuaState Component : Type} `{!LuaScript LuaState Component}.

(** X4.  Adding a script twice: the first [addScript] of a name whose
    instance the asset manager holds returns true, the second returns
    false and changes neither the World nor the instances. *)
Theorem addScript_twice (k : string) (w : World Component)
    (am : AssetManager LuaState) :
  scripts w !! k = None →
  is_Some (scriptCache am !! getScript am k) →
  ∃ w' am',
    addScript k w am = Returns (true, w', am') ∧
    addScript k w' am' = Returns (false, w', am').
Proof.
  intros Hfree [s Hs]. unfold addScript at 1, deref. rewrite Hfree, Hs. simpl.
  eexists _, _. split; [reflexivity |].
  unfold addScript. simpl. by rewrite lookup_insert_eq.
Qed.

(** X5.  [removeScript] undoes what [addScript] did to the World: the
    World is exactly the one before.  The instance is not part of the
    World and keeps the current world [addScript] gave it. *)
Theorem removeScript_undoes_addScript (k : string) (w : World Component)
    (am : AssetManager LuaState) :
  scripts w !! k = None →
  is_Some (scriptCache am !! getScript am k) →
  ∃ w' am',
    addScript k w am = Returns (true, w', am') ∧
    removeScript k w' = (true, w) ∧
    attached (this w) (getScript am k) am'.
Proof.
  intros Hfree [s Hs]. unfold addScript, deref. rewrite Hfree, Hs. simpl.
  eexists _, _. split; [reflexivity |]. split.
  - unfold removeScript, set_scripts. simpl. rewrite lookup_insert_eq. simpl.
    rewrite delete_insert_eq, delete_id by done. by destruct w.
  - eexists. simpl. rewrite lookup_insert_eq. done.
Qed.

(** The script loop reaches only the instances the mapping lists. *)
Lemma for_each_update_script_frame (self : WorldPtr)
    (l : list (string * ScriptPtr))
    (am am' : AssetManager LuaState) (es es' : list (Entity Component))
    (d d' : list string) :
  for_each (update_script self) (am, es, d) l = Returns (am', es', d') →
  getScript am' = getScript am ∧
  ∀ q, q ∉ l.*2 → scriptCache am' !! q = scriptCache am !! q.
Proof.
  revert am es d. induction l as [| [k p] l IH]; intros am es d.
  - simpl. by intros [= <- <- <-].
  - rewrite for_each_cons. unfold update_script at 1. simpl.
    destruct (scriptCache am !! p) as [script |]; [| done].
    destruct (Script_update _ es) as [script2 es2]. simpl.
    intros Hrest. destruct (IH _ _ _ Hrest) as (Hget & Hother).
    split; [done |].
    intros q Hq. rewrite not_elem_of_cons in Hq. destruct Hq as [Hqp Hq].
    rewrite Hother by done. simpl. by rewrite lookup_insert_ne.
Qed.

Lemma foldl_remove_done_fields (w : World Component) (d : list string) :
  this (foldl remove_done w d) = this w ∧
  name (foldl remove_done w d) = name w ∧
  entities (foldl remove_done w d) = entities w.
Proof.
  revert w. induction d as [| k d IH]; intros w; [done |].
  change (foldl remove_done w (k :: d))
    with (foldl remove_done (remove_done w k) d).
  destruct (IH (remove_done w k)) as (-> & -> & ->).
  unfold remove_done, removeScript. by destruct (scripts w !! k).
Qed.

(** X6.  A tick of a World whose scripts are all in the cache returns;
    afterwards the mapping is the old one without the names pushed to
    [doneScripts], every instance the old mapping listed has this World
    as its current world (the loop re-attaches those that pointed
    elsewhere), and instances the mapping did not list are untouched. *)
Theorem tick_reattaches_listed_scripts {float State}
    (sys : Systems Component float State) (dt : float) (w : World Component)
    (am : AssetManager LuaState) (st : State) :
  (∀ k p, scripts w !! k = Some p → is_Some (scriptCache am !! p)) →
  ∃ w' am' d st',
    update sys dt w am st = Returns (w', am', d, st') ∧
    this w' = this w ∧ name w' = name w ∧
    (∀ k, scripts w' !! k = if decide (k ∈ d) then None else scripts w !! k) ∧
    (∀ k p, scripts w !! k = Some p → attached (this w) p am') ∧
    (∀ q, (∀ k, scripts w !! k ≠ Some q) →
          scriptCache am' !! q = scriptCache am !! q).
Proof.
  intros Hvalid. unfold update.
  destruct (update_entities sys dt (entities w) st) as [es st'].
  destruct (for_each_update_script_returns (this w) (map_to_list (scripts w))
              am es [])
    as (am' & es' & d & Hloop & _).
  { intros k p Hin. apply (Hvalid k). by apply elem_of_map_to_list. }
  rewrite Hloop. simpl. eexists _, am', d, st'. split; [reflexivity |].
  destruct (foldl_remove_done_fields (set_entities es' w) d) as (-> & -> & _).
  split; [done |]. split; [done |]. split; [| split].
  - intros k. by rewrite remove_done_scripts.
  - intros k p Hk. apply for_each_update_script in Hloop as [Hl _].
    apply (Hl k). by apply elem_of_map_to_list.
  - intros q Hq. apply for_each_update_script_frame in Hloop as [_ Hother].
    apply Hother. intros ([k p] & -> & Hin)%list_elem_of_fmap.
    apply elem_of_map_to_list in Hin. by apply (Hq k).
Qed.

(** X7.  The destructor of a World whose scripts are all in the cache
    returns; the files are those [save] leaves, every instance the
    mapping lists has no current world afterwards, and instances the
    mapping does not list are untouched. *)
Theorem destructor_detaches_listed_scripts `{!ComponentOps Component}
    `{!Tinyxml2} (w : World Component) (am : AssetManager LuaState) (fs : FileSystem) :
  (∀ k p, scripts w !! k = Some p → is_Some (scriptCache am !! p)) →
  ∃ am',
    World_destroy w am fs = Returns (am', (save w fs).2) ∧
    (∀ k p, scripts w !! k = Some p → detached p am') ∧
    (∀ q, (∀ k, scripts w !! k ≠ Some q) →
          scriptCache am' !! q = scriptCache am !! q).
Proof.
  intros Hvalid. unfold World_destroy.
  destruct (save w fs) as [[b w0] fs0]. simpl.
  destruct (for_each_detach_script_returns (map_to_list (scripts w)) am)
    as [am' Hloop].
  { intros k p Hin. apply (Hvalid k). by apply elem_of_map_to_list. }
  rewrite Hloop. simpl. exists am'. split; [done |].
  apply for_each_detach_script in Hloop as (Hl & _ & Hother). split.
  - intros k p Hk. apply (Hl k). by apply elem_of_map_to_list.
  - intros q Hq. apply Hother. intros ([k p] & -> & Hin)%list_elem_of_fmap.
    apply elem_of_map_to_list in Hin. by apply (Hq k).
Qed.

End MoreScriptFacts.

Lemma sample_scripts_cached :
  ∀ k p, scripts sample_world !! k = Some p →
         is_Some (scriptCache sample_assets !! p).
Proof.
  intros k p Hk. unfold sample_world in Hk. simpl in Hk.
  apply lookup_singleton_Some in Hk as [_ <-]. by eexists.
Qed.

Lemma addScript_twice_witness :
  ∃ (w' : World SampleComponent) (am' : AssetManager nat),
    addScript "intro.lua" sample_world sample_assets = Returns (true, w', am') ∧
    addScript "intro.lua" w' am' = Returns (false, w', am').
Proof.
  apply (addScript_twice "intro.lua" sample_world sample_assets).
  - reflexivity.
  - by eexists.
Defined.

Lemma removeScript_undoes_addScript_witness :
  ∃ (w' : World SampleComponent) (am' : AssetManager nat),
    addScript "intro.lua" sample_world sample_assets = Returns (true, w', am') ∧
    removeScript "intro.lua" w' = (true, sample_world) ∧
    attached 1%positive 8%positive am'.
Proof.
  apply (removeScript_undoes_addScript "intro.lua" sample_world sample_assets).
  - reflexivity.
  - by eexists.
Defined.

Lemma tick_reattaches_listed_scripts_witness :
  ∃ (w' : World SampleComponent) (am' : AssetManager nat) (d : list string)
    (st' : unit),
    update idle_systems 16%nat sample_world sample_assets () =
      Returns (w', am', d, st') ∧
    this w' = 1%positive ∧ name w' = "maze" ∧
    (∀ k, scripts w' !! k =
          if decide (k ∈ d) then None else scripts sample_world !! k) ∧
    (∀ k p, scripts sample_world !! k = Some p → attached 1%positive p am') ∧
    (∀ q, (∀ k, scripts sample_world !! k ≠ Some q) →
          scriptCache am' !! q = scriptCache sample_assets !! q).
Proof.
  apply (tick_reattaches_listed_scripts idle_systems 16%nat sample_world
           sample_assets ()).
  apply sample_scripts_cached.
Defined.

Lemma destructor_detaches_listed_scripts_witness :
  ∃ am' : AssetManager nat,
    World_destroy sample_world sample_assets writable_fs =
      Returns (am', (save sample_world writable_fs).2) ∧
    (∀ k p, scripts sample_world !! k = Some p → detached p am') ∧
    (∀ q, (∀ k, scripts sample_world !! k ≠ Some q) →
          scriptCache am' !! q = scriptCache sample_assets !! q).
Proof.
  apply (destructor_detaches_listed_scripts sample_world sample_assets
           writable_fs).
  apply sample_scripts_cached.
Defined.
(** ** Reading a document back twice *)

Lemma XMLNode_nested_ind (P : XMLNode → Prop) :
  (∀ name cs, Forall P cs → P (XMLElement name cs)) →
  (∀ t, P (XMLText t)) →
  (∀ t, P (XMLMisc t)) →
  ∀ n, P n.
Proof.
  intros Helement Htext Hmisc. fix IH 1.
  intros [name cs | t | t]; [| apply Htext | apply Hmisc].
  apply Helement. induction cs as [| c cs IHcs]; constructor.
  - apply IH.
  - apply IHcs.
Qed.

Lemma newline_normalization_cons (c : Ascii.ascii) (s : string) :
  newline_normalization (String c s) =
    if Ascii.eqb c CR then
      match s with
      | String c' rest' =>
          if Ascii.eqb c' LF then String LF (newline_normalization rest')
          else String LF (newline_normalization s)
      | EmptyString => String LF EmptyString
      end
    else if Ascii.eqb c LF then
      match s with
      | String c' rest' =>
          if Ascii.eqb c' CR then String LF (newline_normalization rest')
          else String LF (newline_normalization s)
      | EmptyString => String LF EmptyString
      end
    else String c (newline_normalization s).
Proof. reflexivity. Qed.

(** New-line normalization leaves no carriage return, keeps white space
    white space, and changes nothing in text without carriage return. *)
Lemma newline_normalization_facts (s : string) :
  (all_chars (λ c, negb (Ascii.eqb c CR)) (newline_normalization s) = true ∧
   blank (newline_normalization s) = blank s) ∧
  ∀ c,
    all_chars (λ c, negb (Ascii.eqb c CR))
      (newline_normalization (String c s)) = true ∧
    blank (newline_normalization (String c s)) = blank (String c s).
Proof.
  induction s as [| a s [[IHcr IHblank] IHs]].
  - split; [done |]. intros c. rewrite newline_normalization_cons.
    destruct (Ascii.eqb_spec c CR) as [-> | Hcr]; [done |].
    destruct (Ascii.eqb_spec c LF) as [-> | Hlf]; [done |].
    cbn [all_chars blank newline_normalization].
    rewrite !andb_true_r. split; [| done].
    by destruct (Ascii.eqb_spec c CR).
  - split; [apply IHs |]. intros c.
    destruct (IHs a) as [IHacr IHablank].
    rewrite newline_normalization_cons.
    destruct (Ascii.eqb_spec c CR) as [-> | Hcr].
    + destruct (Ascii.eqb_spec a LF) as [-> | Hlf].
      * cbn [all_chars blank]. by rewrite IHcr, IHblank.
      * cbn [all_chars blank]. cbn [blank] in IHablank.
        by rewrite IHacr, IHablank.
    + destruct (Ascii.eqb_spec c LF) as [-> | Hlf].
      * destruct (Ascii.eqb_spec a CR) as [-> | Hacr].
        -- cbn [all_chars blank]. by rewrite IHcr, IHblank.
        -- cbn [all_chars blank]. cbn [blank] in IHablank.
           by rewrite IHacr, IHablank.
      * cbn [all_chars blank]. cbn [blank] in IHablank.
        rewrite IHacr, IHablank. split; [| done].
        by destruct (Ascii.eqb_spec c CR).
Qed.

Lemma newline_normalization_stable (s : string) :
  all_chars (λ c, negb (Ascii.eqb c CR)) s = true →
  newline_normalization s = s.
Proof.
  induction s as [| c s IH]; [done |].
  cbn [all_chars]. intros [Hc Hs]%andb_true_iff.
  rewrite newline_normalization_cons.
  destruct (Ascii.eqb c CR); [done |].
  destruct (Ascii.eqb_spec c LF) as [-> | _]; [| by rewrite IH].
  destruct s as [| a s]; [done |].
  rewrite IH by done.
  cbn [all_chars] in Hs. apply andb_true_iff in Hs as [Ha _].
  by destruct (Ascii.eqb a CR).
Qed.

(** A run of text that was read is read as it is. *)
Lemma read_text_read (run : string) :
  read_children "" (read_text run) = read_text run.
Proof.
  unfold read_text. destruct (blank run) eqn:Hblank; [done |].
  change (read_text (newline_normalization run) =
          [XMLText (newline_normalization run)]).
  unfold read_text.
  destruct (newline_normalization_facts run) as [[Hcr Hb] _].
  by rewrite Hb, Hblank, newline_normalization_stable.
Qed.

Lemma read_children_after_text (run : string) (c : XMLNode)
    (cs : list XMLNode) :
  (∀ t, c ≠ XMLText t) →
  read_children "" (read_text run ++ c :: cs) =
    read_text run ++ c :: read_children "" cs.
Proof.
  intros Hc. pose proof (read_text_read run) as Hread.
  unfold read_text in *. destruct (blank run).
  - destruct c as [n kids | t | t]; [done | by destruct (Hc t) | done].
  - change (read_text (newline_normalization run) =
            [XMLText (newline_normalization run)]) in Hread.
    destruct c as [n kids | t | t]; [| by destruct (Hc t) |].
    + change (read_text (newline_normalization run)
                ++ XMLElement n kids :: read_children "" cs =
              [XMLText (newline_normalization run)]
                ++ XMLElement n kids :: read_children "" cs).
      by rewrite Hread.
    + change (read_text (newline_normalization run)
                ++ XMLMisc t :: read_children "" cs =
              [XMLText (newline_normalization run)]
                ++ XMLMisc t :: read_children "" cs).
      by rewrite Hread.
Qed.

Lemma reparse_read_text (run : string) :
  reparse <$> read_text run = read_text run.
Proof. unfold read_text. by destruct (blank run). Qed.

Lemma reparse_not_text (c : XMLNode) :
  (∀ t, c ≠ XMLText t) → ∀ t, reparse c ≠ XMLText t.
Proof. by destruct c. Qed.

(** Reading back what was read back changes nothing. *)
Lemma read_children_read (run : string) (cs : list XMLNode) :
  Forall (λ c, reparse (reparse c) = reparse c) cs →
  read_children "" (reparse <$> read_children run (reparse <$> cs)) =
    read_children run (reparse <$> cs).
Proof.
  intros Hcs. revert run.
  induction Hcs as [| c cs Hc _ IH]; intros run.
  - change (read_children "" (reparse <$> read_text run) = read_text run).
    rewrite reparse_read_text. apply read_text_read.
  - destruct c as [n kids | t | t].
    + change (read_children ""
                (reparse <$> (read_text run ++ reparse (XMLElement n kids)
                                :: read_children "" (reparse <$> cs))) =
              read_text run ++ reparse (XMLElement n kids)
                :: read_children "" (reparse <$> cs)).
      rewrite fmap_app, fmap_cons, reparse_read_text, Hc.
      rewrite read_children_after_text by done.
      by rewrite IH.
    + change (read_children ""
                (reparse <$> read_children (run +:+ t) (reparse <$> cs)) =
              read_children (run +:+ t) (reparse <$> cs)).
      apply IH.
    + change (read_children ""
                (reparse <$> (read_text run ++ XMLMisc t
                                :: read_children "" (reparse <$> cs))) =
              read_text run ++ XMLMisc t
                :: read_children "" (reparse <$> cs)).
      rewrite fmap_app, fmap_cons, reparse_read_text.
      change (reparse (XMLMisc t)) with (XMLMisc t).
      rewrite read_children_after_text by done.
      by rewrite IH.
Qed.

Lemma reparse_reparse (n : XMLNode) : reparse (reparse n) = reparse n.
Proof.
  induction n as [name cs IH | t | t] using XMLNode_nested_ind;
    [| done | done].
  change (XMLElement name
            (read_children ""
               (reparse <$> read_children "" (reparse <$> cs))) =
          XMLElement name (read_children "" (reparse <$> cs))).
  by rewrite read_children_read.
Qed.

Lemma read_document_read (doc : XMLDocument) :
  read_document (read_document doc) = read_document doc.
Proof.
  apply read_children_read, Forall_true, reparse_reparse.
Qed.

(** Reading back keeps the tag names. *)
Lemma read_children_well_named (run : string) (cs : list XMLNode) :
  forallb well_named (read_children run cs) = forallb well_named cs.
Proof.
  assert (Htext : ∀ run, forallb well_named (read_text run) = true).
  { intros r. unfold read_text. by destruct (blank r). }
  revert run. induction cs as [| c cs IH]; intros run; [apply Htext |].
  destruct c as [n kids | t | t].
  - change (forallb well_named
              (read_text run ++ XMLElement n kids :: read_children "" cs) =
            forallb well_named (XMLElement n kids :: cs)).
    rewrite forallb_app, Htext. cbn [forallb andb]. by rewrite IH.
  - apply IH.
  - change (forallb well_named
              (read_text run ++ XMLMisc t :: read_children "" cs) =
            forallb well_named (XMLMisc t :: cs)).
    rewrite forallb_app, Htext. cbn [forallb andb]. by rewrite IH.
Qed.

Lemma reparse_well_named (n : XMLNode) :
  well_named (reparse n) = well_named n.
Proof.
  induction n as [name cs IH | t | t] using XMLNode_nested_ind;
    [| done | done].
  change (xml_name name
          && forallb well_named (read_children "" (reparse <$> cs)) =
          xml_name name && forallb well_named cs).
  rewrite read_children_well_named. f_equal.
  induction IH as [| c cs Hc _ IHcs]; [done |].
  rewrite fmap_cons. cbn [forallb]. by rewrite Hc, IHcs.
Qed.

Lemma read_document_well_named (doc : XMLDocument) :
  forallb well_named (read_document doc) = forallb well_named doc.
Proof.
  unfold read_document. rewrite read_children_well_named.
  induction doc as [| c cs IH]; [done |].
  rewrite fmap_cons. cbn [forallb]. by rewrite reparse_well_named, IH.
Qed.

(** An element splits what is read in what is read before it and what
    is read after it. *)
Lemma read_children_app (run : string) (before after : list XMLNode)
    (c : XMLNode) :
  (∀ t, c ≠ XMLText t) →
  read_children run (before ++ c :: after) =
    read_children run before ++ c :: read_children "" after.
Proof.
  intros Hc. revert run.
  induction before as [| b before IH]; intros run.
  - destruct c as [n kids | t | t]; [done | by destruct (Hc t) | done].
  - destruct b as [n kids | t | t].
    + change (read_text run ++ XMLElement n kids
                :: read_children "" (before ++ c :: after) =
              (read_text run ++ XMLElement n kids
                 :: read_children "" before) ++ c :: read_children "" after).
      by rewrite IH, <- app_assoc.
    + apply IH.
    + change (read_text run ++ XMLMisc t
                :: read_children "" (before ++ c :: after) =
              (read_text run ++ XMLMisc t
                 :: read_children "" before) ++ c :: read_children "" after).
      by rewrite IH, <- app_assoc.
Qed.

(** ** Saving and loading *)

Section MorePersistence.
Context `{ComponentOps Component} `{Tinyxml2}.
Context {Tex : Type} (textures : gmap string Tex).

(** The document [save] writes has the record of the world as its first
    "world" element, and saving into it again changes nothing. *)
Lemma save_document_first_world (w : World Component) (doc : XMLDocument) :
  FirstChildElement (Some "world") (save_document w doc) =
    Some (world_record w) ∧
  save_document w (save_document w doc) = save_document w doc.
Proof.
  destruct (FirstChildElement (Some "world") doc) as [root |] eqn:Hroot.
  - destruct (FirstChildElement_Some _ _ _ Hroot)
      as (before & old & after & -> & -> & Hb).
    rewrite save_document_root by done. split.
    + by apply FirstChildElement_at.
    + by apply save_document_root.
  - rewrite save_document_no_root by done. split.
    + apply (FirstChildElement_at "world" [] doc). constructor.
    + apply (save_document_root w [] doc). constructor.
Qed.

Lemma save_document_split (w : World Component) (doc : XMLDocument) :
  ∃ before after,
    save_document w doc = before ++ world_record w :: after ∧
    Forall (λ c, element_matches (Some "world") c = false) before ∧
    (forallb well_named doc = true →
     forallb well_named before = true ∧ forallb well_named after = true).
Proof.
  destruct (FirstChildElement (Some "world") doc) as [root |] eqn:Hroot.
  - destruct (FirstChildElement_Some _ _ _ Hroot)
      as (before & old & after & -> & -> & Hb).
    exists before, after. rewrite save_document_root by done.
    split; [done |]. split; [done |].
    rewrite forallb_app. intros [Hbefore Hafter]%andb_true_iff.
    split; [done |]. cbn [forallb] in Hafter.
    by apply andb_true_iff in Hafter as [_ Hafter].
  - exists [], doc. rewrite save_document_no_root by done.
    split; [done |]. split; [constructor | done].
Qed.

Lemma no_world_read (before : list XMLNode) :
  Forall (λ c, element_matches (Some "world") c = false) before →
  Forall (λ c, element_matches (Some "world") c = false)
    (read_children "" (reparse <$> before)).
Proof.
  intros Hb.
  assert (Hnone : child_elements (Some "world") before = []).
  { induction Hb as [| c cs Hc _ IH]; [done |].
    by rewrite child_elements_cons, Hc. }
  pose proof (child_elements_read_children (Some "world") "" before) as Hread.
  rewrite Hnone in Hread.
  revert Hread. generalize (read_children "" (reparse <$> before)).
  intros l. induction l as [| c l IH]; [constructor |].
  rewrite child_elements_cons.
  destruct (element_matches (Some "world") c) eqn:Hc; [done |].
  intros Hl. constructor; auto.
Qed.

(** What is read from the file after a second [save] is what is read
    from it after the first. *)
Lemma save_document_read (w : World Component) (doc : XMLDocument) :
  read_document (save_document w (read_document (save_document w doc))) =
    read_document (save_document w doc) ∧
  (forallb well_named doc = true → well_named (world_record w) = true →
   forallb well_named (save_document w doc) = true ∧
   forallb well_named
     (save_document w (read_document (save_document w doc))) = true).
Proof.
  destruct (save_document_split w doc)
    as (before & after & -> & Hb & Hnames).
  assert (Hread : read_document (before ++ world_record w :: after) =
            read_children "" (reparse <$> before)
              ++ reparse (world_record w) :: read_document after).
  { unfold read_document. rewrite fmap_app, fmap_cons.
    by rewrite read_children_app. }
  rewrite Hread.
  change (reparse (world_record w))
    with (XMLElement "world"
            (read_children "" (reparse <$> (entity_record <$> entities w)))).
  rewrite save_document_root by by apply no_world_read.
  split.
  - unfold read_document at 1. rewrite fmap_app, fmap_cons.
    rewrite read_children_app by done.
    rewrite read_children_read by apply Forall_true, reparse_reparse.
    fold (read_document (read_document after)).
    by rewrite read_document_read.
  - intros Hdoc Hw. destruct (Hnames Hdoc) as [Hbefore Hafter].
    rewrite !forallb_app. cbn [forallb].
    rewrite read_children_well_named.
    fold (read_document after). rewrite read_document_well_named.
    assert (Hbefore' : forallb well_named (reparse <$> before) = true).
    { clear -Hbefore. induction before as [| c cs IH]; [done |].
      cbn [forallb] in Hbefore. apply andb_true_iff in Hbefore as [Hc Hcs].
      rewrite fmap_cons. cbn [forallb].
      by rewrite reparse_well_named, Hc, IH. }
    by rewrite Hbefore, Hbefore', Hw, Hafter.
Qed.

(** X8.  Saving twice is saving once: when the file loads and can be
    written, and the tag names of the document and of the records of
    the world are XML names, a second [save] of the same world returns
    true and leaves the file system exactly as the first [save] left
    it. *)
Theorem save_twice (w : World Component) (fs : FileSystem) (f : File)
    (doc : XMLDocument) :
  fs !! save_path (name w) = Some f →
  content f = Parses doc →
  writable f = true →
  forallb well_named doc = true →
  well_named (world_record w) = true →
  (save w fs).1.1 = true ∧
  save w (save w fs).2 = (true, w, (save w fs).2).
Proof.
  intros Hf Hdoc Hw Hnames Hrecord.
  rewrite (save_loaded w fs f doc) by done. simpl.
  split; [done |].
  destruct (save_document_first_world w doc) as [Hroot _].
  destruct (save_document_read w doc) as [Hread Hnamed].
  destruct (Hnamed Hnames Hrecord) as [Hnamed1 Hnamed2].
  rewrite (printed_with_root _ _ Hnamed1 Hroot).
  erewrite save_loaded;
    [| by rewrite lookup_insert_eq | reflexivity | reflexivity].
  destruct (save_document_first_world w
              (read_document (save_document w doc))) as [Hroot2 _].
  rewrite (printed_with_root _ _ Hnamed2 Hroot2), Hread.
  by rewrite insert_insert_eq.
Qed.

(** A loop whose body is undefined at an element of the list, whatever
    the state, is undefined. *)
Lemma for_each_undefined {A S} (body : S → A → outcome S) (x : A)
    (xs : list A) (st : S) :
  x ∈ xs → (∀ st', body st' x = Undefined) →
  for_each body st xs = Undefined.
Proof.
  intros Hin Hx. revert st.
  induction xs as [| y ys IH]; intros st; [by apply elem_of_nil in Hin |].
  rewrite for_each_cons.
  apply elem_of_cons in Hin as [<- | Hin].
  - by rewrite Hx.
  - destruct (body st y); simpl; [by apply IH | done].
Qed.

(** X31.  A Drawable without its texture makes [load] undefined: when
    the asset manager holds the texture of no component, and any entity
    of the "world" element has a component element called "Drawable",
    [load] does not return; [assets.getTexture] is
    [textures.find(n)->second], and [find] gave [end()]. *)
Theorem load_missing_texture (w : World Component) (fs : FileSystem)
    (f : File) (doc : XMLDocument)
    (worldRoot entityElement component : XMLNode) :
  (∀ c, textures !! texture c = None) →
  fs !! save_path (name w) = Some f →
  content f = Parses doc →
  FirstChildElement (Some "world") doc = Some worldRoot →
  entityElement ∈ child_elements (Some "entity") (Children worldRoot) →
  component ∈ child_elements None (Children entityElement) →
  Value component = "Drawable" →
  load textures w fs = Undefined.
Proof.
  intros Hnone Hf Hdoc Hroot He Hc Hname.
  unfold load, LoadFile. rewrite Hf, Hdoc. simpl. rewrite Hroot.
  rewrite (for_each_undefined (load_entity textures) entityElement);
    [done | done |].
  intros w'. unfold load_entity.
  destruct (addEntity w') as [w1 [entity |]]; [| done].
  apply (for_each_undefined _ component); [done |].
  intros w2. unfold load_component. rewrite Hname.
  destruct (for_each load_variable _ _) as [variables |]; [| done].
  simpl.
  destruct (_ ≫= Entity_get "Drawable") as [c |]; [| done].
  destruct (_ ≫= Entity_get "Drawable") as [drawable |]; [| done].
  unfold find_second. by rewrite Hnone.
Qed.

(** X10.  A save file that loads but cannot be written: [save] returns
    true although nothing was written (the result of [SaveFile] is not
    looked at). *)
Theorem save_to_readonly_file (w : World Component) (fs : FileSystem)
    (f : File) (doc : XMLDocument) :
  fs !! save_path (name w) = Some f →
  content f = Parses doc →
  writable f = false →
  save w fs = (true, w, fs).
Proof.
  intros Hf Hdoc Hw. unfold save, LoadFile, SaveFile.
  by rewrite Hf, Hdoc, Hw.
Qed.

(** X11.  [load] reports failure and leaves the World as it is when the
    file is missing, when it does not parse, and when the document has
    no "world" element. *)
Theorem load_failures (w : World Component) (fs : FileSystem) :
  (fs !! save_path (name w) = None →
   load textures w fs = Returns (false, w)) ∧
  (∀ f, fs !! save_path (name w) = Some f → content f = Malformed →
        load textures w fs = Returns (false, w)) ∧
  (∀ f doc, fs !! save_path (name w) = Some f → content f = Parses doc →
            FirstChildElement (Some "world") doc = None →
            load textures w fs = Returns (false, w)).
Proof.
  unfold load, LoadFile. split; [| split].
  - by intros ->.
  - by intros f -> ->.
  - by intros f doc -> -> ->.
Qed.

(** X12.  [load] does not clear the World: loading the saved record of
    [w], whose components can all be loaded (the asset manager holds the
    texture of every Drawable), into a World that already has entities
    keeps those in front and appends the loaded ones, so loading twice
    gives every saved entity twice. *)
Theorem load_appends (w w0 : World Component) (fs : FileSystem) (f : File)
    (doc : XMLDocument) :
  fs !! save_path (name w0) = Some f →
  content f = Parses doc →
  FirstChildElement (Some "world") doc = Some (world_record w) →
  Forall (map_Forall (loadable textures)) (entities w) →
  ∃ w1 w2,
    load textures w0 fs = Returns (true, w1) ∧
    entities w1 = entities w0 ++ (reloaded <$> entities w) ∧
    load textures w1 fs = Returns (true, w2) ∧
    entities w2 =
      entities w0 ++ (reloaded <$> entities w) ++ (reloaded <$> entities w).
Proof.
  intros Hf Hdoc Hroot Hst.
  assert (Hload : ∀ a n es ss,
            n = name w0 →
            load textures (mkWorld a n es ss) fs =
              Returns (true, mkWorld a n (es ++ (reloaded <$> entities w)) ss)).
  { intros a n es ss ->. unfold load, LoadFile. simpl.
    rewrite Hf, Hdoc. simpl. rewrite Hroot. simpl.
    rewrite child_elements_all.
    - by rewrite for_each_load_entity.
    - apply Forall_fmap, Forall_true. done. }
  destruct w0 as [a n es ss]. simpl in *.
  eexists _, _. split; [by apply Hload |]. split; [done |].
  split; [by apply Hload |]. simpl. by rewrite <- app_assoc.
Qed.

(** X13.  A field element without text makes [load] undefined: when any
    component of any entity of the "world" element has a child element
    with no leading text (as [<name/>] has), [GetText] is null and
    [std::string(nullptr)] is evaluated. *)
Theorem load_field_without_text (w : World Component) (fs : FileSystem)
    (f : File) (doc : XMLDocument)
    (worldRoot entityElement component variableElement : XMLNode) :
  fs !! save_path (name w) = Some f →
  content f = Parses doc →
  FirstChildElement (Some "world") doc = Some worldRoot →
  entityElement ∈ child_elements (Some "entity") (Children worldRoot) →
  component ∈ child_elements None (Children entityElement) →
  variableElement ∈ child_elements None (Children component) →
  Value variableElement ≠ "" →
  GetText variableElement = None →
  load textures w fs = Undefined.
Proof.
  intros Hf Hdoc Hroot He Hc Hv Hname Htext.
  unfold load, LoadFile. rewrite Hf, Hdoc. simpl. rewrite Hroot.
  rewrite (for_each_undefined (load_entity textures) entityElement);
    [done | done |].
  intros w'. unfold load_entity.
  destruct (addEntity w') as [w1 [entity |]]; [| done].
  apply (for_each_undefined _ component); [done |].
  intros w2. unfold load_component.
  rewrite (for_each_undefined load_variable variableElement); [done | done |].
  intros vars. unfold load_variable.
  by rewrite string_nonempty, Htext.
Qed.

End MorePersistence.

Lemma save_twice_witness :
  (save sample_world writable_fs).1.1 = true ∧
  save sample_world (save sample_world writable_fs).2 =
    (true, sample_world, (save sample_world writable_fs).2).
Proof.
  apply (save_twice sample_world writable_fs
           (mkFile (Parses [XMLMisc "xml version=1.0";
                            XMLElement "world" [XMLElement "entity" []]]) true)
           [XMLMisc "xml version=1.0";
            XMLElement "world" [XMLElement "entity" []]]);
    reflexivity.
Defined.

Lemma load_missing_texture_witness :
  load (∅ : gmap string unit) (World_new 2%positive "maze")
    (save sample_world writable_fs).2 = Undefined.
Proof.
  apply (load_missing_texture ∅ (World_new 2%positive "maze")
           (save sample_world writable_fs).2
           (mkFile (Parses [XMLMisc "xml version=1.0"; world_record sample_world])
                   true)
           [XMLMisc "xml version=1.0"; world_record sample_world]
           (world_record sample_world) (entity_record ship)
           (component_record ("Drawable", SampleDrawable
                                "./data/textures/ship.png"
                                (Some "./data/textures/ship.png")))).
  - intros c. apply lookup_empty.
  - apply sample_save_file.
  - reflexivity.
  - reflexivity.
  - left.
  - vm_compute. right. left.
  - reflexivity.
Defined.

Lemma save_to_readonly_file_witness :
  save sample_world readonly_fs = (true, sample_world, readonly_fs).
Proof.
  apply (save_to_readonly_file sample_world readonly_fs
           (mkFile (Parses [XMLElement "world" []]) false)
           [XMLElement "world" []]); reflexivity.
Defined.

Lemma load_failures_witness :
  load sample_textures sample_world ∅ = Returns (false, sample_world) ∧
  load sample_textures sample_world malformed_fs =
    Returns (false, sample_world) ∧
  load sample_textures sample_world rootless_fs =
    Returns (false, sample_world).
Proof.
  destruct (load_failures sample_textures sample_world ∅)
    as (Hmissing & _ & _).
  destruct (load_failures sample_textures sample_world malformed_fs)
    as (_ & Hmalformed & _).
  destruct (load_failures sample_textures sample_world rootless_fs)
    as (_ & _ & Hrootless).
  split; [| split].
  - apply Hmissing. reflexivity.
  - apply (Hmalformed (mkFile Malformed true)); reflexivity.
  - apply (Hrootless (mkFile (Parses [XMLMisc "xml version=1.0"]) true)
                     [XMLMisc "xml version=1.0"]); reflexivity.
Defined.

Lemma load_appends_witness :
  ∃ w1 w2 : World SampleComponent,
    load sample_textures sample_world (save sample_world writable_fs).2 =
      Returns (true, w1) ∧
    entities w1 = [ship; player] ++ (reloaded <$> [ship; player]) ∧
    load sample_textures w1 (save sample_world writable_fs).2 =
      Returns (true, w2) ∧
    entities w2 =
      [ship; player] ++ (reloaded <$> [ship; player])
        ++ (reloaded <$> [ship; player]).
Proof.
  apply (load_appends sample_textures sample_world sample_world
           (save sample_world writable_fs).2
           (mkFile (Parses [XMLMisc "xml version=1.0"; world_record sample_world])
                   true)
           [XMLMisc "xml version=1.0"; world_record sample_world]).
  - apply sample_save_file.
  - reflexivity.
  - reflexivity.
  - apply sample_world_loadable.
Defined.

Lemma load_field_without_text_witness :
  load sample_textures sample_world
    {[ save_path "maze" :=
         mkFile (Parses [XMLElement "world"
                           [XMLElement "entity"
                              [XMLElement "Name" [XMLElement "name" []]]]])
                true ]} = Undefined.
Proof.
  eapply (load_field_without_text sample_textures sample_world _ _ _
            (XMLElement "world"
               [XMLElement "entity" [XMLElement "Name" [XMLElement "name" []]]])
            (XMLElement "entity" [XMLElement "Name" [XMLElement "name" []]])
            (XMLElement "Name" [XMLElement "name" []])
            (XMLElement "name" [])).
  - reflexivity.
  - reflexivity.
  - reflexivity.
  - left.
  - left.
  - left.
  - discriminate.
  - reflexivity.
Defined.

Section LoadedVariables.
Context `{ComponentOps Component}.

Lemma map_emplace_union {V} (k : string) (v : V) (acc m : gmap string V) :
  map_emplace k v acc ∪ m = acc ∪ <[k := v]> m.
Proof.
  unfold map_emplace. destruct (acc !! k) as [old |] eqn:Hk.
  - apply map_eq. intros i. rewrite !lookup_union.
    destruct (decide (i = k)) as [-> | Hne].
    + rewrite Hk, lookup_insert_eq. by destruct (m !! k).
    + by rewrite lookup_insert_ne.
  - by rewrite <- insert_union_l, insert_union_r.
Qed.

Lemma for_each_load_variable_union (fields : list (string * string))
    (acc : gmap string string) :
  for_each load_variable acc (field_element <$> fields) =
    Returns (acc ∪ list_to_map
                     (filter (λ kv, kv.1 ≠ "" ∧ kv.2 ≠ "") fields)).
Proof.
  revert acc. induction fields as [| [k v] fields IH]; intros acc.
  - change (Returns acc = Returns (acc ∪ (∅ : gmap string string))).
    by rewrite (right_id ∅ (∪)).
  - rewrite fmap_cons, for_each_cons, filter_cons.
    destruct (decide ((k, v).1 ≠ "" ∧ (k, v).2 ≠ "")) as [[Hk Hv] | Hno];
      unfold load_variable at 1; simpl in *.
    + rewrite !string_nonempty by done. simpl. rewrite IH.
      by rewrite map_emplace_union.
    + destruct k as [| c k]; simpl; [apply IH |].
      destruct v as [| c' v]; simpl; [apply IH |].
      exfalso. by apply Hno.
Qed.

(** X14.  The variables [load] hands to [unserialize] for a component
    whose field elements are [fields], in document order: fields with
    an empty name or an empty text are dropped, and of several fields
    with one name the first counts. *)
Theorem load_variables_first_wins (fields : list (string * string)) :
  for_each load_variable ∅
      (child_elements None (field_element <$> fields)) =
    Returns (list_to_map (filter (λ kv, kv.1 ≠ "" ∧ kv.2 ≠ "") fields)).
Proof.
  rewrite child_elements_all.
  - rewrite for_each_load_variable_union. by rewrite (left_id ∅ (∪)).
  - apply Forall_fmap, Forall_true. by intros [n v].
Qed.

End LoadedVariables.

(* ===================================================================== *)
(** * Further properties of the Selection operators *)
(* ===================================================================== *)

Section MoreCalls.
Context `{LuaInterpreter}.

(** X15.  A call that succeeds leaves its results on the stack, on top
    of what was there, and the Selection it returns counts the whole
    stack: its index is minus the stack depth, and it is the unnamed
    Selection only when nothing was returned onto an empty stack. *)
Theorem successful_call (sel : Selection) (args : list LuaValue)
    (L : lua_State) (f : nat) (rets : list LuaValue)
    (g : gmap string LuaValue) :
  lua_globals L !! sel_name sel = Some (LFunction f) →
  lua_run f args (lua_globals L) = (inr rets, g) →
  Selection_call sel args L =
    Selected
      (if decide (rets = [] ∧ lua_stack L = []) then mkSelection "" 0
       else mkSelection (sel_name sel +:+ " return")
              (- Z.of_nat (length rets + length (lua_stack L))))
      (mkLua (reverse rets ++ lua_stack L) g).
Proof.
  intros Hglobal Hrun. unfold Selection_call, lua_getglobal.
  rewrite Hglobal. simpl. rewrite lua_pcall_of_call, Hrun.
  unfold lua_gettop. simpl. rewrite length_app, length_reverse.
  case_decide as Hempty.
  - destruct Hempty as [-> ->]. done.
  - destruct (Z.eqb_spec (Z.of_nat (length rets + length (lua_stack L))) 0)
      as [Hzero | _]; [| done].
    exfalso. apply Hempty.
    destruct rets, (lua_stack L); simpl in Hzero; try lia. done.
Qed.

(** X16.  Calling a name that is bound to a value that is not a function
    (or to nothing) returns no Selection: it raises "attempt to call a
    ... value" with the type of the value, whatever the arguments. *)
Theorem call_of_non_function (sel : Selection) (args : list LuaValue)
    (L : lua_State) :
  (∀ f, lua_globals L !! sel_name sel ≠ Some (LFunction f)) →
  let v := default LNil (lua_globals L !! sel_name sel) in
  let msg := "attempt to call a " +:+ lua_typename v +:+ " value" in
  Selection_call sel args L =
    Raised msg (mkLua (LString msg :: lua_stack L) (lua_globals L)) ∧
  deliver host_layer (Selection_call sel args L) =
    ErrorDelivered msg (mkLua (LString msg :: lua_stack L) (lua_globals L)).
Proof.
  intros Hv v msg.
  assert (Hcall : Selection_call sel args L =
            Raised msg (mkLua (LString msg :: lua_stack L) (lua_globals L))).
  { unfold Selection_call, lua_getglobal. fold v.
    rewrite distributeArgs_stack. unfold lua_pcall. simpl.
    rewrite <- (length_reverse args).
    rewrite take_app_length, drop_app_length.
    subst msg. destruct v eqn:Hvv; try done.
    exfalso. subst v.
    destruct (lua_globals L !! sel_name sel) as [v' |] eqn:Hg; simpl in Hvv;
      [| done].
    subst v'. by apply (Hv f). }
  rewrite Hcall. split; [done |].
  unfold deliver, host_layer. subst msg. by destruct v.
Qed.

End MoreCalls.

Lemma successful_call_witness :
  let run : LuaInterpreter := λ f args g, (inr [LNumber 400; LNumber 20], g) in
  @Selection_call run (mkSelection "getPosition" 0) [LNumber 1]
      (mkLua [LBoolean true] {[ "getPosition" := LFunction 3 ]}) =
    Selected (mkSelection "getPosition return" (-3))
      (mkLua [LNumber 20; LNumber 400; LBoolean true]
             {[ "getPosition" := LFunction 3 ]}).
Proof.
  intros run.
  apply (@successful_call run (mkSelection "getPosition" 0) [LNumber 1]
           (mkLua [LBoolean true] {[ "getPosition" := LFunction 3 ]}) 3%nat
           [LNumber 400; LNumber 20]); reflexivity.
Defined.

Lemma call_of_non_function_witness :
  @Selection_call Failing_interpreter (mkSelection "Done" 0) []
      (Selection_assign_value (mkSelection "Done" 0) (LBoolean false)
         sample_lua) =
    Raised "attempt to call a boolean value"
      (mkLua [LString "attempt to call a boolean value"]
             (<["Done" := LBoolean false]> (lua_globals sample_lua))) ∧
  deliver host_layer
    (@Selection_call Failing_interpreter (mkSelection "Done" 0) []
       (Selection_assign_value (mkSelection "Done" 0) (LBoolean false)
          sample_lua)) =
    ErrorDelivered "attempt to call a boolean value"
      (mkLua [LString "attempt to call a boolean value"]
             (<["Done" := LBoolean false]> (lua_globals sample_lua))).
Proof.
  apply (@call_of_non_function Failing_interpreter (mkSelection "Done" 0) []
           (Selection_assign_value (mkSelection "Done" 0) (LBoolean false)
              sample_lua)).
  intros f. vm_compute. discriminate.
Defined.

(** X17.  Assigning a function never changes what the registry holds:
    every entry stays as it is, whatever the name assigned.  A name that
    was free gets the new wrapper and nothing is released; a name that
    was taken keeps its entry and the new wrapper is released. *)
Theorem registration_keeps_entries {Callable} (sel : Selection)
    (f : Callable) (reg : Registry Callable) :
  (∀ k c, functions reg !! k = Some c →
          functions (Selection_assign_function sel f reg) !! k = Some c) ∧
  (functions reg !! sel_name sel = None →
     functions (Selection_assign_function sel f reg) !! sel_name sel =
       Some (mkCppFunction (sel_name sel) f) ∧
     released (Selection_assign_function sel f reg) = released reg) ∧
  (is_Some (functions reg !! sel_name sel) →
     released (Selection_assign_function sel f reg) =
       released reg ++ [mkCppFunction (sel_name sel) f]) ∧
  (∀ k, k ≠ sel_name sel →
        functions (Selection_assign_function sel f reg) !! k =
          functions reg !! k).
Proof.
  unfold Selection_assign_function.
  destruct (functions reg !! sel_name sel) as [old |] eqn:Hold; simpl.
  - split; [| split; [| split]].
    + by intros k c Hk.
    + by intros [=].
    + by intros _.
    + by intros k _.
  - split; [| split; [| split]].
    + intros k c Hk. rewrite lookup_insert_ne; [done |]. congruence.
    + intros _. by rewrite lookup_insert_eq.
    + by intros [? [=]].
    + intros k Hk. by rewrite lookup_insert_ne.
Qed.

Lemma registration_keeps_entries_witness :
  let reg := Selection_assign_function (mkSelection "spawn" 0) 1%nat
               (mkRegistry ∅ []) in
  functions (Selection_assign_function (mkSelection "print" 0) 2%nat reg)
    !! "spawn" = Some (mkCppFunction "spawn" 1%nat) ∧
  functions (Selection_assign_function (mkSelection "spawn" 0) 3%nat reg)
    !! "spawn" = Some (mkCppFunction "spawn" 1%nat).
Proof.
  intros reg. split.
  - apply (proj1 (registration_keeps_entries (mkSelection "print" 0) 2%nat
                    reg)).
    reflexivity.
  - apply (proj1 (registration_keeps_entries (mkSelection "spawn" 0) 3%nat
                    reg)).
    reflexivity.
Defined.

(* ===================================================================== *)
(** * The mouse manager *)
(* ===================================================================== *)

(** ** std::map in key order *)

Lemma key_lt_trans (a b c : string) : key_lt a b → key_lt b c → key_lt a c.
Proof.
  unfold key_lt. intros Hab Hbc.
  apply OrderedTypeEx.String_as_OT.cmp_lt.
  apply OrderedTypeEx.String_as_OT.cmp_lt in Hab, Hbc.
  eapply OrderedTypeEx.String_as_OT.lt_trans; eauto.
Qed.

Lemma key_lt_irrefl (a : string) : ¬ key_lt a a.
Proof.
  unfold key_lt. intros Ha.
  assert (String.compare a a = Eq) as Heq
    by by apply OrderedTypeEx.String_as_OT.cmp_eq.
  congruence.
Qed.

Lemma key_compare_Gt (a b : string) : String.compare a b = Gt → key_lt b a.
Proof.
  unfold key_lt. intros Hab.
  rewrite String.compare_antisym, Hab. reflexivity.
Qed.

Lemma key_compare_Eq (a b : string) : String.compare a b = Eq → a = b.
Proof. apply OrderedTypeEx.String_as_OT.cmp_eq. Qed.

Section OrderedMap.
Context {V : Type}.
Implicit Types m : ordered_map V.

Lemma keys_sorted_head (k : string) (v : V) m :
  keys_sorted ((k, v) :: m) →
  keys_sorted m ∧ ∀ k' v', (k', v') ∈ m → key_lt k k'.
Proof.
  intros Hs. apply StronglySorted_inv in Hs as [Hm Hall]. split; [done |].
  intros k' v' Hin. rewrite Forall_forall in Hall. by apply (Hall (k', v')).
Qed.

Lemma ordered_find_elem_of (k : string) (v : V) m :
  ordered_find k m = Some v → (k, v) ∈ m.
Proof.
  induction m as [| [k' v'] m IH]; simpl; [done |].
  case_bool_decide as Hk.
  - intros [= <-]. subst. left.
  - intros Hf. right. by apply IH.
Qed.

Lemma ordered_find_sorted (k : string) (v : V) m :
  keys_sorted m → (k, v) ∈ m → ordered_find k m = Some v.
Proof.
  induction m as [| [k' v'] m IH]; intros Hs Hin;
    [by apply elem_of_nil in Hin |].
  apply keys_sorted_head in Hs as [Hm Hlt]. simpl.
  apply elem_of_cons in Hin as [[= -> ->] | Hin].
  - by rewrite bool_decide_eq_true_2.
  - rewrite bool_decide_eq_false_2; [by apply IH |].
    intros ->. by apply (key_lt_irrefl k'), (Hlt k' v).
Qed.

Lemma ordered_emplace_elem_of (k : string) (v : V) m (x : string * V) :
  x ∈ ordered_emplace k v m → x = (k, v) ∨ x ∈ m.
Proof.
  induction m as [| [k' v'] m IH]; simpl.
  - intros Hx%list_elem_of_singleton. by left.
  - destruct (String.compare k k').
    + by right.
    + intros [-> | Hx]%elem_of_cons; [by left | by right].
    + intros [-> | Hx]%elem_of_cons; [right; left |].
      destruct (IH Hx) as [-> | Hin]; [by left | right; by right].
Qed.

Lemma ordered_emplace_sorted (k : string) (v : V) m :
  keys_sorted m → keys_sorted (ordered_emplace k v m).
Proof.
  induction m as [| [k' v'] m IH]; intros Hs; simpl.
  - repeat constructor.
  - destruct (String.compare k k') eqn:Hcmp; [done | |].
    + constructor; [done |].
      pose proof Hs as Hs'. apply keys_sorted_head in Hs' as [_ Hlt].
      apply Forall_forall. intros [k'' v''] [[= -> ->] | Hin]%elem_of_cons.
      * exact Hcmp.
      * simpl. eapply key_lt_trans; [exact Hcmp |]. by apply (Hlt k'' v'').
    + pose proof Hs as Hs'. apply keys_sorted_head in Hs' as [Hm Hlt].
      constructor; [by apply IH |].
      apply Forall_forall. intros [k'' v''] Hin. simpl.
      apply ordered_emplace_elem_of in Hin as [[= -> ->] | Hin].
      * by apply key_compare_Gt.
      * by apply (Hlt k'' v'').
Qed.

Lemma ordered_find_emplace_ne (k k' : string) (v : V) m :
  k' ≠ k → ordered_find k' (ordered_emplace k v m) = ordered_find k' m.
Proof.
  intros Hne. induction m as [| [k0 v0] m IH]; simpl.
  - by rewrite bool_decide_eq_false_2.
  - destruct (String.compare k k0) eqn:Hcmp; simpl.
    + done.
    + by rewrite (bool_decide_eq_false_2 (k' = k)).
    + by rewrite IH.
Qed.

Lemma ordered_find_emplace (k : string) (v : V) m :
  keys_sorted m →
  ordered_find k (ordered_emplace k v m) =
    Some (default v (ordered_find k m)).
Proof.
  induction m as [| [k0 v0] m IH]; intros Hs; simpl.
  - by rewrite bool_decide_eq_true_2.
  - pose proof Hs as Hs'. apply keys_sorted_head in Hs' as [Hm Hlt].
    destruct (String.compare k k0) eqn:Hcmp; simpl.
    + apply key_compare_Eq in Hcmp as ->.
      by rewrite bool_decide_eq_true_2.
    + rewrite bool_decide_eq_true_2 by done.
      rewrite bool_decide_eq_false_2.
      * destruct (ordered_find k m) as [v' |] eqn:Hf; [| done].
        exfalso. apply ordered_find_elem_of in Hf.
        apply (key_lt_irrefl k). eapply key_lt_trans; [exact Hcmp |].
        by apply (Hlt k v').
      * intros ->. by apply (key_lt_irrefl k0).
    + rewrite bool_decide_eq_false_2; [by apply IH |].
      intros ->. apply key_compare_Gt in Hcmp. by apply (key_lt_irrefl k0).
Qed.

Lemma ordered_emplace_taken (k : string) (v : V) m :
  keys_sorted m → is_Some (ordered_find k m) → ordered_emplace k v m = m.
Proof.
  induction m as [| [k0 v0] m IH]; intros Hs [old Hold]; simpl in *;
    [done |].
  apply keys_sorted_head in Hs as [Hm Hlt].
  case_bool_decide as Hk.
  - subst k0.
    assert (String.compare k k = Eq) as ->
      by by apply OrderedTypeEx.String_as_OT.cmp_eq.
    done.
  - apply ordered_find_elem_of in Hold as Hin.
    pose proof (Hlt k old Hin) as Hk0. unfold key_lt in Hk0.
    rewrite String.compare_antisym, Hk0. simpl.
    rewrite IH; [done | done | by eexists].
Qed.

End OrderedMap.

(** ** Bindings *)

Section MouseFacts.
Import MouseManager.
Context {S : Type}.
Implicit Types bindings : ordered_map (ButtonBinding S).

(** X18.  [newBinding] keeps the bindings in key order; the first
    binding made under a name stays (a later one under the same name is
    dropped), a new name gets the binding, and the other names keep
    theirs. *)
Theorem newBinding_first_wins (n : string) (b : Button)
    (f : option (Z * Z → S → S)) (p : bool) bindings :
  keys_sorted bindings →
  keys_sorted (newBinding n b f p bindings) ∧
  ordered_find n (newBinding n b f p bindings) =
    Some (default (mkButtonBinding b f p) (ordered_find n bindings)) ∧
  (is_Some (ordered_find n bindings) →
     newBinding n b f p bindings = bindings) ∧
  (∀ k, k ≠ n →
     ordered_find k (newBinding n b f p bindings) = ordered_find k bindings).
Proof.
  intros Hs. unfold newBinding. split; [| split; [| split]].
  - by apply ordered_emplace_sorted.
  - by apply ordered_find_emplace.
  - by apply ordered_emplace_taken.
  - intros k Hk. by apply ordered_find_emplace_ne.
Qed.

(** X19.  [call] by name runs the callback of the binding whatever its
    button and whether it is for press or release; it throws
    ([std::out_of_range]) exactly when the name is not bound, and does
    nothing for a binding whose function is empty. *)
Theorem call_by_name (k : string) (pos : Z * Z) bindings (s : S) :
  (call k pos bindings s = None ↔ ordered_find k bindings = None) ∧
  (∀ b f p, ordered_find k bindings = Some (mkButtonBinding b (Some f) p) →
            call k pos bindings s = Some (f pos s)) ∧
  (∀ b p, ordered_find k bindings = Some (mkButtonBinding b None p) →
          call k pos bindings s = Some s).
Proof.
  unfold call. split; [| split].
  - destruct (ordered_find k bindings); simpl; [| done].
    split; intros [=].
  - by intros b f p ->.
  - by intros b p ->.
Qed.

(** X20.  One event runs at most one callback.  When the manager
    returns false the state is untouched; when it returns true the state
    is the result of the callback of one binding that matches the
    event. *)
Theorem dispatch_runs_at_most_one bindings (e : Event) (s : S) :
  ((dispatch bindings e s).1 = false → (dispatch bindings e s).2 = s) ∧
  ((dispatch bindings e s).1 = true →
     ∃ k b f, (k, b) ∈ bindings ∧ matches b e = true ∧ func b = Some f ∧
              (dispatch bindings e s).2 = f (mouseButton_pos e) s).
Proof.
  induction bindings as [| [k b] m [IHf IHt]]; simpl.
  - by split.
  - destruct (matches b e) eqn:Hm.
    + unfold binding_call. destruct (func b) as [f |] eqn:Hf; simpl.
      * split; [done |]. intros _. exists k, b, f. repeat split; [left | done..].
      * by split.
    + split; [done |]. intros Ht.
      destruct (IHt Ht) as (k' & b' & f & Hin & Hrest).
      exists k', b', f. split; [by right | done].
Qed.

(** An event that is no mouse button event, or one no binding matches,
    is not handled. *)
Lemma dispatch_unmatched bindings (e : Event) (s : S) :
  (∀ k b, (k, b) ∈ bindings → matches b e = false) →
  dispatch bindings e s = (false, s).
Proof.
  induction bindings as [| [k b] m IH]; intros Hnone; simpl; [done |].
  rewrite (Hnone k b) by left.
  apply IH. intros k' b' Hin. apply (Hnone k'). by right.
Qed.

(** X21.  Of the bindings that match an event, the one whose name comes
    first decides: its callback runs, or, when its function is empty,
    nothing runs and the manager returns false, whatever bindings with
    later names would have done. *)
Theorem dispatch_first_name_decides bindings (e : Event) (s : S)
    (k : string) (b : ButtonBinding S) :
  keys_sorted bindings →
  ordered_find k bindings = Some b →
  matches b e = true →
  (∀ k' b', ordered_find k' bindings = Some b' → matches b' e = true →
            ¬ key_lt k' k) →
  dispatch bindings e s = binding_call b (mouseButton_pos e) s.
Proof.
  induction bindings as [| [k0 b0] m IH]; intros Hs Hk Hm Hfirst;
    [done |].
  pose proof Hs as Hs'. apply keys_sorted_head in Hs' as [Hsm Hlt].
  simpl in *. case_bool_decide as Hk0.
  - injection Hk as ->. by rewrite Hm.
  - destruct (matches b0 e) eqn:Hm0.
    + exfalso. apply (Hfirst k0 b0); [by rewrite bool_decide_eq_true_2 | done |].
      apply (Hlt k b). by apply ordered_find_elem_of.
    + apply IH; [done | done | done |].
      intros k' b' Hk' Hm'. apply (Hfirst k' b'); [| done].
      rewrite bool_decide_eq_false_2; [done |].
      intros ->. apply (key_lt_irrefl k0), (Hlt k0 b').
      by apply ordered_find_elem_of.
Qed.

End MouseFacts.

Lemma sample_bindings_sorted : keys_sorted sample_bindings.
Proof.
  unfold sample_bindings, MouseManager.newBinding.
  repeat apply ordered_emplace_sorted. constructor.
Qed.

Lemma newBinding_first_wins_witness :
  keys_sorted (MouseManager.newBinding "aim" MouseManager.Middle
                 MouseManager.default_func MouseManager.default_onPress
                 sample_bindings) ∧
  MouseManager.newBinding "aim" MouseManager.Middle
    MouseManager.default_func MouseManager.default_onPress sample_bindings =
    sample_bindings ∧
  ordered_find "move"
    (MouseManager.newBinding "aim" MouseManager.Middle
       MouseManager.default_func MouseManager.default_onPress sample_bindings) =
    ordered_find "move" sample_bindings.
Proof.
  destruct (newBinding_first_wins "aim" MouseManager.Middle
              MouseManager.default_func MouseManager.default_onPress
              sample_bindings sample_bindings_sorted)
    as (Hsorted & _ & Htaken & Hothers).
  split; [exact Hsorted |]. split.
  - apply Htaken. by eexists.
  - apply Hothers. discriminate.
Defined.

Lemma call_by_name_witness :
  MouseManager.call "jump" (3, 4) sample_bindings [] = None ∧
  MouseManager.call "shoot" (3, 4) sample_bindings [] = Some ["shoot"] ∧
  MouseManager.call "aim" (3, 4) sample_bindings [] = Some [].
Proof.
  destruct (call_by_name "jump" (3, 4) sample_bindings [])
    as (Hmissing & _ & _).
  destruct (call_by_name "shoot" (3, 4) sample_bindings [])
    as (_ & Hfunc & _).
  destruct (call_by_name "aim" (3, 4) sample_bindings [])
    as (_ & _ & Hempty).
  split; [| split].
  - apply Hmissing. reflexivity.
  - apply (Hfunc MouseManager.Left (λ _ s, "shoot" :: s) true). reflexivity.
  - apply (Hempty MouseManager.Left true). reflexivity.
Defined.

Lemma dispatch_runs_at_most_one_witness :
  (MouseManager.dispatch sample_bindings
     (MouseManager.MouseButtonPressed MouseManager.Left 3 4) []).2 = [] ∧
  ∃ k b f, (k, b) ∈ sample_bindings ∧
    MouseManager.matches b
      (MouseManager.MouseButtonReleased MouseManager.Right 3 4) = true ∧
    MouseManager.func b = Some f ∧
    (MouseManager.dispatch sample_bindings
       (MouseManager.MouseButtonReleased MouseManager.Right 3 4) []).2 =
      f (3, 4) [].
Proof.
  split.
  - apply (dispatch_runs_at_most_one sample_bindings
             (MouseManager.MouseButtonPressed MouseManager.Left 3 4) []).
    reflexivity.
  - apply (dispatch_runs_at_most_one sample_bindings
             (MouseManager.MouseButtonReleased MouseManager.Right 3 4) []).
    reflexivity.
Defined.

(** In the example "aim" and "shoot" both match a press of the left
    button; "aim" comes first and has no function, so "shoot" never
    runs. *)
Lemma dispatch_first_name_decides_witness :
  MouseManager.dispatch sample_bindings
    (MouseManager.MouseButtonPressed MouseManager.Left 3 4) [] = (false, []).
Proof.
  apply (dispatch_first_name_decides sample_bindings
           (MouseManager.MouseButtonPressed MouseManager.Left 3 4) [] "aim"
           (MouseManager.mkButtonBinding MouseManager.Left None true)).
  - apply sample_bindings_sorted.
  - reflexivity.
  - reflexivity.
  - intros k' b' Hk' _ Hlt.
    assert (Hin : (k', b') ∈ sample_bindings)
      by by apply ordered_find_elem_of.
    vm_compute in Hin.
    apply elem_of_cons in Hin as [[= -> _] | Hin]; [by vm_compute in Hlt |].
    apply elem_of_cons in Hin as [[= -> _] | Hin]; [by vm_compute in Hlt |].
    apply elem_of_cons in Hin as [[= -> _] | Hin]; [by vm_compute in Hlt |].
    by apply elem_of_nil in Hin.
Defined.

(* ===================================================================== *)
(** * The logger *)
(* ===================================================================== *)

Lemma string_app_assoc (a b c : string) : (a +:+ b) +:+ c = a +:+ b +:+ c.
Proof.
  induction a as [| x a IH]; [done |].
  change (String x ((a +:+ b) +:+ c) = String x (a +:+ b +:+ c)).
  by rewrite IH.
Qed.

Lemma string_app_nil_r (a : string) : a +:+ "" = a.
Proof.
  induction a as [| x a IH]; [done |].
  change (String x (a +:+ "") = String x a). by rewrite IH.
Qed.

Lemma Logger_put_put (a b : string) (l : Logger.t) :
  Logger.put b (Logger.put a l) = Logger.put (a +:+ b) l.
Proof.
  unfold Logger.put. simpl. f_equal.
  destruct (Logger.fout l) as [written |]; simpl; [| done].
  by rewrite string_app_assoc.
Qed.

Lemma Logger_foldl_write (items : list Logger.item) (l : Logger.t) :
  foldl Logger.write l items = Logger.put (Logger.rendered items) l.
Proof.
  revert l. induction items as [| x items IH]; intros l; simpl.
  - unfold Logger.put. destruct l as [[written |] w e]; simpl; [| done].
    by rewrite string_app_nil_r.
  - rewrite IH. unfold Logger.write. by rewrite Logger_put_put.
Qed.

(** X22.  The log file, once the logger is destroyed, holds the header,
    an empty line, everything that was logged in the order it was
    logged, and the report; the report always reads "0 warnings" and
    "0 errors", since nothing ever changes the two counters.  When the
    file could not be opened, nothing is written and nothing fails. *)
Theorem log_file_content (header : string) (items : list Logger.item) :
  Logger.destroy (foldl Logger.write (Logger.new header true) items) =
    Some (header +:+ Logger.endl +:+ Logger.endl
          +:+ Logger.rendered items
          +:+ Logger.endl +:+ Logger.endl
          +:+ "0 warnings" +:+ Logger.endl
          +:+ "0 errors" +:+ Logger.endl) ∧
  Logger.destroy (foldl Logger.write (Logger.new header false) items) = None.
Proof.
  rewrite !Logger_foldl_write. split; [| done].
  unfold Logger.destroy, Logger.new, Logger.put. simpl.
  f_equal. by rewrite !string_app_assoc.
Qed.

(* ===================================================================== *)
(** * The asset manager *)
(* ===================================================================== *)

Section LoadInto.
Context {V : Type} (V_new : V) (loadFromFile : string → V → option V).

Lemma load_into_other (file n : string) (store : gmap string V) :
  n ≠ file →
  (Assets.load_into V_new loadFromFile file store).2 !! n = store !! n.
Proof.
  intros Hn. unfold Assets.load_into.
  assert (Hemplace : map_emplace file V_new store !! n = store !! n).
  { unfold map_emplace. destruct (store !! file); [done |].
    by rewrite lookup_insert_ne. }
  destruct (loadFromFile file _); simpl.
  - by rewrite lookup_insert_ne.
  - by rewrite lookup_delete_ne.
Qed.

(** The entry after the three steps: the loaded object, made from the
    one that was there or from a new one; no entry when loading fails,
    also when there was one before. *)
Lemma load_into_entry (file : string) (store : gmap string V) :
  let result := loadFromFile file (default V_new (store !! file)) in
  (Assets.load_into V_new loadFromFile file store).1 = bool_decide (is_Some result) ∧
  (Assets.load_into V_new loadFromFile file store).2 !! file = result.
Proof.
  unfold Assets.load_into, map_emplace.
  destruct (store !! file) as [old |] eqn:Hfile; simpl.
  - rewrite Hfile. simpl.
    destruct (loadFromFile file old); simpl.
    + by rewrite lookup_insert_eq.
    + by rewrite lookup_delete_eq.
  - rewrite lookup_insert_eq. simpl.
    destruct (loadFromFile file V_new); simpl.
    + by rewrite lookup_insert_eq.
    + by rewrite lookup_delete_eq.
Qed.

End LoadInto.

Section AssetFacts.
Context `{Media}.
Implicit Types am : Assets.t.

(** [loadResource], branch by branch. *)
Lemma loadResource_cases (file : string) am :
  match Assets.resource_kind file with
  | Assets.KTexture =>
      let r := Assets.load_into Texture_new Texture_loadFromFile file
                 (Assets.textures am) in
      Assets.loadResource file am =
        (r.1,
         Assets.mk
           (if r.1 then alter (Texture_setSmooth (Assets.smooth am)) file r.2
            else r.2)
           (Assets.soundBuffers am) (Assets.music am) (Assets.fonts am)
           (Assets.scripts am) (Assets.smooth am))
  | Assets.KSound =>
      let r := Assets.load_into SoundBuffer_new SoundBuffer_loadFromFile file
                 (Assets.soundBuffers am) in
      Assets.loadResource file am =
        (r.1, Assets.mk (Assets.textures am) r.2 (Assets.music am)
                (Assets.fonts am) (Assets.scripts am) (Assets.smooth am))
  | Assets.KMusic =>
      let r := Assets.load_into Music_new Music_openFromFile file
                 (Assets.music am) in
      Assets.loadResource file am =
        (r.1, Assets.mk (Assets.textures am) (Assets.soundBuffers am) r.2
                (Assets.fonts am) (Assets.scripts am) (Assets.smooth am))
  | Assets.KFont =>
      let r := Assets.load_into Font_new Font_loadFromFile file
                 (Assets.fonts am) in
      Assets.loadResource file am =
        (r.1, Assets.mk (Assets.textures am) (Assets.soundBuffers am)
                (Assets.music am) r.2 (Assets.scripts am) (Assets.smooth am))
  | Assets.KScript =>
      let r := Assets.load_into ScriptObject_new ScriptObject_loadFromFile
                 file (Assets.scripts am) in
      Assets.loadResource file am =
        (r.1, Assets.mk (Assets.textures am) (Assets.soundBuffers am)
                (Assets.music am) (Assets.fonts am) r.2 (Assets.smooth am))
  | Assets.KSkeleton | Assets.KText => Assets.loadResource file am = (true, am)
  | Assets.KUnknown => Assets.loadResource file am = (false, am)
  end.
Proof.
  unfold Assets.resource_kind, Assets.loadResource.
  repeat (destruct (string_contains _ file); [| ]); try done;
    destruct (Assets.load_into _ _ file _) as [[|] store]; done.
Qed.

(** X23.  [loadResource] touches only the entries under the path it is
    given: every other name has the same entry in every store as
    before, and the smoothing flag is as before. *)
Theorem loadResource_touches_one_name (file n : string) am :
  n ≠ file →
  Assets.same_entry n am (Assets.loadResource file am).2 ∧
  Assets.smooth (Assets.loadResource file am).2 = Assets.smooth am.
Proof.
  intros Hn. pose proof (loadResource_cases file am) as Hcases.
  unfold Assets.same_entry.
  destruct (Assets.resource_kind file); simpl in Hcases; rewrite Hcases;
    simpl; rewrite ?load_into_other by done; try done.
  destruct (Assets.load_into _ _ file _).1 eqn:Hok; simpl;
    rewrite ?lookup_alter_ne, ?load_into_other by done; done.
Qed.

(** X24.  After a [loadResource] that returned false no store has an
    entry under the path, also when one was there before the call;
    after one that returned true the store of the path's kind has one
    (nothing is stored for skeletons and text files, and a path of no
    known kind never gives true). *)
Theorem loadResource_outcome (file : string) am :
  Assets.consistent am →
  ((Assets.loadResource file am).1 = false →
     Assets.absent file (Assets.loadResource file am).2) ∧
  ((Assets.loadResource file am).1 = true →
     match Assets.resource_kind file with
     | Assets.KTexture =>
         is_Some (Assets.textures (Assets.loadResource file am).2 !! file)
     | Assets.KSound =>
         is_Some (Assets.soundBuffers (Assets.loadResource file am).2 !! file)
     | Assets.KMusic =>
         is_Some (Assets.music (Assets.loadResource file am).2 !! file)
     | Assets.KFont =>
         is_Some (Assets.fonts (Assets.loadResource file am).2 !! file)
     | Assets.KScript =>
         is_Some (Assets.scripts (Assets.loadResource file am).2 !! file)
     | Assets.KSkeleton | Assets.KText => (Assets.loadResource file am).2 = am
     | Assets.KUnknown => False
     end).
Proof.
  intros (Ht & Hs & Hm & Hf & Hsc & _).
  pose proof (loadResource_cases file am) as Hcases.
  assert (Hnone : ∀ {V} (store : gmap string V) (k : Assets.Kind),
            (∀ n, is_Some (store !! n) → Assets.resource_kind n = k) →
            Assets.resource_kind file ≠ k → store !! file = None).
  { intros V store k Hk Hne. apply eq_None_not_Some. intros Hsome.
    by apply Hne, Hk. }
  unfold Assets.absent.
  destruct (Assets.resource_kind file) eqn:Hkind; simpl in Hcases;
    rewrite Hcases; simpl.
  - pose proof (load_into_entry Texture_new Texture_loadFromFile file
                  (Assets.textures am)) as [Hok Hentry].
    simpl in *. split.
    + intros Hfalse. rewrite Hfalse. rewrite Hfalse in Hok.
      symmetry in Hok. apply bool_decide_eq_false in Hok.
      rewrite Hentry. rewrite <- eq_None_not_Some in Hok.
      repeat split; first [done | eapply Hnone; eauto; congruence].
    + intros Htrue. rewrite Htrue. rewrite Htrue in Hok.
      symmetry in Hok. apply bool_decide_eq_true in Hok.
      rewrite lookup_alter_eq, Hentry. by apply fmap_is_Some.
  - split; [done | done].
  - pose proof (load_into_entry SoundBuffer_new SoundBuffer_loadFromFile file
                  (Assets.soundBuffers am)) as [Hok Hentry].
    simpl in *. rewrite Hok, Hentry. split.
    + intros Hfalse%bool_decide_eq_false. rewrite <- eq_None_not_Some in Hfalse.
      repeat split; first [done | eapply Hnone; eauto; congruence].
    + by intros Htrue%bool_decide_eq_true.
  - pose proof (load_into_entry Music_new Music_openFromFile file
                  (Assets.music am)) as [Hok Hentry].
    simpl in *. rewrite Hok, Hentry. split.
    + intros Hfalse%bool_decide_eq_false. rewrite <- eq_None_not_Some in Hfalse.
      repeat split; first [done | eapply Hnone; eauto; congruence].
    + by intros Htrue%bool_decide_eq_true.
  - pose proof (load_into_entry Font_new Font_loadFromFile file
                  (Assets.fonts am)) as [Hok Hentry].
    simpl in *. rewrite Hok, Hentry. split.
    + intros Hfalse%bool_decide_eq_false. rewrite <- eq_None_not_Some in Hfalse.
      repeat split; first [done | eapply Hnone; eauto; congruence].
    + by intros Htrue%bool_decide_eq_true.
  - pose proof (load_into_entry ScriptObject_new ScriptObject_loadFromFile
                  file (Assets.scripts am)) as [Hok Hentry].
    simpl in *. rewrite Hok, Hentry. split.
    + intros Hfalse%bool_decide_eq_false. rewrite <- eq_None_not_Some in Hfalse.
      repeat split; first [done | eapply Hnone; eauto; congruence].
    + by intros Htrue%bool_decide_eq_true.
  - split; [done | done].
  - split; [| done]. intros _.
    repeat split; eapply Hnone; eauto; congruence.
Qed.

End AssetFacts.

Section FolderFacts.
Context `{Media}.
Implicit Types am : Assets.t.

Lemma load_all_app (l1 l2 : list string) am :
  Assets.load_all (l1 ++ l2) am = Assets.load_all l2 (Assets.load_all l1 am).
Proof. unfold Assets.load_all. by rewrite foldl_app. Qed.

Lemma loadResourceFolder_tree (node : DirEntry) (folder : string) am :
  Assets.loadResourceFolder folder node am =
    (match node with DT_DIR (Some _) => true | _ => false end,
     Assets.load_all (Assets.folder_files folder node) am).
Proof.
  revert node folder am. fix IH 1.
  intros [| [entries |] |] folder am; simpl; try done.
  f_equal. revert am.
  induction entries as [| [d_name entry] rest IHrest]; intros am; [done |].
  rewrite load_all_app, <- IHrest. f_equal.
  pose proof (IH entry (folder +:+ "/" +:+ d_name) am) as Hsub.
  destruct entry as [| sub |]; try done.
  destruct (bool_decide (d_name = ".") || bool_decide (d_name = ".."));
    [done |].
  cbn [negb]. by rewrite Hsub.
Qed.

(** X25.  [loadResourceFolder] returns false, having loaded nothing,
    exactly when the folder itself cannot be opened.  Otherwise it
    returns true whatever happens below: it offers every regular file
    under the folder to [loadResource], with its path, directory by
    directory in the order of [readdir], skips "." and ".." and what is
    neither file nor directory, and passes over child directories that
    cannot be opened and files that fail to load. *)
Theorem loadResourceFolder_loads_tree (node : DirEntry) (folder : string) am :
  (Assets.loadResourceFolder folder node am).1 =
    match node with DT_DIR (Some _) => true | _ => false end ∧
  (Assets.loadResourceFolder folder node am).2 =
    Assets.load_all (Assets.folder_files folder node) am ∧
  ((Assets.loadResourceFolder folder node am).1 = false →
     (Assets.loadResourceFolder folder node am).2 = am).
Proof.
  rewrite loadResourceFolder_tree. simpl. split; [done |]. split; [done |].
  by destruct node as [| [entries |] |].
Qed.

End FolderFacts.

Section AssetInvariant.
Context `{Media}.
Implicit Types am : Assets.t.

Lemma load_into_kind {V} (V_new : V) (loadFromFile : string → V → option V)
    (file : string) (store : gmap string V) (k : Assets.Kind) :
  Assets.resource_kind file = k →
  (∀ n, is_Some (store !! n) → Assets.resource_kind n = k) →
  ∀ n, is_Some ((Assets.load_into V_new loadFromFile file store).2 !! n) →
       Assets.resource_kind n = k.
Proof.
  intros Hfile Hstore n Hn. destruct (decide (n = file)) as [-> | Hne];
    [done |].
  rewrite load_into_other in Hn by done. by apply Hstore.
Qed.

Lemma loadResource_consistent (file : string) am :
  Assets.consistent am → Assets.consistent (Assets.loadResource file am).2.
Proof.
  intros (Ht & Hs & Hm & Hf & Hsc & Hsmooth).
  pose proof (loadResource_cases file am) as Hcases.
  unfold Assets.consistent.
  destruct (Assets.resource_kind file) eqn:Hkind; simpl in Hcases;
    rewrite Hcases; simpl; try done.
  - assert (Hkeys : ∀ n,
              is_Some ((if (Assets.load_into Texture_new Texture_loadFromFile
                              file (Assets.textures am)).1
                        then alter (Texture_setSmooth (Assets.smooth am)) file
                               (Assets.load_into Texture_new
                                  Texture_loadFromFile file
                                  (Assets.textures am)).2
                        else (Assets.load_into Texture_new Texture_loadFromFile
                                file (Assets.textures am)).2) !! n) →
              Assets.resource_kind n = Assets.KTexture).
    { intros n Hn. destruct (decide (n = file)) as [-> | Hne]; [done |].
      apply Ht. destruct (Assets.load_into _ _ file _).1;
        rewrite ?lookup_alter_ne, load_into_other in Hn by done; done. }
    repeat split; try done.
    intros n tex Hn. destruct (decide (n = file)) as [-> | Hne].
    + pose proof (load_into_entry Texture_new Texture_loadFromFile file
                    (Assets.textures am)) as [Hok Hentry]. simpl in *.
      destruct (Assets.load_into _ _ file _).1.
      * rewrite lookup_alter_eq in Hn.
        destruct (_ !! file); simpl in Hn; [| done].
        by injection Hn as <-.
      * symmetry in Hok. apply bool_decide_eq_false in Hok.
        rewrite <- eq_None_not_Some in Hok. congruence.
    + apply (Hsmooth n).
      destruct (Assets.load_into _ _ file _).1;
        rewrite ?lookup_alter_ne, load_into_other in Hn by done; done.
  - repeat split; try done. by apply load_into_kind.
  - repeat split; try done. by apply load_into_kind.
  - repeat split; try done. by apply load_into_kind.
  - repeat split; try done. by apply load_into_kind.
Qed.

Lemma load_all_consistent (files : list string) am :
  Assets.consistent am → Assets.consistent (Assets.load_all files am).
Proof.
  unfold Assets.load_all. revert am.
  induction files as [| f files IH]; intros am Ham; simpl; [done |].
  by apply IH, loadResource_consistent.
Qed.

(** [loadMod] goes through all the files, whatever fails. *)
Lemma loadMod_load_all (files : list string) am (b : bool) :
  foldl Assets.loadMod_step (b, am) files =
    ((foldl Assets.loadMod_step (b, am) files).1,
     Assets.load_all files am).
Proof.
  unfold Assets.load_all. revert am b.
  induction files as [| f files IH]; intros am b; simpl; [done |].
  destruct (Assets.loadResource f am) as [temp am'] eqn:Hload. simpl.
  by rewrite IH.
Qed.

Lemma loadMod_step_flag (files : list string) am (b : bool) :
  (foldl Assets.loadMod_step (b, am) files).1 = true ↔
  b = true ∧
  ∀ i f, files !! i = Some f →
    (Assets.loadResource f (Assets.load_all (take i files) am)).1 = true.
Proof.
  unfold Assets.load_all. revert am b.
  induction files as [| f files IH]; intros am b; simpl.
  - split; [| by intros []]. intros ->. split; [done |].
    intros i f' Hi. by rewrite lookup_nil in Hi.
  - destruct (Assets.loadResource f am) as [temp am'] eqn:Hload. simpl.
    rewrite IH. split.
    + intros [Hb Hall]. destruct temp; [| done]. split; [done |].
      intros [| i] f' Hi; simpl in *.
      * injection Hi as <-. by rewrite Hload.
      * rewrite Hload. simpl. by apply Hall.
    + intros [-> Hall]. pose proof (Hall 0%nat f eq_refl) as Hfirst.
      simpl in Hfirst. rewrite Hload in Hfirst. simpl in Hfirst. subst temp.
      split; [done |]. intros i f' Hi.
      specialize (Hall (S i) f' Hi). simpl in Hall.
      by rewrite Hload in Hall.
Qed.

(** X26.  [loadMod] tries every file of the mod, also after one has
    failed: the manager it leaves is the one the calls of
    [loadResource], one after the other, leave; and it returns true
    exactly when every one of those calls returned true. *)
Theorem loadMod_tries_every_file (files : list string) am :
  (Assets.loadMod files am).2 = Assets.load_all files am ∧
  ((Assets.loadMod files am).1 = true ↔
   ∀ i f, files !! i = Some f →
     (Assets.loadResource f (Assets.load_all (take i files) am)).1 = true).
Proof.
  unfold Assets.loadMod. split.
  - by rewrite loadMod_load_all.
  - rewrite loadMod_step_flag. split; [by intros [_ Hall] | by split].
Qed.

Lemma empty_manager_consistent (s : bool) :
  Assets.consistent (Assets.mk ∅ ∅ ∅ ∅ ∅ s).
Proof.
  unfold Assets.consistent. simpl.
  repeat split; intros n; rewrite ?lookup_empty;
    try (by intros [? [=]]); by intros ? [=].
Qed.

Lemma setSmooth_consistent (s : bool) am :
  Assets.consistent am → Assets.consistent (Assets.setSmooth s am).
Proof.
  intros (Ht & Hs & Hm & Hf & Hsc & Hsmooth).
  unfold Assets.consistent, Assets.setSmooth. simpl.
  repeat split; try done.
  - intros n Hn. apply Ht. rewrite lookup_fmap in Hn.
    by apply fmap_is_Some in Hn.
  - intros n tex Hn. rewrite lookup_fmap in Hn.
    destruct (Assets.textures am !! n); simpl in Hn; [| done].
    by injection Hn as <-.
Qed.

(** X27.  The manager keeps its stores consistent: starting from a new
    manager, after any [loadResource], [loadMod], [setSmooth] and
    [clean], every store holds only paths of its own kind and every
    texture is smoothed as the flag of the manager says. *)
Theorem manager_stays_consistent :
  Assets.consistent Assets.new ∧
  ∀ am, Assets.consistent am →
    (∀ file, Assets.consistent (Assets.loadResource file am).2) ∧
    (∀ files, Assets.consistent (Assets.loadMod files am).2) ∧
    (∀ folder node,
       Assets.consistent (Assets.loadResourceFolder folder node am).2) ∧
    (∀ s, Assets.consistent (Assets.setSmooth s am)) ∧
    Assets.consistent (Assets.clean am).
Proof.
  split; [apply empty_manager_consistent |].
  intros am Ham. split; [| split; [| split; [| split]]].
  - intros file. by apply loadResource_consistent.
  - intros files. unfold Assets.loadMod. rewrite loadMod_load_all. simpl.
    by apply load_all_consistent.
  - intros folder node. rewrite loadResourceFolder_tree. simpl.
    by apply load_all_consistent.
  - intros s. by apply setSmooth_consistent.
  - apply empty_manager_consistent.
Qed.

End AssetInvariant.


Lemma sample_manager_consistent : Assets.consistent sample_manager.
Proof.
  unfold sample_manager.
  apply loadResource_consistent, setSmooth_consistent,
    empty_manager_consistent.
Qed.

Lemma loadResource_touches_one_name_witness :
  Assets.same_entry "./data/textures/ship.png" sample_manager
    (Assets.loadResource "./data/textures/broken.png" sample_manager).2 ∧
  Assets.smooth
    (Assets.loadResource "./data/textures/broken.png" sample_manager).2 =
    Assets.smooth sample_manager.
Proof.
  apply (loadResource_touches_one_name "./data/textures/broken.png"
           "./data/textures/ship.png" sample_manager).
  discriminate.
Defined.

Lemma stale_manager_consistent : Assets.consistent stale_manager.
Proof.
  unfold Assets.consistent, stale_manager. simpl.
  repeat split; intros n; rewrite ?lookup_empty; try (by intros [? [=]]).
  - intros [tex Hn]. by apply lookup_singleton_Some in Hn as [<- _].
  - intros tex Hn. by apply lookup_singleton_Some in Hn as [_ <-].
Qed.

(** In the example a texture the manager holds is loaded again from a
    path that no longer loads: the entry it had is gone. *)
Lemma loadResource_outcome_witness :
  is_Some (Assets.textures stale_manager !! "./data/textures/broken.png") ∧
  Assets.absent "./data/textures/broken.png"
    (Assets.loadResource "./data/textures/broken.png" stale_manager).2 ∧
  is_Some (Assets.scripts
             (Assets.loadResource "./data/scripts/quest.lua" sample_manager).2
           !! "./data/scripts/quest.lua").
Proof.
  split; [by eexists |]. split.
  - apply (proj1 (loadResource_outcome "./data/textures/broken.png"
                    stale_manager stale_manager_consistent)).
    reflexivity.
  - apply (proj2 (loadResource_outcome "./data/scripts/quest.lua"
                    sample_manager sample_manager_consistent)).
    reflexivity.
Defined.

Lemma manager_stays_consistent_witness :
  Assets.consistent
    (Assets.loadResourceFolder "./data" sample_folder sample_manager).2 ∧
  Assets.consistent
    (Assets.loadMod ["./mods/a/fonts/broken.ttf"; "./mods/a/music/theme.ogg"]
       (Assets.clean sample_manager)).2.
Proof.
  destruct manager_stays_consistent as [Hnew Hkeep].
  destruct (Hkeep sample_manager sample_manager_consistent)
    as (_ & _ & Hfolder & _ & Hclean).
  destruct (Hkeep (Assets.clean sample_manager) Hclean) as (_ & Hmod & _).
  split; [exact (Hfolder "./data" sample_folder) | exact (Hmod _)].
Defined.

(** The example folder: the text file is passed over, the broken
    texture fails, the other texture and the script are loaded, the
    directory that cannot be opened and the pipe are skipped. *)
Lemma loadResourceFolder_loads_tree_witness :
  Assets.folder_files "./data" sample_folder =
    ["./data/readme.txt"; "./data/textures/broken.png";
     "./data/textures/ship.png"; "./data/scripts/quest.lua"] ∧
  (Assets.loadResourceFolder "./data" sample_folder Assets.new).1 = true ∧
  (Assets.loadResourceFolder "./data" sample_folder Assets.new).2 =
    Assets.load_all
      ["./data/readme.txt"; "./data/textures/broken.png";
       "./data/textures/ship.png"; "./data/scripts/quest.lua"] Assets.new ∧
  Assets.loadResourceFolder "./data/secret" (DT_DIR None) sample_manager =
    (false, sample_manager).
Proof.
  split; [reflexivity |].
  destruct (loadResourceFolder_loads_tree sample_folder "./data" Assets.new)
    as (Htrue & Hall & _).
  destruct (loadResourceFolder_loads_tree (DT_DIR None) "./data/secret"
              sample_manager) as (Hfalse & _ & Hnothing).
  split; [exact Htrue |]. split; [exact Hall |].
  rewrite (surjective_pairing (Assets.loadResourceFolder _ _ _)).
  by rewrite Hnothing, Hfalse.
Defined.

Section GetterFacts.
Context `{Media}.
Implicit Types am : Assets.t.

(** X28.  What the getters give after a load: for a script path,
    [getScript] returns the object [loadFromFile] made when
    [loadResource] returned true and is undefined when it returned
    false; for a texture path [getTexture] returns the loaded texture
    with the smoothing of the manager.  After [clean] every getter is
    undefined for every name. *)
Theorem getters_after_load (file : string) am :
  (Assets.resource_kind file = Assets.KScript →
     match ScriptObject_loadFromFile file
             (default ScriptObject_new (Assets.scripts am !! file)) with
     | Some obj =>
         (Assets.loadResource file am).1 = true ∧
         Assets.getScript file (Assets.loadResource file am).2 = Returns obj
     | None =>
         (Assets.loadResource file am).1 = false ∧
         Assets.getScript file (Assets.loadResource file am).2 = Undefined
     end) ∧
  (Assets.resource_kind file = Assets.KTexture →
     match Texture_loadFromFile file
             (default Texture_new (Assets.textures am !! file)) with
     | Some tex =>
         (Assets.loadResource file am).1 = true ∧
         Assets.getTexture file (Assets.loadResource file am).2 =
           Returns (Texture_setSmooth (Assets.smooth am) tex)
     | None =>
         (Assets.loadResource file am).1 = false ∧
         Assets.getTexture file (Assets.loadResource file am).2 = Undefined
     end) ∧
  Assets.getTexture file (Assets.clean am) = Undefined ∧
  Assets.getSoundBuffer file (Assets.clean am) = Undefined ∧
  Assets.getSong file (Assets.clean am) = Undefined ∧
  Assets.getFont file (Assets.clean am) = Undefined ∧
  Assets.getScript file (Assets.clean am) = Undefined.
Proof.
  pose proof (loadResource_cases file am) as Hcases.
  split; [| split].
  - intros Hkind. rewrite Hkind in Hcases. simpl in Hcases. rewrite Hcases.
    pose proof (load_into_entry ScriptObject_new ScriptObject_loadFromFile
                  file (Assets.scripts am)) as [Hok Hentry].
    simpl in *. unfold Assets.getScript, find_second. simpl.
    rewrite Hok, Hentry. by destruct (ScriptObject_loadFromFile file _).
  - intros Hkind. rewrite Hkind in Hcases. simpl in Hcases. rewrite Hcases.
    pose proof (load_into_entry Texture_new Texture_loadFromFile
                  file (Assets.textures am)) as [Hok Hentry].
    simpl in *. unfold Assets.getTexture, find_second. simpl.
    rewrite Hok.
    destruct (Texture_loadFromFile file _) as [tex |] eqn:Hload; simpl.
    + by rewrite lookup_alter_eq, Hentry.
    + by rewrite Hentry.
  - unfold Assets.getTexture, Assets.getSoundBuffer, Assets.getSong,
      Assets.getFont, Assets.getScript, find_second, Assets.clean.
    simpl. by rewrite !lookup_empty.
Qed.

End GetterFacts.

Lemma getters_after_load_witness :
  Assets.getScript "./data/scripts/quest.lua"
    (Assets.loadResource "./data/scripts/quest.lua" sample_manager).2 =
    Returns "./data/scripts/quest.lua" ∧
  Assets.getScript "./data/scripts/broken.lua"
    (Assets.loadResource "./data/scripts/broken.lua" sample_manager).2 =
    Undefined ∧
  Assets.getTexture "./data/textures/ship.png" sample_manager =
    Returns (mkTexture "./data/textures/ship.png" true).
Proof.
  destruct (getters_after_load "./data/scripts/quest.lua" sample_manager)
    as (Hquest & _).
  destruct (getters_after_load "./data/scripts/broken.lua" sample_manager)
    as (Hbroken & _).
  destruct (getters_after_load "./data/textures/ship.png"
              (Assets.setSmooth true Assets.new)) as (_ & Hship & _).
  split; [| split].
  - apply (Hquest eq_refl).
  - apply (Hbroken eq_refl).
  - apply (Hship eq_refl).
Defined.

(* ===================================================================== *)
(** * TestWorld files, and the entities around a point *)
(* ===================================================================== *)

(** X29.  [TestWorld::load] and [TestWorld::save] report success for
    every file: a file that cannot be opened sets [failbit], and the
    functions test [bad()].  [load] returns true also for a file that
    does not exist; [save] returns true also when nothing can be
    written, and when the file can be written it leaves it empty.  No
    other file is touched. *)
Theorem TestWorld_files_always_succeed (file : string) (fs : FileSystem) :
  TestWorld_load file fs = true ∧
  (TestWorld_save file fs).1 = true ∧
  (can_write file fs = true →
     (TestWorld_save file fs).2 !! file = Some (mkFile Malformed true)) ∧
  (can_write file fs = false → (TestWorld_save file fs).2 = fs) ∧
  (∀ other, other ≠ file → (TestWorld_save file fs).2 !! other = fs !! other).
Proof.
  unfold TestWorld_load, TestWorld_save, ifstream_open, ofstream_open.
  split; [by destruct (fs !! file) |].
  destruct (can_write file fs); simpl.
  - split; [done |]. split; [by rewrite lookup_insert_eq |].
    split; [done |]. intros other Hother. by rewrite lookup_insert_ne.
  - by repeat split.
Qed.

Lemma TestWorld_files_always_succeed_witness :
  TestWorld_load "./data/saves/none.world" ∅ = true ∧
  TestWorld_save (save_path "maze") readonly_fs = (true, readonly_fs) ∧
  (TestWorld_save (save_path "maze") writable_fs).2 !! save_path "maze" =
    Some (mkFile Malformed true).
Proof.
  destruct (TestWorld_files_always_succeed "./data/saves/none.world" ∅)
    as (Hload & _).
  destruct (TestWorld_files_always_succeed (save_path "maze") readonly_fs)
    as (_ & Htrue & _ & Hsame & _).
  destruct (TestWorld_files_always_succeed (save_path "maze") writable_fs)
    as (_ & _ & Hempty & _).
  split; [exact Hload |]. split.
  - rewrite (surjective_pairing (TestWorld_save _ _)).
    rewrite Htrue, Hsame; reflexivity.
  - apply Hempty. reflexivity.
Defined.

Section AroundFacts.
Context {float Component : Type} `{!FloatOps float}.
Context (position : Component → float * float).

Lemma around_loop (pos : float * float) (radius : float)
    (es acc : list (Entity Component)) :
  foldl (λ around e,
           match get_Physical e with
           | Some p =>
               if float_le (distance (position p) pos) radius
               then around ++ [e] else around
           | None => around
           end) acc es =
    acc ++ filter (within position pos radius) es.
Proof.
  revert acc. induction es as [| e es IH]; intros acc; simpl.
  - by rewrite app_nil_r.
  - rewrite IH, filter_cons. unfold within at 2.
    destruct (decide _) as [(p & Hp & Hle) | Hout].
    + rewrite Hp, Hle. by rewrite <- app_assoc.
    + destruct (get_Physical e) as [p |] eqn:Hp; [| done].
      destruct (float_le _ radius) eqn:Hle; [| done].
      exfalso. apply Hout. by exists p.
Qed.

(** X30.  [getEntitiesAround] returns entities of the World in the
    order they have there, each at most once per place it holds, and
    only entities that have a Physical within the radius; an entity
    without a Physical is never returned.  For a radius that is not
    positive, or a position outside the World, it returns nothing,
    whatever entities are there. *)
Theorem getEntitiesAround_spec (size : Z * Z) (es : list (Entity Component))
    (pos : float * float) (radius : float) :
  getEntitiesAround position size es pos radius
    `sublist_of` es ∧
  (∀ e, e ∈ getEntitiesAround position size es pos radius →
        within position pos radius e) ∧
  (float_le radius (float_of_int 0) = true →
     getEntitiesAround position size es pos radius = []) ∧
  (float_le (float_of_int 0) pos.1 && float_lt pos.1 (float_of_int size.1)
   && float_le (float_of_int 0) pos.2 && float_lt pos.2 (float_of_int size.2)
   = false →
     getEntitiesAround position size es pos radius = []) ∧
  (float_le radius (float_of_int 0) = false →
   float_le (float_of_int 0) pos.1 && float_lt pos.1 (float_of_int size.1)
   && float_le (float_of_int 0) pos.2 && float_lt pos.2 (float_of_int size.2)
   = true →
     getEntitiesAround position size es pos radius =
       filter (within position pos radius) es).
Proof.
  unfold getEntitiesAround.
  destruct (float_le radius (float_of_int 0)) eqn:Hradius;
    destruct (float_le (float_of_int 0) pos.1
              && float_lt pos.1 (float_of_int size.1)
              && float_le (float_of_int 0) pos.2
              && float_lt pos.2 (float_of_int size.2)) eqn:Hinside; simpl;
    try (repeat split; try done; [apply sublist_nil_l
                                 | by intros e Hin%elem_of_nil]).
  rewrite around_loop. simpl.
  split; [apply sublist_filter |]. split; [| done].
  intros e Hin. by apply list_elem_of_filter in Hin as [He _].
Qed.

End AroundFacts.

Lemma getEntitiesAround_spec_witness :
  @getEntitiesAround Z SampleComponent sample_floats sample_position
      (800, 600) sample_entities (12, 12) 0 = [] ∧
  @getEntitiesAround Z SampleComponent sample_floats sample_position
      (800, 600) sample_entities (900, 12) 40 = [] ∧
  @getEntitiesAround Z SampleComponent sample_floats sample_position
      (800, 600) sample_entities (12, 12) 40 =
    filter (@within Z SampleComponent sample_floats sample_position (12, 12) 40)
      sample_entities.
Proof.
  destruct (@getEntitiesAround_spec Z SampleComponent sample_floats
              sample_position (800, 600) sample_entities (12, 12) 0)
    as (_ & _ & Hradius & _).
  destruct (@getEntitiesAround_spec Z SampleComponent sample_floats
              sample_position (800, 600) sample_entities (900, 12) 40)
    as (_ & _ & _ & Houtside & _).
  destruct (@getEntitiesAround_spec Z SampleComponent sample_floats
              sample_position (800, 600) sample_entities (12, 12) 40)
    as (_ & _ & _ & _ & Hinside).
  split; [| split].
  - apply Hradius. reflexivity.
  - apply Houtside. reflexivity.
  - apply Hinside; reflexivity.
Defined.
